(** * WebGPU plugin: resource memoization and frame scheduling

    A shallow embedding of the WebGPU plugin of the trace runtime
    (the module that defines [webGPUPluginCreator]): the two fingerprint
    functions, the dependency comparison, the six per-device global caches with
    their device-loss subscriptions, the per-context local caches, [dispose],
    the frame-callback registry and the action queue.

    JavaScript objects that the code shares and mutates (the inner [Map] of a
    global cache, which the device-loss callback captures; the execution
    context; the promise behind an action) are modelled with explicit
    identities and explicit state passing. *)

From stdpp Require Import gmap strings list fin_maps pretty.
From Stdlib Require Import ZArith Lia.

Open Scope string_scope.

#[local] Set Warnings "-register-all".

(** ** JavaScript values *)

(** Structural view of a value, as [object-hash] walks it: descriptors are
    trees of primitives, arrays and objects.  An object is the list of its
    own enumerable properties in insertion order. *)
Inductive Value :=
  | VUndefined
  | VNull
  | VBool (b : bool)
  | VNum (z : Z)
  | VStr (s : string)
  | VArr (items : list Value)
  | VObj (props : list (string * Value)).

(** A resource descriptor ([GPUObjectDescriptorBase]) is an object. *)
Definition Descriptor := list (string * Value).

(** [o[k]] on the own properties of an object. *)
Fixpoint get_field {A} (k : string) (o : list (string * A)) : option A :=
  match o with
  | [] => None
  | (k', v) :: o' => if String.eqb k k' then Some v else get_field k o'
  end.

(** [o[k] = v]: an existing property keeps its position, a new one is added
    last. *)
Fixpoint set_field {A} (k : string) (v : A) (o : list (string * A)) : list (string * A) :=
  match o with
  | [] => [(k, v)]
  | (k', v') :: o' =>
      if String.eqb k k' then (k, v) :: o' else (k', v') :: set_field k v o'
  end.

(** [Object.assign(target, { k: v })] for a one-property source: it writes
    into [target] itself and returns it. *)
Definition object_assign1 (target : Descriptor) (k : string) (v : Value) : Descriptor :=
  set_field k v target.

(** Values as [===] sees them: primitives compare by value, [NaN] is unequal
    to itself, objects compare by identity. *)
Inductive JsVal :=
  | JUndefined
  | JNull
  | JBool (b : bool)
  | JNum (z : Z)
  | JNaN
  | JStr (s : string)
  | JRef (obj : nat).

Definition strict_eq (a b : JsVal) : bool :=
  match a, b with
  | JUndefined, JUndefined => true
  | JNull, JNull => true
  | JBool x, JBool y => Bool.eqb x y
  | JNum x, JNum y => Z.eqb x y
  | JStr x, JStr y => String.eqb x y
  | JRef x, JRef y => Nat.eqb x y
  | _, _ => false
  end.

(** A dependency array: the identity of the array object and its items. *)
Record DepArray := { arr_ref : nat; arr_items : list JsVal }.

(** [a[i]]: reading past the end yields [undefined]. *)
Definition item_at (a : list JsVal) (i : nat) : JsVal :=
  match a !! i with Some v => v | None => JUndefined end.

(** ** Devices and resources *)

(** [H<GPUDevice>]: the device object (its identity keys the global [Map]s)
    and the [instanceId] it carries. *)
Record Device := { dev_obj : nat; dev_instanceId : string }.

(** [H<T>]: the object a [device.createX] call returned, with the
    [instanceId] that [hashed] attached. *)
Record Resource := { res_obj : nat; res_instanceId : string }.

Global Instance Resource_eq_dec : EqDecision Resource.
Proof. solve_decision. Defined.

(** The six kinds cached per device and the three cached per context. *)
Inductive GlobalKind :=
  | ShaderModule | Sampler | RenderPipeline | ComputePipeline
  | BindGroupLayout | PipelineLayout.

Inductive LocalKind := BindGroup | Buffer | Texture.

Inductive Kind := KGlobal (k : GlobalKind) | KLocal (k : LocalKind).

Global Instance GlobalKind_eq_dec : EqDecision GlobalKind.
Proof. solve_decision. Defined.
Global Instance LocalKind_eq_dec : EqDecision LocalKind.
Proof. solve_decision. Defined.
Global Instance Kind_eq_dec : EqDecision Kind.
Proof. solve_decision. Defined.

(** ** isSameDependencies *)

(** The [for] loop of [isSameDependencies]: [remaining] iterations are left,
    [i] is the loop index; the result is the final [valid]. *)
Fixpoint compare_items (prev next : list JsVal) (i remaining : nat) : bool :=
  match remaining with
  | O => true
  | S r =>
      if negb (strict_eq (item_at prev i) (item_at next i)) then false
      else compare_items prev next (S i) r
  end.

Definition isSameDependencies (prev next : option DepArray) : bool :=
  match next, prev with
  | None, None => true
  | _, _ =>
      let valid := match prev with None => false | Some _ => true end in
      match next, prev with
      | Some nx, Some pv =>
          if Nat.eqb (arr_ref nx) (arr_ref pv) then true
          else
            let n := length (arr_items pv) in
            if negb (Nat.eqb n (length (arr_items nx))) then false
            else compare_items (arr_items pv) (arr_items nx) 0 n
      | _, _ => valid
      end
  end.

(** ** What a table answers

    [ctx.frameDeps] and [ctx.queueEffectsDeps] are plain objects, so
    reading one at a call-site key can give what the object inherits, and
    the comparison then runs on a value that is not an array of
    dependencies. *)

(** [!!v] on a value as [===] sees it. *)
Definition truthy (v : JsVal) : bool :=
  match v with
  | JUndefined | JNull | JNaN => false
  | JBool b => b
  | JNum z => negb (Z.eqb z 0)
  | JStr s => negb (String.eqb s EmptyString)
  | JRef _ => true
  end.

(** A value that is neither [undefined] nor [null] nor an array stored as
    dependencies, given by what the code looks at: the object identity it
    shares with arrays and [JRef] values (a primitive, a built-in function
    or a prototype has none), whether it is truthy, its [length] and its
    items. *)
Record Foreign := {
  fo_ref : option nat;
  fo_truthy : bool;
  fo_length : JsVal;
  fo_item : nat -> JsVal }.

(** What [table[key]] can give. *)
Inductive Slot :=
  | SUndefined
  | SNull
  | SDeps (a : DepArray)
  | SOther (f : Foreign).

(** [!!table[key]]: an array is an object, so it is truthy. *)
Definition slot_truthy (s : Slot) : bool :=
  match s with
  | SUndefined | SNull => false
  | SDeps _ => true
  | SOther f => fo_truthy f
  end.

(** A built-in function as a value: [len] is its [length]; it has no
    indexed properties. *)
Definition method (len : nat) : Foreign :=
  {| fo_ref := None; fo_truthy := true; fo_length := JNum (Z.of_nat len);
     fo_item := fun _ => JUndefined |}.

(** [f === a] for an array [a]. *)
Definition same_object (f : Foreign) (a : DepArray) : bool :=
  match fo_ref f with
  | Some o => Nat.eqb o (arr_ref a)
  | None => false
  end.

(** [f[0], ..., f[n-1]] *)
Definition foreign_items (f : Foreign) (n : nat) : list JsVal :=
  map (fo_item f) (seq 0 n).

(** [isSameDependencies(deps, lastDeps)] as the [pushFrame] branch calls
    it: [prev] is the array of the request and [next] is what the table
    answered.  On [undefined] and on an array it is [isSameDependencies];
    on [null] the block under [next != null] is skipped with [valid] still
    true; on any other value [n] is [prev.length], compared with the
    value's [length], and the loop reads the value's items. *)
Definition isSameDependencies_with_last (prev : DepArray) (next : Slot) : bool :=
  match next with
  | SUndefined => isSameDependencies (Some prev) None
  | SDeps nx => isSameDependencies (Some prev) (Some nx)
  | SNull => true
  | SOther f =>
      if same_object f prev then true
      else
        let n := length (arr_items prev) in
        if negb (strict_eq (JNum (Z.of_nat n)) (fo_length f)) then false
        else compare_items (arr_items prev) (foreign_items f n) 0 n
  end.

(** [isSameDependencies(cached, call.deps)] as the [queueEffect] branch
    calls it: [prev] is what the table answered and [next] is the array of
    the request.  On a value that is no array [n] is [prev.length || 0];
    the loop is reached when that is [next.length]. *)
Definition isSameDependencies_with_cached (prev : Slot) (next : DepArray) : bool :=
  match prev with
  | SUndefined => isSameDependencies None (Some next)
  | SDeps pv => isSameDependencies (Some pv) (Some next)
  | SNull => true
  | SOther f =>
      if same_object f next then true
      else
        let n := if truthy (fo_length f) then fo_length f else JNum 0 in
        let len := length (arr_items next) in
        if negb (strict_eq n (JNum (Z.of_nat len))) then false
        else compare_items (foreign_items f len) (arr_items next) 0 len
  end.

(** ** Fingerprints *)

(** The [replacer] both fingerprint functions hand to [object-hash]: an
    object that has an [instanceId] property is replaced by that property. *)
Definition replacer (v : Value) : Value :=
  match v with
  | VObj o => match get_field "instanceId" o with Some id => id | None => v end
  | _ => v
  end.

(** What [object-hash] digests.  Its [dispatch] applies the replacer to a
    value and then writes the result by type, dispatching every array item
    and every property value in turn.  [hash_view v] is the pair of the view
    of [v] with the replacer applied at [v] and the view of [v] written as it
    is. *)
Fixpoint hash_view (v : Value) : Value * Value :=
  match v with
  | VArr xs =>
      let n := VArr (map (fun x => fst (hash_view x)) xs) in (n, n)
  | VObj o =>
      let o2 := map (fun kv => (fst kv, hash_view (snd kv))) o in
      let n := VObj (map (fun kv => (fst kv, fst (snd kv))) o2) in
      (match get_field "instanceId" o2 with
       | Some p => snd p
       | None => n
       end, n)
  | _ => (v, v)
  end.

Definition replaced (v : Value) : Value := fst (hash_view v).

(** ** Program state *)

(** The six module-level [Map<GPUDevice, Map<string, H<...>>>].  The outer
    map is keyed by the identity of the device object; its values are
    references to inner [Map] objects, which live in [heap] below. *)
Record Registry := {
  SAMPLER_CACHE : gmap nat nat;
  SHADER_CACHE : gmap nat nat;
  BIND_GROUP_LAYOUT_CACHE : gmap nat nat;
  PIPELINE_LAYOUT_CACHE : gmap nat nat;
  RENDER_PIPELINE_CACHE : gmap nat nat;
  COMPUTE_PIPELINE_CACHE : gmap nat nat }.

Definition outer (k : GlobalKind) (g : Registry) : gmap nat nat :=
  match k with
  | ShaderModule => SHADER_CACHE g
  | Sampler => SAMPLER_CACHE g
  | RenderPipeline => RENDER_PIPELINE_CACHE g
  | ComputePipeline => COMPUTE_PIPELINE_CACHE g
  | BindGroupLayout => BIND_GROUP_LAYOUT_CACHE g
  | PipelineLayout => PIPELINE_LAYOUT_CACHE g
  end.

Definition set_outer (k : GlobalKind) (m : gmap nat nat) (g : Registry) : Registry :=
  match k with
  | ShaderModule =>
      {| SAMPLER_CACHE := SAMPLER_CACHE g; SHADER_CACHE := m;
         BIND_GROUP_LAYOUT_CACHE := BIND_GROUP_LAYOUT_CACHE g;
         PIPELINE_LAYOUT_CACHE := PIPELINE_LAYOUT_CACHE g;
         RENDER_PIPELINE_CACHE := RENDER_PIPELINE_CACHE g;
         COMPUTE_PIPELINE_CACHE := COMPUTE_PIPELINE_CACHE g |}
  | Sampler =>
      {| SAMPLER_CACHE := m; SHADER_CACHE := SHADER_CACHE g;
         BIND_GROUP_LAYOUT_CACHE := BIND_GROUP_LAYOUT_CACHE g;
         PIPELINE_LAYOUT_CACHE := PIPELINE_LAYOUT_CACHE g;
         RENDER_PIPELINE_CACHE := RENDER_PIPELINE_CACHE g;
         COMPUTE_PIPELINE_CACHE := COMPUTE_PIPELINE_CACHE g |}
  | RenderPipeline =>
      {| SAMPLER_CACHE := SAMPLER_CACHE g; SHADER_CACHE := SHADER_CACHE g;
         BIND_GROUP_LAYOUT_CACHE := BIND_GROUP_LAYOUT_CACHE g;
         PIPELINE_LAYOUT_CACHE := PIPELINE_LAYOUT_CACHE g;
         RENDER_PIPELINE_CACHE := m;
         COMPUTE_PIPELINE_CACHE := COMPUTE_PIPELINE_CACHE g |}
  | ComputePipeline =>
      {| SAMPLER_CACHE := SAMPLER_CACHE g; SHADER_CACHE := SHADER_CACHE g;
         BIND_GROUP_LAYOUT_CACHE := BIND_GROUP_LAYOUT_CACHE g;
         PIPELINE_LAYOUT_CACHE := PIPELINE_LAYOUT_CACHE g;
         RENDER_PIPELINE_CACHE := RENDER_PIPELINE_CACHE g;
         COMPUTE_PIPELINE_CACHE := m |}
  | BindGroupLayout =>
      {| SAMPLER_CACHE := SAMPLER_CACHE g; SHADER_CACHE := SHADER_CACHE g;
         BIND_GROUP_LAYOUT_CACHE := m;
         PIPELINE_LAYOUT_CACHE := PIPELINE_LAYOUT_CACHE g;
         RENDER_PIPELINE_CACHE := RENDER_PIPELINE_CACHE g;
         COMPUTE_PIPELINE_CACHE := COMPUTE_PIPELINE_CACHE g |}
  | PipelineLayout =>
      {| SAMPLER_CACHE := SAMPLER_CACHE g; SHADER_CACHE := SHADER_CACHE g;
         BIND_GROUP_LAYOUT_CACHE := BIND_GROUP_LAYOUT_CACHE g;
         PIPELINE_LAYOUT_CACHE := m;
         RENDER_PIPELINE_CACHE := RENDER_PIPELINE_CACHE g;
         COMPUTE_PIPELINE_CACHE := COMPUTE_PIPELINE_CACHE g |}
  end.

Definition empty_registry : Registry :=
  {| SAMPLER_CACHE := ∅; SHADER_CACHE := ∅; BIND_GROUP_LAYOUT_CACHE := ∅;
     PIPELINE_LAYOUT_CACHE := ∅; RENDER_PIPELINE_CACHE := ∅;
     COMPUTE_PIPELINE_CACHE := ∅ |}.

(** The closure passed to [device.lost.then]: it captures the kind's outer
    map, the device and [newCache]. *)
Record LostCallback := {
  cb_kind : GlobalKind;
  cb_device : Device;
  cb_cache : nat }.

(** Lines written through [log], with the values interpolated into them. *)
Inductive LogEntry :=
  | LogCleared (k : GlobalKind) (size : nat) (device_id : string)
  | LogCreatedGlobal (k : GlobalKind) (label : Value) (resource_id device_id : string)
  | LogCreatedLocal (k : LocalKind) (label : Value) (resource_id : string) (fiber : nat)
  | LogQueueEffect (fiber : nat).

(** Calls that leave the module, in the order they happen. *)
Inductive Event :=
  | EvLog (l : LogEntry)
  | EvCreate (d : Device) (k : Kind) (desc : Descriptor)
  | EvDestroy (r : Resource)
  | EvQueueEffect (effect : nat) (d : Device)
  | EvRunAction (action : nat)
  | EvResolve (future : nat) (v : Value)
  | EvReject (future : nat) (e : string).

(** State of the promise built in the action branch. *)
Inductive FutureState :=
  | Pending
  | Resolved (v : Value)
  | Rejected (e : string).

Record World := {
  registry : Registry;
  heap : gmap nat (gmap string Resource);
  next_addr : nat;
  next_obj : nat;
  lost : gset nat;
  reactions : list LostCallback;
  microtasks : list LostCallback;
  futures : gmap nat FutureState;
  next_future : nat;
  trace : list Event }.

Definition init_world : World :=
  {| registry := empty_registry; heap := ∅; next_addr := 0; next_obj := 0;
     lost := ∅; reactions := []; microtasks := []; futures := ∅;
     next_future := 0; trace := [] |}.

Definition with_registry (g : Registry) (w : World) : World :=
  {| registry := g; heap := heap w; next_addr := next_addr w;
     next_obj := next_obj w; lost := lost w; reactions := reactions w;
     microtasks := microtasks w; futures := futures w;
     next_future := next_future w; trace := trace w |}.

Definition with_heap (h : gmap nat (gmap string Resource)) (w : World) : World :=
  {| registry := registry w; heap := h; next_addr := next_addr w;
     next_obj := next_obj w; lost := lost w; reactions := reactions w;
     microtasks := microtasks w; futures := futures w;
     next_future := next_future w; trace := trace w |}.

Definition with_next_addr (n : nat) (w : World) : World :=
  {| registry := registry w; heap := heap w; next_addr := n;
     next_obj := next_obj w; lost := lost w; reactions := reactions w;
     microtasks := microtasks w; futures := futures w;
     next_future := next_future w; trace := trace w |}.

Definition with_next_obj (n : nat) (w : World) : World :=
  {| registry := registry w; heap := heap w; next_addr := next_addr w;
     next_obj := n; lost := lost w; reactions := reactions w;
     microtasks := microtasks w; futures := futures w;
     next_future := next_future w; trace := trace w |}.

Definition with_lost (l : gset nat) (w : World) : World :=
  {| registry := registry w; heap := heap w; next_addr := next_addr w;
     next_obj := next_obj w; lost := l; reactions := reactions w;
     microtasks := microtasks w; futures := futures w;
     next_future := next_future w; trace := trace w |}.

Definition with_reactions (l : list LostCallback) (w : World) : World :=
  {| registry := registry w; heap := heap w; next_addr := next_addr w;
     next_obj := next_obj w; lost := lost w; reactions := l;
     microtasks := microtasks w; futures := futures w;
     next_future := next_future w; trace := trace w |}.

Definition with_microtasks (l : list LostCallback) (w : World) : World :=
  {| registry := registry w; heap := heap w; next_addr := next_addr w;
     next_obj := next_obj w; lost := lost w; reactions := reactions w;
     microtasks := l; futures := futures w;
     next_future := next_future w; trace := trace w |}.

Definition with_futures (f : gmap nat FutureState) (n : nat) (w : World) : World :=
  {| registry := registry w; heap := heap w; next_addr := next_addr w;
     next_obj := next_obj w; lost := lost w; reactions := reactions w;
     microtasks := microtasks w; futures := f;
     next_future := n; trace := trace w |}.

Definition emit (e : Event) (w : World) : World :=
  {| registry := registry w; heap := heap w; next_addr := next_addr w;
     next_obj := next_obj w; lost := lost w; reactions := reactions w;
     microtasks := microtasks w; futures := futures w;
     next_future := next_future w; trace := trace w ++ [e] |}.

(** [WebGPUFrameContext]: every field is optional and is filled in by the
    first [exec] on the context.  The three [Map]s keep insertion order,
    which is the order [dispose] walks them in.  The two tables keyed by
    call site are plain objects, given by the arrays assigned to them: an
    assignment makes an own property, except at the name [__proto__],
    where it sets the object the table inherits from; a plain object has
    no own property of that name, so the entry at [__proto__] is that
    object.  What a table answers at a key is [table_get] below. *)
Record Ctx := {
  calls : option (gmap string Value);
  frameDeps : option (gmap string DepArray);
  buffers : option (list (string * Resource));
  bindGroups : option (list (string * Resource));
  textures : option (list (string * Resource));
  queueEffectsDeps : option (gmap string DepArray) }.

(** A context nothing has run on yet. *)
Definition fresh_ctx : Ctx :=
  {| calls := None; frameDeps := None; buffers := None; bindGroups := None;
     textures := None; queueEffectsDeps := None |}.

Inductive FrameKind := Once | Loop.

Record FrameCallback := {
  valid : bool;
  callback : nat;
  enabled : bool;
  kind : FrameKind }.

(** The async function the action branch adds to [actionContext]: it closes
    over the action and over the promise whose [resolve]/[reject] it holds. *)
Record Wrapper := { wr_action : nat; wr_future : nat }.

(** What [webGPUPluginCreator] closes over. *)
Record Plugin := {
  device : Device;
  rendererContext : gmap string FrameCallback;
  actionContext : list Wrapper }.

Inductive PluginCalls :=
  | CreateShaderModule (d : Descriptor)
  | CreateRenderPipeline (d : Descriptor)
  | CreateComputePipeline (d : Descriptor)
  | CreateBindGroupLayout (d : Descriptor)
  | CreatePipelineLayout (d : Descriptor)
  | CreateBuffer (d : Descriptor)
  | CreateTexture (d : Descriptor)
  | CreateBindGroup (d : Descriptor)
  | CreateSampler (d : Descriptor)
  | PushFrame (frame : nat) (deps : option DepArray)
  | Action (action : nat)
  | QueueEffect (effect : nat) (deps : DepArray)
  | UnknownCall.

(** What [exec] hands back. *)
Inductive Returned :=
  | RResource (r : Resource)
  | RFrame (f : FrameCallback)
  | RThunk (action : nat)
  | RUndefined.

Inductive Outcome :=
  | Return (v : Returned)
  | Throw (e : string).

(** How a call [action(bag)] ends: the promise it returns fulfils or
    rejects, or the call itself throws before any promise exists, or the
    promise never settles. *)
Inductive ActionOutcome :=
  | Fulfils (v : Value)
  | Rejects (e : string)
  | ThrowsSync (e : string)
  | NeverSettles.

(** ** Sample parameters

    Concrete stand-ins for what the plugin takes from outside, used to run
    the model on examples. *)

Module Sample.

(** A digest that writes the view out in full. *)
Fixpoint show (v : Value) : string :=
  match v with
  | VUndefined => "undefined"
  | VNull => "null"
  | VBool b => if b then "true" else "false"
  | VNum z => pretty z
  | VStr s => "'" ++ s ++ "'"
  | VArr xs => "[" ++ String.concat "," (map show xs) ++ "]"
  | VObj o =>
      "{" ++ String.concat "," (map (fun kv => fst kv ++ ":" ++ show (snd kv)) o) ++ "}"
  end.

Definition stringHash (s : string) : nat := String.length s.
Definition shortId (s : string) : string := s.
Definition hashed_id (n : nat) : string := "h" ++ pretty n.

(** A device that accepts every creation call, and one that rejects
    every creation call. *)
Definition accepting (d : Device) (k : Kind) (desc : Descriptor) : option string := None.
Definition rejecting (d : Device) (k : Kind) (desc : Descriptor) : option string :=
  Some "OperationError".

(** Action 0 fulfils with 7, action 1 rejects, action 2 throws before it
    returns a promise, every other action never settles. *)
Definition action_outcome (a : nat) (bag : unit) : ActionOutcome :=
  match a with
  | 0 => Fulfils (VNum 7)
  | 1 => Rejects "failed"
  | 2 => ThrowsSync "boom"
  | _ => NeverSettles
  end.

(** The functions of [Object.prototype] and of [Array.prototype], by name,
    with their [length]. *)
Definition object_methods : list (string * nat) :=
  [("constructor", 1); ("hasOwnProperty", 1); ("isPrototypeOf", 1);
   ("propertyIsEnumerable", 1); ("toLocaleString", 0); ("toString", 0);
   ("valueOf", 0); ("__defineGetter__", 2); ("__defineSetter__", 2);
   ("__lookupGetter__", 1); ("__lookupSetter__", 1)].
Definition array_methods : list (string * nat) :=
  [("constructor", 1); ("toString", 0); ("toLocaleString", 0);
   ("at", 1); ("concat", 1); ("copyWithin", 2); ("entries", 0); ("every", 1);
   ("fill", 1); ("filter", 1); ("find", 1); ("findIndex", 1); ("findLast", 1);
   ("findLastIndex", 1); ("flat", 0); ("flatMap", 1); ("forEach", 1);
   ("includes", 1); ("indexOf", 1); ("join", 1); ("keys", 0); ("lastIndexOf", 1);
   ("map", 1); ("pop", 0); ("push", 1); ("reduce", 1); ("reduceRight", 1);
   ("reverse", 0); ("shift", 0); ("slice", 2); ("some", 1); ("sort", 1);
   ("splice", 2); ("toReversed", 0); ("toSorted", 1); ("toSpliced", 2);
   ("unshift", 1); ("values", 0); ("with", 2)].

Definition method_slot (methods : list (string * nat)) (key : string) : Slot :=
  match get_field key methods with
  | Some len => SOther (method len)
  | None => SUndefined
  end.

(** [Object.prototype] as a value: an object without a [length]. *)
Definition object_prototype : Foreign :=
  {| fo_ref := None; fo_truthy := true; fo_length := JUndefined;
     fo_item := fun _ => JUndefined |}.

(** An object or a primitive without a [length], as a value. *)
Definition plain_value (v : JsVal) : Foreign :=
  {| fo_ref := match v with JRef o => Some o | _ => None end;
     fo_truthy := truthy v; fo_length := JUndefined;
     fo_item := fun _ => JUndefined |}.

(** An item of an array, as what a table that inherits from the array
    answers: a string has a [length] and characters, an object is taken to
    have neither. *)
Definition item_slot (v : JsVal) : Slot :=
  match v with
  | JUndefined => SUndefined
  | JNull => SNull
  | JStr s =>
      SOther {| fo_ref := None; fo_truthy := truthy v;
                fo_length := JNum (Z.of_nat (String.length s));
                fo_item := fun i => match String.get i s with
                                    | Some c => JStr (String c EmptyString)
                                    | None => JUndefined
                                    end |}
  | _ => SOther (plain_value v)
  end.

(** What a table answers at a name it has no entry for.  A plain object
    inherits the functions of [Object.prototype], and answers
    [Object.prototype] itself at [__proto__]; a table whose prototype was
    set to an array answers the array's [length] and items, then the
    functions of [Array.prototype] and of [Object.prototype]. *)
Definition inherited (parent : option DepArray) (key : string) : Slot :=
  match parent with
  | None =>
      if String.eqb key "__proto__" then SOther object_prototype
      else method_slot object_methods key
  | Some a =>
      if String.eqb key "length"
      then SOther (plain_value (JNum (Z.of_nat (length (arr_items a)))))
      else
        match find (fun i => String.eqb key (pretty i)) (seq 0 (length (arr_items a))) with
        | Some i => item_slot (item_at (arr_items a) i)
        | None => method_slot (array_methods ++ object_methods) key
        end
  end.

Definition gpu : Device := {| dev_obj := 0; dev_instanceId := "gpu-0" |}.

Definition plugin : Plugin :=
  {| device := gpu; rendererContext := ∅; actionContext := [] |}.

(** [{ size: 256, label: "a" }] *)
Definition desc_a : Descriptor := [("size", VNum 256); ("label", VStr "a")].

Definition deps_12 (ref : nat) : DepArray :=
  {| arr_ref := ref; arr_items := [JNum 1; JNum 2] |}.
Definition deps_13 (ref : nat) : DepArray :=
  {| arr_ref := ref; arr_items := [JNum 1; JNum 3] |}.

End Sample.

(** ** The plugin *)

Section WebGPUPlugin.

(** [object-hash]'s digest of the view it is given. *)
Variable digest : Value -> string.
(** [string-hash] and [shortId], used in log lines only. *)
Variable stringHash : string -> nat.
Variable shortId : string -> string.
(** The [instanceId] that [hashed] attaches to the object with a given
    identity. *)
Variable hashed_id : nat -> string.
(** Whether [device.createX(descriptor)] throws, and what. *)
Variable backend_error : Device -> Kind -> Descriptor -> option string.
(** What an object used as a table answers at a name it has no entry for:
    [inherited None] is what a plain object inherits (the members of
    [Object.prototype], and [Object.prototype] itself at [__proto__]);
    [inherited (Some a)] is what an object whose prototype was set to the
    array [a] inherits (the items and [length] of [a], then the members of
    [Array.prototype] and of [Object.prototype]). *)
Variable inherited : option DepArray -> string -> Slot.
(** The bag the frame driver passes to an action, and how each action
    ends when called with it. *)
Variable Bag : Type.
Variable action_outcome : nat -> Bag -> ActionOutcome.

(** [hash(value, { replacer })] *)
Definition hash (v : Value) : string := digest (replaced v).

Definition globalResourceHash (desc : Descriptor) : string :=
  hash (VObj desc).

(** [localResourceHash] returns the fingerprint; [Object.assign] writes
    [owningDevice] into the caller's descriptor, so the descriptor as it is
    after the call is returned with it. *)
Definition localResourceHash (desc : Descriptor) (owner : Device) : string * Descriptor :=
  let desc' := object_assign1 desc "owningDevice" (VStr (dev_instanceId owner)) in
  (hash (VObj desc'), desc').

(** [hashed(obj)] *)
Definition hashed (obj : nat) : Resource :=
  {| res_obj := obj; res_instanceId := hashed_id obj |}.

(** [descriptor.label ?? "<unnamed>"] *)
Definition label_of (d : Descriptor) : Value :=
  match get_field "label" d with
  | None | Some VUndefined | Some VNull => VStr "<unnamed>"
  | Some v => v
  end.

(** *** Device loss *)

(** [device.lost.then(cb)]: a reaction on a pending promise waits; on a
    promise that is already resolved it is queued as a microtask. *)
Definition subscribe_lost (cb : LostCallback) (w : World) : World :=
  if decide (dev_obj (cb_device cb) ∈ lost w)
  then with_microtasks (microtasks w ++ [cb]) w
  else with_reactions (reactions w ++ [cb]) w.

Definition on_device (d : nat) (cb : LostCallback) : bool :=
  Nat.eqb (dev_obj (cb_device cb)) d.

(** The device's [lost] promise resolves: its reactions are queued in
    registration order.  A promise resolves once. *)
Definition resolve_lost (d : nat) (w : World) : World :=
  if decide (d ∈ lost w) then w
  else
    with_lost ({[d]} ∪ lost w)
      (with_microtasks (microtasks w ++ filter (fun cb => on_device d cb = true) (reactions w))
        (with_reactions (filter (fun cb => on_device d cb <> true) (reactions w)) w)).

(** The body of the callback given to [device.lost.then]. *)
Definition run_lost_callback (cb : LostCallback) (w : World) : World :=
  let w1 :=
    with_registry
      (set_outer (cb_kind cb)
         (delete (dev_obj (cb_device cb)) (outer (cb_kind cb) (registry w)))
         (registry w)) w in
  let size := size (default ∅ (heap w1 !! cb_cache cb)) in
  let w2 := with_heap (<[cb_cache cb := ∅]> (heap w1)) w1 in
  emit (EvLog (LogCleared (cb_kind cb) size (dev_instanceId (cb_device cb)))) w2.

(** The microtask queue is drained, oldest first. *)
Definition run_microtasks (w : World) : World :=
  foldl (fun acc cb => run_lost_callback cb acc) (with_microtasks [] w) (microtasks w).

(** The lost signal of a device fires and its reactions run. *)
Definition device_lost (d : nat) (w : World) : World :=
  run_microtasks (resolve_lost d w).

(** *** Global caches *)

(** The first use of a device with a kind: [new Map()],
    [CACHE.set(device, cache)] and the subscription to [device.lost]. *)
Definition with_new_cache (k : GlobalKind) (dev : Device) (w : World) : World :=
  subscribe_lost {| cb_kind := k; cb_device := dev; cb_cache := next_addr w |}
    (with_registry
       (set_outer k (<[dev_obj dev := next_addr w]> (outer k (registry w))) (registry w))
       (with_next_addr (S (next_addr w)) (with_heap (<[next_addr w := ∅]> (heap w)) w))).

(** [CACHE.get(device)], or the new cache if there is none: the cache and
    the world it is registered in. *)
Definition cache_for (k : GlobalKind) (dev : Device) (w : World) : nat * World :=
  match outer k (registry w) !! dev_obj dev with
  | Some a => (a, w)
  | None => (next_addr w, with_new_cache k dev w)
  end.

(** One of the six global branches of [exec]; they differ in the outer map
    and in the text of their log lines. *)
Definition exec_global (k : GlobalKind) (dev : Device) (desc : Descriptor) (w : World)
  : Outcome * World :=
  let '(a, w1) := cache_for k dev w in
  let cache := default ∅ (heap w1 !! a) in
  let resourceKey := globalResourceHash desc in
  match cache !! resourceKey with
  | Some fromCache => (Return (RResource fromCache), w1)
  | None =>
      let w2 := emit (EvCreate dev (KGlobal k) desc) w1 in
      match backend_error dev (KGlobal k) desc with
      | Some e => (Throw e, w2)
      | None =>
          let resource := hashed (next_obj w2) in
          let w3 := with_next_obj (S (next_obj w2)) w2 in
          let w4 := with_heap (<[a := <[resourceKey := resource]> cache]> (heap w3)) w3 in
          (Return (RResource resource),
           emit (EvLog (LogCreatedGlobal k (label_of desc)
                          (shortId (res_instanceId resource))
                          (shortId (dev_instanceId dev)))) w4)
      end
  end.

(** *** Local caches *)

Definition local_map (k : LocalKind) (ctx : Ctx) : list (string * Resource) :=
  default [] (match k with
              | BindGroup => bindGroups ctx
              | Buffer => buffers ctx
              | Texture => textures ctx
              end).

Definition set_local_map (k : LocalKind) (m : list (string * Resource)) (ctx : Ctx) : Ctx :=
  match k with
  | BindGroup =>
      {| calls := calls ctx; frameDeps := frameDeps ctx; buffers := buffers ctx;
         bindGroups := Some m; textures := textures ctx;
         queueEffectsDeps := queueEffectsDeps ctx |}
  | Buffer =>
      {| calls := calls ctx; frameDeps := frameDeps ctx; buffers := Some m;
         bindGroups := bindGroups ctx; textures := textures ctx;
         queueEffectsDeps := queueEffectsDeps ctx |}
  | Texture =>
      {| calls := calls ctx; frameDeps := frameDeps ctx; buffers := buffers ctx;
         bindGroups := bindGroups ctx; textures := Some m;
         queueEffectsDeps := queueEffectsDeps ctx |}
  end.

(** One of the three local branches of [exec]. *)
Definition exec_local (k : LocalKind) (dev : Device) (desc : Descriptor)
    (fiberHash : nat) (ctx : Ctx) (w : World) : Outcome * Ctx * World :=
  let '(key, desc') := localResourceHash desc dev in
  match get_field key (local_map k ctx) with
  | Some existing => (Return (RResource existing), ctx, w)
  | None =>
      let w1 := emit (EvCreate dev (KLocal k) desc') w in
      match backend_error dev (KLocal k) desc' with
      | Some e => (Throw e, ctx, w1)
      | None =>
          let resource := hashed (next_obj w1) in
          let w2 := with_next_obj (S (next_obj w1)) w1 in
          let ctx' := set_local_map k (set_field key resource (local_map k ctx)) ctx in
          (Return (RResource resource), ctx',
           emit (EvLog (LogCreatedLocal k (label_of desc')
                          (shortId (res_instanceId resource)) fiberHash)) w2)
      end
  end.

(** *** dispose *)

Definition destroy_all (m : option (list (string * Resource))) (w : World) : World :=
  match m with
  | Some entries => foldl (fun acc kv => emit (EvDestroy (snd kv)) acc) w entries
  | None => w
  end.

(** [dispose(ctx)]: the context is returned as [dispose] leaves it. *)
Definition dispose (ctx : Ctx) (w : World) : Ctx * World :=
  (ctx, destroy_all (buffers ctx) (destroy_all (textures ctx) w)).

(** *** Frame callbacks and queue effects *)

(** [table[key]]: the table's own entry, or what it inherits. *)
Definition table_get (t : gmap string DepArray) (key : string) : Slot :=
  match t !! key with
  | Some a => SDeps a
  | None => inherited (t !! "__proto__") key
  end.

(** [ctx.frameDeps[key] = deps].  The assignment is taken to succeed: the
    table is extensible, and nothing it inherits from is read-only (the
    built-in prototypes are not, and the arrays of dependencies are taken
    not to be frozen). *)
Definition record_frameDeps (key : string) (deps : DepArray) (ctx : Ctx) : Ctx :=
  {| calls := calls ctx;
     frameDeps := Some (<[key := deps]> (default ∅ (frameDeps ctx)));
     buffers := buffers ctx; bindGroups := bindGroups ctx;
     textures := textures ctx; queueEffectsDeps := queueEffectsDeps ctx |}.

(** [ctx.queueEffectsDeps[key] = call.deps] *)
Definition record_queueEffectsDeps (key : string) (deps : DepArray) (ctx : Ctx) : Ctx :=
  {| calls := calls ctx; frameDeps := frameDeps ctx;
     buffers := buffers ctx; bindGroups := bindGroups ctx;
     textures := textures ctx;
     queueEffectsDeps := Some (<[key := deps]> (default ∅ (queueEffectsDeps ctx))) |}.

Definition with_rendererContext (m : gmap string FrameCallback) (p : Plugin) : Plugin :=
  {| device := device p; rendererContext := m; actionContext := actionContext p |}.

Definition with_actionContext (l : list Wrapper) (p : Plugin) : Plugin :=
  {| device := device p; rendererContext := rendererContext p; actionContext := l |}.

(** The [pushFrame] branch. *)
Definition exec_pushFrame (key : string) (pushFrame : nat) (deps : option DepArray)
    (p : Plugin) (ctx : Ctx) : FrameCallback * Plugin * Ctx :=
  match deps with
  | Some deps =>
      let lastDeps := table_get (default ∅ (frameDeps ctx)) key in
      let isFirstRender := negb (slot_truthy lastDeps) in
      let areSame := isSameDependencies_with_last deps lastDeps in
      let enabled := negb areSame || isFirstRender in
      let frame := {| valid := true; callback := pushFrame; enabled := enabled; kind := Once |} in
      let ctx' := record_frameDeps key deps ctx in
      (frame, with_rendererContext (<[key := frame]> (rendererContext p)) p, ctx')
  | None =>
      let frame := {| valid := true; callback := pushFrame; enabled := true; kind := Loop |} in
      (frame, with_rendererContext (<[key := frame]> (rendererContext p)) p, ctx)
  end.

(** The [queueEffect] branch. *)
Definition exec_queueEffect (key : string) (fiberHash : nat) (effect : nat)
    (deps : DepArray) (dev : Device) (ctx : Ctx) (w : World) : Ctx * World :=
  let cached := table_get (default ∅ (queueEffectsDeps ctx)) key in
  if negb (isSameDependencies_with_cached cached deps) then
    (record_queueEffectsDeps key deps ctx,
     emit (EvQueueEffect effect dev) (emit (EvLog (LogQueueEffect fiberHash)) w))
  else (ctx, w).

(** *** Actions *)

(** [resolve] and [reject] of a promise: only a pending promise changes. *)
Definition settle (f : nat) (s : FutureState) (w : World) : World :=
  match futures w !! f with
  | Some Pending => with_futures (<[f := s]> (futures w)) (next_future w) w
  | _ => w
  end.

Definition promise_resolve (f : nat) (v : Value) (w : World) : World :=
  settle f (Resolved v) (emit (EvResolve f v) w).

Definition promise_reject (f : nat) (e : string) (w : World) : World :=
  settle f (Rejected e) (emit (EvReject f e) w).

(** Calling the function the action branch returned: it builds the
    promise, adds the wrapper to [actionContext] and returns the promise. *)
Definition call_thunk (action : nat) (p : Plugin) (w : World) : nat * Plugin * World :=
  let token := next_future w in
  let w1 := with_futures (<[token := Pending]> (futures w)) (S token) w in
  (token,
   with_actionContext (actionContext p ++ [{| wr_action := action; wr_future := token |}]) p,
   w1).

(** The frame driver calls a wrapper from [actionContext]:
    [call.action(bag).then(promise.resolve).catch(promise.reject)] inside
    an [async] arrow function. *)
Definition run_wrapper (wr : Wrapper) (bag : Bag) (w : World) : World :=
  let w1 := emit (EvRunAction (wr_action wr)) w in
  match action_outcome (wr_action wr) bag with
  | Fulfils v => promise_resolve (wr_future wr) v w1
  | Rejects e => promise_reject (wr_future wr) e w1
  | ThrowsSync _ => w1
  | NeverSettles => w1
  end.

(** *** exec *)

Definition or_new {A} (x : option A) (new : A) : option A :=
  match x with Some v => Some v | None => Some new end.

(** The six [if (!ctx.field)] initialisations at the top of [exec]. *)
Definition ensure_fields (ctx : Ctx) : Ctx :=
  {| calls := or_new (calls ctx) ∅;
     frameDeps := or_new (frameDeps ctx) ∅;
     buffers := or_new (buffers ctx) [];
     bindGroups := or_new (bindGroups ctx) [];
     textures := or_new (textures ctx) [];
     queueEffectsDeps := or_new (queueEffectsDeps ctx) ∅ |}.

(** [callSite.join("@")] *)
Definition join_callSite (callSite : list string) : string :=
  String.concat "@" callSite.

Definition exec (p : Plugin) (call : PluginCalls) (callSite : list string)
    (ctx : Ctx) (w : World) : Outcome * Plugin * Ctx * World :=
  let key := join_callSite callSite in
  let fiberHash := stringHash key in
  let ctx := ensure_fields ctx in
  let global k d :=
    let '(o, w') := exec_global k (device p) d w in (o, p, ctx, w') in
  let local k d :=
    let '(o, ctx', w') := exec_local k (device p) d fiberHash ctx w in (o, p, ctx', w') in
  match call with
  | CreateShaderModule d => global ShaderModule d
  | CreateSampler d => global Sampler d
  | CreateRenderPipeline d => global RenderPipeline d
  | CreateComputePipeline d => global ComputePipeline d
  | CreateBindGroupLayout d => global BindGroupLayout d
  | CreatePipelineLayout d => global PipelineLayout d
  | CreateBindGroup d => local BindGroup d
  | CreateBuffer d => local Buffer d
  | CreateTexture d => local Texture d
  | QueueEffect effect deps =>
      let '(ctx', w') := exec_queueEffect key fiberHash effect deps (device p) ctx w in
      (Return RUndefined, p, ctx', w')
  | Action action => (Return (RThunk action), p, ctx, w)
  | PushFrame frame deps =>
      let '(f, p', ctx') := exec_pushFrame key frame deps p ctx in
      (Return (RFrame f), p', ctx', w)
  | UnknownCall => (Throw "Unknown call using WebGPU symbol", p, ctx, w)
  end.

(** *** Runs of the program *)

(** One thing happens: the plugin is called, a promise is called back, a
    device is lost, or the microtask queue is drained. *)
Inductive step : World -> World -> Prop :=
  | step_exec p call callSite ctx w :
      step w (snd (exec p call callSite ctx w))
  | step_dispose ctx w :
      step w (snd (dispose ctx w))
  | step_call_thunk action p w :
      step w (snd (call_thunk action p w))
  | step_run_wrapper wr bag w :
      step w (run_wrapper wr bag w)
  | step_resolve_lost d w :
      step w (resolve_lost d w)
  | step_run_microtasks w :
      step w (run_microtasks w).

Inductive steps : World -> World -> Prop :=
  | steps_refl w : steps w w
  | steps_next w1 w2 w3 : steps w1 w2 -> step w2 w3 -> steps w1 w3.

Definition reachable (w : World) : Prop := steps init_world w.

(** The entries of the cache registered for a device, if one is. *)
Definition cache_view (k : GlobalKind) (d : nat) (w : World) : gmap string Resource :=
  match outer k (registry w) !! d with
  | Some a => default ∅ (heap w !! a)
  | None => ∅
  end.

(** The [device.createX] calls in a trace. *)
Definition creations (t : list Event) : list (Device * Kind * Descriptor) :=
  omap (fun e => match e with EvCreate d k desc => Some (d, k, desc) | _ => None end) t.

(** The resources [destroy] was called on, once per call. *)
Definition destroyed (t : list Event) : list Resource :=
  omap (fun e => match e with EvDestroy r => Some r | _ => None end) t.


(** The request that asks for a resource of a given kind. *)
Definition global_call (k : GlobalKind) (d : Descriptor) : PluginCalls :=
  match k with
  | ShaderModule => CreateShaderModule d
  | Sampler => CreateSampler d
  | RenderPipeline => CreateRenderPipeline d
  | ComputePipeline => CreateComputePipeline d
  | BindGroupLayout => CreateBindGroupLayout d
  | PipelineLayout => CreatePipelineLayout d
  end.

Definition local_call (k : LocalKind) (d : Descriptor) : PluginCalls :=
  match k with
  | BindGroup => CreateBindGroup d
  | Buffer => CreateBuffer d
  | Texture => CreateTexture d
  end.

(** A world with its trace forgotten: two worlds with the same image differ
    in their traces only. *)
Definition without_trace (w : World) : World :=
  {| registry := registry w; heap := heap w; next_addr := next_addr w;
     next_obj := next_obj w; lost := lost w; reactions := reactions w;
     microtasks := microtasks w; futures := futures w;
     next_future := next_future w; trace := [] |}.

(** The resources a context holds in its texture and buffer caches, in the
    order [dispose] visits them. *)
Definition held (ctx : Ctx) : list Resource :=
  map snd (default [] (textures ctx)) ++ map snd (default [] (buffers ctx)).

(** Every resource a context holds in its three local caches. *)
Definition local_resources (ctx : Ctx) : list Resource :=
  map snd (local_map BindGroup ctx) ++ map snd (local_map Buffer ctx)
    ++ map snd (local_map Texture ctx).

(** A context as [exec] builds it: the objects it holds are pairwise
    distinct and were all allocated before now. *)
Definition ctx_wf (w : World) (ctx : Ctx) : Prop :=
  NoDup (map res_obj (local_resources ctx)) /\
  Forall (fun r => res_obj r < next_obj w) (local_resources ctx).

(** Two contexts of one world, as [exec] builds them: no object is held by
    both. *)
Definition siblings_wf (w : World) (c1 c2 : Ctx) : Prop :=
  NoDup (map res_obj (local_resources c1 ++ local_resources c2)) /\
  Forall (fun r => res_obj r < next_obj w) (local_resources c1 ++ local_resources c2).

(** The three ways a local branch can go: a hit, a rejected creation, a
    creation. *)
Inductive local_run (k : LocalKind) (dev : Device) (d : Descriptor) (fiber : nat)
    (ctx : Ctx) (w : World) : Outcome * Ctx * World -> Prop :=
  | local_hit r :
      get_field (fst (localResourceHash d dev)) (local_map k ctx) = Some r ->
      local_run k dev d fiber ctx w (Return (RResource r), ctx, w)
  | local_rejected e :
      get_field (fst (localResourceHash d dev)) (local_map k ctx) = None ->
      backend_error dev (KLocal k) (snd (localResourceHash d dev)) = Some e ->
      local_run k dev d fiber ctx w
        (Throw e, ctx, emit (EvCreate dev (KLocal k) (snd (localResourceHash d dev))) w)
  | local_created :
      get_field (fst (localResourceHash d dev)) (local_map k ctx) = None ->
      backend_error dev (KLocal k) (snd (localResourceHash d dev)) = None ->
      local_run k dev d fiber ctx w
        (Return (RResource (hashed (next_obj w))),
         set_local_map k
           (set_field (fst (localResourceHash d dev)) (hashed (next_obj w)) (local_map k ctx))
           ctx,
         emit (EvLog (LogCreatedLocal k (label_of (snd (localResourceHash d dev)))
                        (shortId (res_instanceId (hashed (next_obj w)))) fiber))
           (with_next_obj (S (next_obj w))
              (emit (EvCreate dev (KLocal k) (snd (localResourceHash d dev))) w))).

(** The same for a global branch, after [cache_for] has found or made the
    cache [a] in [w1]. *)
Inductive global_run (k : GlobalKind) (dev : Device) (d : Descriptor)
    (a : nat) (w1 : World) : Outcome * World -> Prop :=
  | global_hit r :
      default ∅ (heap w1 !! a) !! globalResourceHash d = Some r ->
      global_run k dev d a w1 (Return (RResource r), w1)
  | global_rejected e :
      default ∅ (heap w1 !! a) !! globalResourceHash d = None ->
      backend_error dev (KGlobal k) d = Some e ->
      global_run k dev d a w1 (Throw e, emit (EvCreate dev (KGlobal k) d) w1)
  | global_created :
      default ∅ (heap w1 !! a) !! globalResourceHash d = None ->
      backend_error dev (KGlobal k) d = None ->
      global_run k dev d a w1
        (Return (RResource (hashed (next_obj w1))),
         emit (EvLog (LogCreatedGlobal k (label_of d)
                        (shortId (res_instanceId (hashed (next_obj w1))))
                        (shortId (dev_instanceId dev))))
           (with_heap
              (<[a := <[globalResourceHash d := hashed (next_obj w1)]>
                        (default ∅ (heap w1 !! a))]> (heap w1))
              (with_next_obj (S (next_obj w1))
                 (emit (EvCreate dev (KGlobal k) d) w1)))).

(** The device-loss callbacks that have not run yet. *)
Definition pending (w : World) : list LostCallback :=
  (reactions w ++ microtasks w)%list.

(** What holds of the world in every run of the program: each registered
    cache has its device-loss callback pending; no two pending callbacks
    hold the same cache; caches and objects in use were allocated before
    now; a queued callback belongs to a lost device and a waiting one to a
    live device. *)
Record world_inv (w : World) : Prop := {
  inv_registered : forall k d a,
    outer k (registry w) !! d = Some a ->
    exists dev, dev_obj dev = d /\
      {| cb_kind := k; cb_device := dev; cb_cache := a |} ∈ pending w;
  inv_nodup : NoDup (map cb_cache (pending w));
  inv_addr : forall cb, cb ∈ pending w -> cb_cache cb < next_addr w;
  inv_queued_lost : forall cb, cb ∈ microtasks w -> dev_obj (cb_device cb) ∈ lost w;
  inv_waiting_live : forall cb, cb ∈ reactions w -> dev_obj (cb_device cb) ∉ lost w;
  inv_obj : forall a c key r,
    heap w !! a = Some c -> c !! key = Some r -> res_obj r < next_obj w }.

(** Running a list of device-loss callbacks, first to last. *)
Definition drain (l : list LostCallback) (s : World) : World :=
  foldl (fun acc cb => run_lost_callback cb acc) s l.

(** The line a callback logs when it runs in world [s]. *)
Definition cleared_event (s : World) (cb : LostCallback) : Event :=
  EvLog (LogCleared (cb_kind cb) (size (default ∅ (heap s !! cb_cache cb)))
           (dev_instanceId (cb_device cb))).

(** A callback for kind [k] and device object [d]. *)
Definition evicts (k : GlobalKind) (d : nat) (cb : LostCallback) : Prop :=
  cb_kind cb = k /\ dev_obj (cb_device cb) = d.

Global Instance evicts_dec k d cb : Decision (evicts k d cb).
Proof. unfold evicts. apply _. Defined.

(** A step that leaves caches, callbacks and lost devices alone. *)
Definition quiet (w w' : World) : Prop :=
  registry w' = registry w /\ heap w' = heap w /\ next_addr w' = next_addr w /\
  next_obj w <= next_obj w' /\ lost w' = lost w /\
  reactions w' = reactions w /\ microtasks w' = microtasks w.

(** A cache whose callback has run: nothing refers to it any more. *)
Definition retired (a : nat) (w : World) : Prop :=
  a < next_addr w /\ a ∉ map cb_cache (pending w).

(** ** Statements in the words of the specification *)

(** Pairwise [===] on two arrays of the same length. *)
Definition pairwise_strict_eq (a b : list JsVal) : Prop :=
  Forall2 (fun x y => strict_eq x y = true) a b.

(** The sameness relation in the words of the specification: the identical
    sequence object (two absent sequences are [===] too), or both defined
    with equal length and pairwise identical items. *)
Definition identical (prev next : option DepArray) : Prop :=
  match prev, next with
  | Some p, Some n => arr_ref p = arr_ref n
  | None, None => True
  | _, _ => False
  end.

Definition same_by_spec (prev next : option DepArray) : Prop :=
  identical prev next \/
  exists p n, prev = Some p /\ next = Some n /\
    length (arr_items p) = length (arr_items n) /\
    pairwise_strict_eq (arr_items p) (arr_items n).

(** "Then discards those caches": after [dispose] the context's buffer and
    texture caches hold nothing. *)
Definition caches_discarded (ctx : Ctx) : Prop :=
  local_map Buffer ctx = [] /\ local_map Texture ctx = [].

(** The actions that were called, in a trace. *)
Definition action_runs (t : list Event) : list nat :=
  omap (fun e => match e with EvRunAction a => Some a | _ => None end) t.

(** No object is stored in two places of the global caches. *)
Definition heap_inj (w : World) : Prop :=
  forall a a' c c' key key' r r',
    heap w !! a = Some c -> c !! key = Some r ->
    heap w !! a' = Some c' -> c' !! key' = Some r' ->
    res_obj r = res_obj r' -> a = a' /\ key = key'.


(** The life of a context: any number of requests and [dispose] calls on
    it, each in whatever world it is made. *)
Inductive ctx_steps : Ctx -> Ctx -> Prop :=
  | ctx_steps_refl c : ctx_steps c c
  | ctx_steps_exec c c' p call callSite w :
      ctx_steps c c' -> ctx_steps c (snd (fst (exec p call callSite c' w)))
  | ctx_steps_dispose c c' w :
      ctx_steps c c' -> ctx_steps c (fst (dispose c' w)).

(** * Properties *)

(** ** Dependency comparison *)

Lemma compare_items_true prev next i n :
  compare_items prev next i n = true <->
  forall j, j < n -> strict_eq (item_at prev (i + j)) (item_at next (i + j)) = true.
Proof.
  revert i. induction n as [|n IH]; intros i; simpl.
  - split; [intros _ j Hj; lia | reflexivity].
  - destruct (strict_eq (item_at prev i) (item_at next i)) eqn:E; simpl.
    + rewrite IH. split.
      * intros H [|j] Hj.
        -- rewrite Nat.add_0_r. exact E.
        -- replace (i + S j) with (S i + j) by lia. apply H. lia.
      * intros H j Hj. replace (S i + j) with (i + S j) by lia. apply H. lia.
    + split; [discriminate|].
      intros H. specialize (H 0). rewrite Nat.add_0_r in H.
      rewrite E in H. apply H. lia.
Qed.

Lemma compare_items_pairwise prev next :
  length prev = length next ->
  (compare_items prev next 0 (length prev) = true <-> pairwise_strict_eq prev next).
Proof.
  intros Hlen. rewrite compare_items_true. unfold pairwise_strict_eq.
  rewrite Forall2_lookup. split.
  - intros H i. simpl in H.
    destruct (prev !! i) as [x|] eqn:Ex; destruct (next !! i) as [y|] eqn:Ey.
    + constructor. specialize (H i). unfold item_at in H. rewrite Ex, Ey in H.
      apply H. apply lookup_lt_Some in Ex. exact Ex.
    + apply lookup_lt_Some in Ex. apply lookup_ge_None in Ey. lia.
    + apply lookup_lt_Some in Ey. apply lookup_ge_None in Ex. lia.
    + constructor.
  - intros H j Hj. simpl. specialize (H j). unfold item_at.
    destruct (prev !! j) as [x|] eqn:Ex; destruct (next !! j) as [y|] eqn:Ey;
      inversion H; subst; try assumption.
    apply lookup_ge_None in Ex. lia.
Qed.

(** C5 (amended).  [isSameDependencies prev next] answers "same" exactly
    when the two are the identical sequence object (or both absent), or both
    are defined with equal length and pairwise [===] items in order, or
    [prev] is defined and [next] is absent. *)
Theorem isSameDependencies_spec (prev next : option DepArray) :
  isSameDependencies prev next = true <->
  same_by_spec prev next \/ (is_Some prev /\ next = None).
Proof.
  destruct prev as [p|], next as [n|]; unfold isSameDependencies, same_by_spec; simpl.
  - destruct (Nat.eqb (arr_ref n) (arr_ref p)) eqn:Eref.
    + apply Nat.eqb_eq in Eref. split; [intros _; left; left; congruence | reflexivity].
    + apply Nat.eqb_neq in Eref.
      destruct (Nat.eqb (length (arr_items p)) (length (arr_items n))) eqn:Elen; simpl.
      * apply Nat.eqb_eq in Elen. rewrite (compare_items_pairwise _ _ Elen). split.
        -- intros H. left. right. exists p, n. auto.
        -- intros [[H|(p' & n' & Hp & Hn & _ & H)]|[_ H]];
             [congruence | | discriminate].
           injection Hp as <-. injection Hn as <-. exact H.
      * apply Nat.eqb_neq in Elen. split; [discriminate|].
        intros [[H|(p' & n' & Hp & Hn & Hl & _)]|[_ H]];
          [congruence | | discriminate].
        injection Hp as <-. injection Hn as <-. contradiction.
  - split; [intros _; right; split; [eexists; reflexivity | reflexivity] | reflexivity].
  - split; [discriminate|].
    intros [[[]|(p' & n' & Hp & _)]|[[x Hx] _]]; discriminate.
  - split; [intros _; left; left; exact I | reflexivity].
Qed.

(** ** Frame callbacks *)

Lemma ensure_fields_idem ctx : ensure_fields (ensure_fields ctx) = ensure_fields ctx.
Proof. destruct ctx as [[?|] [?|] [?|] [?|] [?|] [?|]]; reflexivity. Qed.

Lemma ensure_fields_frameDeps ctx :
  default ∅ (frameDeps (ensure_fields ctx)) = default ∅ (frameDeps ctx).
Proof. destruct ctx as [? [?|] ? ? ? ?]; reflexivity. Qed.

Lemma ensure_record_frameDeps key deps ctx :
  ensure_fields (record_frameDeps key deps ctx) = record_frameDeps key deps (ensure_fields ctx).
Proof. destruct ctx as [[?|] [?|] [?|] [?|] [?|] [?|]]; reflexivity. Qed.

Lemma isSameDependencies_12_12 a b :
  arr_items a = [JNum 1; JNum 2] -> arr_items b = [JNum 1; JNum 2] ->
  isSameDependencies (Some b) (Some a) = true.
Proof.
  intros Ha Hb. unfold isSameDependencies. rewrite Ha, Hb.
  destruct (Nat.eqb (arr_ref a) (arr_ref b)); reflexivity.
Qed.

Lemma isSameDependencies_12_13 a b :
  arr_items a = [JNum 1; JNum 2] -> arr_items b = [JNum 1; JNum 3] ->
  arr_ref b <> arr_ref a ->
  isSameDependencies (Some b) (Some a) = false.
Proof.
  intros Ha Hb Hne. unfold isSameDependencies. rewrite Ha, Hb.
  destruct (Nat.eqb (arr_ref a) (arr_ref b)) eqn:E; [|reflexivity].
  apply Nat.eqb_eq in E. congruence.
Qed.

Lemma record_frameDeps_lookup key deps ctx :
  default ∅ (frameDeps (record_frameDeps key deps ctx)) !! key = Some deps.
Proof. apply lookup_insert_eq. Qed.

(** A key the table has an entry for is answered with the entry. *)
Lemma table_get_own (t : gmap string DepArray) key a :
  t !! key = Some a -> table_get t key = SDeps a.
Proof. intros H. unfold table_get. rewrite H. reflexivity. Qed.

(** A key answered by inheritance has no entry. *)
Lemma table_get_inherited (t : gmap string DepArray) key :
  (forall a, table_get t key <> SDeps a) -> t !! key = None.
Proof.
  intros H. destruct (t !! key) as [a|] eqn:E; [|reflexivity].
  exfalso. apply (H a). apply table_get_own. exact E.
Qed.

(** An assignment at a key other than [__proto__] changes what the table
    answers at that key only. *)
Lemma table_get_insert_ne (t : gmap string DepArray) key key' deps :
  key <> "__proto__" -> key' <> key ->
  table_get (<[key := deps]> t) key' = table_get t key'.
Proof.
  intros Hproto Hne. unfold table_get.
  rewrite lookup_insert_ne by congruence.
  rewrite (lookup_insert_ne t key "__proto__") by exact Hproto. reflexivity.
Qed.

Lemma table_get_recorded key deps ctx :
  table_get (default ∅ (frameDeps (record_frameDeps key deps ctx))) key = SDeps deps.
Proof. apply table_get_own, record_frameDeps_lookup. Qed.

Lemma exec_pushFrame_Some p frame deps cs ctx w :
  exec p (PushFrame frame (Some deps)) cs ctx w =
    let key := join_callSite cs in
    let last := table_get (default ∅ (frameDeps ctx)) key in
    let f := {| valid := true; callback := frame;
                enabled := negb (isSameDependencies_with_last deps last)
                           || negb (slot_truthy last);
                kind := Once |} in
    (Return (RFrame f), with_rendererContext (<[key := f]> (rendererContext p)) p,
     record_frameDeps key deps (ensure_fields ctx), w).
Proof.
  unfold exec, exec_pushFrame. rewrite ensure_fields_frameDeps. reflexivity.
Qed.

(** X21.  Registering a frame callback at a call site.  With [deps] omitted
    the entry is a [Loop] entry, enabled, and the context's dependency table
    is left as it was.  With [deps] given the entry is a [Once] entry with
    [enabled = !same || firstTime], where [firstTime] is that what the table
    answers at the call site is falsy; it is enabled when the table answers
    [undefined], as it does on the first registration at a call site whose
    key is no name the table inherits; the sequence is recorded as last
    seen whatever [enabled] is; and at the next registration at the same
    call site [1,2] after [1,2] is disabled while [1,3] (another array)
    after [1,2] is enabled. *)
Theorem pushFrame_change_detection (p : Plugin) (cs : list string) (ctx : Ctx)
    (w : World) (frame : nat) :
  let key := join_callSite cs in
  let last := table_get (default ∅ (frameDeps ctx)) key in
  let loop := {| valid := true; callback := frame; enabled := true; kind := Loop |} in
  exec p (PushFrame frame None) cs ctx w =
    (Return (RFrame loop),
     with_rendererContext (<[key := loop]> (rendererContext p)) p,
     ensure_fields ctx, w)
  /\
  forall deps, exists f p' ctx',
    exec p (PushFrame frame (Some deps)) cs ctx w = (Return (RFrame f), p', ctx', w) /\
    kind f = Once /\
    enabled f = negb (isSameDependencies_with_last deps last) || negb (slot_truthy last) /\
    (last = SUndefined -> enabled f = true) /\
    default ∅ (frameDeps ctx') !! key = Some deps /\
    table_get (default ∅ (frameDeps ctx')) key = SDeps deps /\
    rendererContext p' !! key = Some f /\
    forall frame2 deps2, exists f2 p2 ctx2,
      exec p' (PushFrame frame2 (Some deps2)) cs ctx' w = (Return (RFrame f2), p2, ctx2, w) /\
      kind f2 = Once /\
      enabled f2 = negb (isSameDependencies (Some deps2) (Some deps)) /\
      (arr_items deps = [JNum 1; JNum 2] -> arr_items deps2 = [JNum 1; JNum 2] ->
       enabled f2 = false) /\
      (arr_items deps = [JNum 1; JNum 2] -> arr_items deps2 = [JNum 1; JNum 3] ->
       arr_ref deps2 <> arr_ref deps -> enabled f2 = true) /\
      default ∅ (frameDeps ctx2) !! key = Some deps2 /\
      rendererContext p2 !! key = Some f2.
Proof.
  intros key last loop. split; [reflexivity|].
  intros deps. rewrite exec_pushFrame_Some. cbv zeta. fold key last.
  eexists _, _, _. split; [reflexivity|].
  split; [reflexivity|]. split; [reflexivity|].
  split; [intros Hl; cbn [enabled]; rewrite Hl; reflexivity|].
  split; [apply record_frameDeps_lookup|].
  split; [apply table_get_recorded|]. split; [apply lookup_insert_eq|].
  intros frame2 deps2. rewrite exec_pushFrame_Some. cbv zeta. fold key.
  rewrite table_get_recorded. cbn [isSameDependencies_with_last slot_truthy negb].
  eexists _, _, _. split; [reflexivity|].
  split; [reflexivity|]. split; [apply orb_false_r|].
  cbn [enabled].
  split; [intros Ha Hb; rewrite (isSameDependencies_12_12 _ _ Ha Hb); reflexivity|].
  split; [intros Ha Hb Hne; rewrite (isSameDependencies_12_13 _ _ Ha Hb Hne); reflexivity|].
  split; [apply record_frameDeps_lookup | apply lookup_insert_eq].
Qed.

(** An array of [undefined] items compares as the same with a built-in
    function of as many parameters. *)
Lemma isSameDependencies_with_method (deps : DepArray) (len : nat) :
  length (arr_items deps) = len ->
  Forall (fun v => v = JUndefined) (arr_items deps) ->
  isSameDependencies_with_last deps (SOther (method len)) = true.
Proof.
  intros Hlen Hundef. subst len.
  unfold isSameDependencies_with_last, same_object, foreign_items, method.
  cbn [fo_ref fo_length fo_item strict_eq]. rewrite Z.eqb_refl. cbn [negb].
  assert (Hl : length (arr_items deps)
               = length (map (fun _ : nat => JUndefined)
                           (seq 0 (length (arr_items deps))))).
  { rewrite length_map, length_seq. reflexivity. }
  apply (compare_items_pairwise _ _ Hl). unfold pairwise_strict_eq. clear Hl.
  generalize 0. induction Hundef as [|x l -> _ IH]; intros n; simpl; constructor.
  - reflexivity.
  - apply IH.
Qed.

(** C4.  The first registration at a call site is not always enabled.
    [ctx.frameDeps] is a plain object: at a call-site key that is the name
    of a function it inherits, the table answers that function although
    nothing was ever registered there, so [isFirstRender] is false; and when
    the request's array has as many items as the function has parameters,
    all of them [undefined] (the empty array at [toString]), the comparison
    finds it the same and the entry is disabled. *)
Theorem pushFrame_first_registration_inherited (p : Plugin) (cs : list string)
    (ctx : Ctx) (w : World) (frame : nat) (deps : DepArray) (len : nat) :
  let key := join_callSite cs in
  table_get (default ∅ (frameDeps ctx)) key = SOther (method len) ->
  length (arr_items deps) = len ->
  Forall (fun v => v = JUndefined) (arr_items deps) ->
  default ∅ (frameDeps ctx) !! key = None /\
  exists f p' ctx',
    exec p (PushFrame frame (Some deps)) cs ctx w = (Return (RFrame f), p', ctx', w) /\
    kind f = Once /\
    enabled f = false /\
    rendererContext p' !! key = Some f.
Proof.
  intros key Hget Hlen Hundef. split.
  { apply table_get_inherited. intros a Ha. rewrite Hget in Ha. discriminate Ha. }
  rewrite exec_pushFrame_Some. cbv zeta. fold key. rewrite Hget.
  eexists _, _, _. split; [reflexivity|]. split; [reflexivity|].
  split; [|apply lookup_insert_eq].
  cbn [enabled]. rewrite (isSameDependencies_with_method deps len Hlen Hundef).
  reflexivity.
Qed.

(** ** Object properties and insertion-ordered maps *)

Lemma get_set_field_eq {A} k (v : A) o : get_field k (set_field k v o) = Some v.
Proof.
  induction o as [|[k' v'] o IH]; simpl.
  - rewrite String.eqb_refl. reflexivity.
  - destruct (String.eqb k k') eqn:E; simpl.
    + rewrite String.eqb_refl. reflexivity.
    + rewrite E. exact IH.
Qed.

Lemma get_set_field_ne {A} k k' (v : A) o :
  k <> k' -> get_field k' (set_field k v o) = get_field k' o.
Proof.
  intros Hne. induction o as [|[k0 v0] o IH]; simpl.
  - destruct (String.eqb k' k) eqn:E; [apply String.eqb_eq in E; congruence | reflexivity].
  - destruct (String.eqb k k0) eqn:E; simpl.
    + apply String.eqb_eq in E. subst k0.
      destruct (String.eqb k' k) eqn:E'; [apply String.eqb_eq in E'; congruence | reflexivity].
    + rewrite IH. reflexivity.
Qed.


Lemma set_field_new {A} k (v : A) o :
  get_field k o = None -> set_field k v o = (o ++ [(k, v)])%list.
Proof.
  induction o as [|[k' v'] o IH]; simpl; [reflexivity|].
  destruct (String.eqb k k'); [discriminate|]. intros H. rewrite (IH H). reflexivity.
Qed.

Lemma get_field_In {A} k (v : A) o : get_field k o = Some v -> In v (map snd o).
Proof.
  induction o as [|[k' v'] o IH]; simpl; [discriminate|].
  destruct (String.eqb k k'); [intros [= ->]; left; reflexivity | right; auto].
Qed.

Lemma get_field_map {A B} (f : A -> B) k (o : list (string * A)) :
  get_field k (map (fun kv => (fst kv, f (snd kv))) o) = f <$> get_field k o.
Proof.
  induction o as [|[k' v'] o IH]; simpl; [reflexivity|].
  destruct (String.eqb k k'); [reflexivity | exact IH].
Qed.

(** ** Fingerprints *)

(** The view [object-hash] digests is the written form of what the replacer
    returns. *)
Lemma replaced_replacer (v : Value) :
  replaced v = snd (hash_view (replacer v)).
Proof.
  unfold replaced. destruct v as [| | | | | xs | o]; try reflexivity.
  cbn [hash_view fst replacer].
  rewrite (get_field_map hash_view).
  destruct (get_field "instanceId" o) as [id|]; reflexivity.
Qed.

(** A tracked handle is hashed as its identity token. *)
Lemma replaced_handle (o : list (string * Value)) (id : string) :
  get_field "instanceId" o = Some (VStr id) -> replaced (VObj o) = VStr id.
Proof.
  intros H. rewrite replaced_replacer. simpl. rewrite H. reflexivity.
Qed.

(** Two descriptors that embed handles with the same token at the same
    place have the same global fingerprint, whatever else the handles
    hold. *)
Lemma globalResourceHash_handle (field : string) (h1 h2 : list (string * Value))
    (id : string) (rest : Descriptor) :
  field <> "instanceId" ->
  get_field "instanceId" h1 = Some (VStr id) ->
  get_field "instanceId" h2 = Some (VStr id) ->
  globalResourceHash ((field, VObj h1) :: rest) = globalResourceHash ((field, VObj h2) :: rest).
Proof.
  intros Hf H1 H2. unfold globalResourceHash, hash. f_equal.
  unfold replaced. cbn [hash_view fst map snd get_field].
  apply String.eqb_neq in Hf. rewrite String.eqb_sym in Hf. rewrite Hf.
  rewrite !(get_field_map hash_view), H1, H2. reflexivity.
Qed.

(** C7.  [localResourceHash] writes [owningDevice] into the descriptor it is
    given: a descriptor that does not already carry the owner's token is not
    the same after the call. *)
Theorem localResourceHash_writes_descriptor (desc : Descriptor) (owner : Device) :
  get_field "owningDevice" desc <> Some (VStr (dev_instanceId owner)) ->
  snd (localResourceHash desc owner) <> desc /\
  get_field "owningDevice" (snd (localResourceHash desc owner))
    = Some (VStr (dev_instanceId owner)).
Proof.
  intros Hno. unfold localResourceHash, object_assign1. cbn [snd].
  assert (Hget := get_set_field_eq "owningDevice" (VStr (dev_instanceId owner)) desc).
  split; [|exact Hget].
  intros Heq. rewrite Heq in Hget. contradiction.
Qed.

(** ** Traces *)

Lemma creations_app t1 t2 : creations (t1 ++ t2) = (creations t1 ++ creations t2)%list.
Proof. apply omap_app. Qed.

Lemma destroyed_app t1 t2 : destroyed (t1 ++ t2) = (destroyed t1 ++ destroyed t2)%list.
Proof. apply omap_app. Qed.

Lemma destroyed_destroys l : destroyed (map EvDestroy l) = l.
Proof. induction l as [|r l IH]; [reflexivity|]. cbn. f_equal. exact IH. Qed.

Lemma destroy_all_spec m w :
  trace (destroy_all m w) = (trace w ++ map EvDestroy (map snd (default [] m)))%list /\
  without_trace (destroy_all m w) = without_trace w.
Proof.
  destruct m as [entries|]; simpl; [|rewrite app_nil_r; split; reflexivity].
  revert w. induction entries as [|kv entries IH]; intros w; simpl.
  - rewrite app_nil_r. split; reflexivity.
  - destruct (IH (emit (EvDestroy (snd kv)) w)) as [Ht Hw].
    rewrite Ht, Hw. simpl. rewrite <- app_assoc. split; reflexivity.
Qed.

Lemma dispose_spec ctx w :
  fst (dispose ctx w) = ctx /\
  trace (snd (dispose ctx w)) = (trace w ++ map EvDestroy (held ctx))%list /\
  without_trace (snd (dispose ctx w)) = without_trace w.
Proof.
  unfold dispose, held. cbn [fst snd].
  destruct (destroy_all_spec (textures ctx) w) as [Ht1 Hw1].
  destruct (destroy_all_spec (buffers ctx) (destroy_all (textures ctx) w)) as [Ht2 Hw2].
  rewrite Ht2, Ht1, Hw2, Hw1, map_app, app_assoc. auto.
Qed.

Lemma without_trace_cache_view w w' k d :
  without_trace w' = without_trace w -> cache_view k d w' = cache_view k d w.
Proof.
  intros H. unfold cache_view.
  assert (Hr : registry w' = registry w) by (injection H; auto).
  assert (Hh : heap w' = heap w) by (injection H; auto).
  rewrite Hr, Hh. reflexivity.
Qed.

Lemma count_occ_not_In_app (l1 l2 : list Resource) r :
  ~ In r l2 -> count_occ Resource_eq_dec (l1 ++ l2) r = count_occ Resource_eq_dec l1 r.
Proof.
  intros H. rewrite count_occ_app.
  apply (count_occ_not_In Resource_eq_dec) in H. rewrite H. lia.
Qed.

Lemma count_occ_NoDup_app (l1 l2 : list Resource) r :
  List.NoDup l2 -> In r l2 ->
  count_occ Resource_eq_dec (l1 ++ l2) r = S (count_occ Resource_eq_dec l1 r).
Proof.
  intros Hnd Hin. rewrite count_occ_app.
  rewrite (NoDup_count_occ' Resource_eq_dec) in Hnd. rewrite (Hnd r Hin). lia.
Qed.

(** ** Well-formed contexts *)

Lemma held_sublist ctx r : In r (held ctx) -> In r (local_resources ctx).
Proof.
  unfold held, local_resources, local_map. rewrite !in_app_iff. tauto.
Qed.

Lemma NoDup_map_res_obj (l : list Resource) : NoDup (map res_obj l) -> List.NoDup l.
Proof.
  intros H. apply NoDup_ListNoDup. eapply NoDup_fmap_1. exact H.
Qed.

Lemma ctx_wf_held_NoDup w ctx : ctx_wf w ctx -> List.NoDup (held ctx).
Proof.
  intros [Hnd _]. apply NoDup_map_res_obj.
  unfold local_resources in Hnd. rewrite !map_app in Hnd.
  apply NoDup_app in Hnd as (_ & _ & Hnd).
  unfold held. rewrite map_app.
  apply NoDup_app in Hnd as (Hb & Hbt & Ht).
  apply NoDup_app. split; [exact Ht|]. split; [|exact Hb].
  intros x Hx Hx'. exact (Hbt x Hx' Hx).
Qed.

Lemma ctx_wf_bindGroup_not_held w ctx r :
  ctx_wf w ctx -> In r (map snd (local_map BindGroup ctx)) -> ~ In r (held ctx).
Proof.
  intros [Hnd _] Hin Hheld.
  unfold local_resources in Hnd. rewrite !map_app in Hnd.
  apply NoDup_app in Hnd as (_ & Hdisj & _).
  apply (Hdisj (res_obj r)).
  - apply list_elem_of_In. apply in_map. exact Hin.
  - rewrite <- map_app. apply list_elem_of_In. apply in_map.
    unfold held in Hheld. unfold local_map. rewrite in_app_iff in *. tauto.
Qed.

(** A resource of a sibling context is not held by this one. *)
Lemma siblings_wf_not_held w c1 c2 r :
  siblings_wf w c1 c2 -> In r (local_resources c2) -> ~ In r (held c1).
Proof.
  intros [Hnd _] Hin Hheld. rewrite map_app in Hnd.
  apply NoDup_app in Hnd as (_ & Hdisj & _).
  apply (Hdisj (res_obj r)); apply list_elem_of_In, in_map;
    [apply held_sublist; exact Hheld | exact Hin].
Qed.

Lemma dispose_destroyed ctx w :
  fst (dispose ctx w) = ctx /\
  destroyed (trace (snd (dispose ctx w))) = (destroyed (trace w) ++ held ctx)%list.
Proof.
  destruct (dispose_spec ctx w) as (Hctx & Ht & _). split; [exact Hctx|].
  rewrite Ht, destroyed_app, destroyed_destroys. reflexivity.
Qed.

(** C3 (amended).  [dispose ctx] calls [destroy] on the textures and then
    the buffers held in the context's local caches, once per entry, and on
    nothing else.  Each held resource of a context built by [exec] gets
    exactly one call; a bind group of the context gets none; a resource of a
    sibling context gets none.  The context, with its caches and their
    entries, is left as it was, and so is everything in the world but the
    trace, the global caches included. *)
Theorem dispose_destroys_held_and_keeps_caches (ctx : Ctx) (w : World) :
  let w' := snd (dispose ctx w) in
  let calls_on t r := count_occ Resource_eq_dec (destroyed t) r in
  fst (dispose ctx w) = ctx /\
  trace w' = (trace w ++ map EvDestroy (held ctx))%list /\
  destroyed (trace w') = (destroyed (trace w) ++ held ctx)%list /\
  without_trace w' = without_trace w /\
  (forall k d, cache_view k d w' = cache_view k d w) /\
  (forall r, ~ In r (held ctx) -> calls_on (trace w') r = calls_on (trace w) r) /\
  (ctx_wf w ctx ->
   (forall r, In r (held ctx) -> calls_on (trace w') r = S (calls_on (trace w) r)) /\
   (forall r, In r (map snd (local_map BindGroup ctx)) ->
              calls_on (trace w') r = calls_on (trace w) r)) /\
  (forall sibling, siblings_wf w ctx sibling ->
   forall r, In r (local_resources sibling) ->
             calls_on (trace w') r = calls_on (trace w) r).
Proof.
  intros w' calls_on. destruct (dispose_spec ctx w) as (Hctx & Ht & Hw).
  fold w' in Ht, Hw.
  assert (Hd : destroyed (trace w') = (destroyed (trace w) ++ held ctx)%list).
  { rewrite Ht, destroyed_app, destroyed_destroys. reflexivity. }
  split; [exact Hctx|]. split; [exact Ht|]. split; [exact Hd|]. split; [exact Hw|].
  split; [intros k d; apply without_trace_cache_view; exact Hw|].
  split.
  { intros r Hr. unfold calls_on. rewrite Hd. apply count_occ_not_In_app. exact Hr. }
  split.
  - intros Hwf. split.
    + intros r Hr. unfold calls_on. rewrite Hd.
      apply count_occ_NoDup_app; [eapply ctx_wf_held_NoDup; exact Hwf | exact Hr].
    + intros r Hr. unfold calls_on. rewrite Hd. apply count_occ_not_In_app.
      eapply ctx_wf_bindGroup_not_held; eassumption.
  - intros sibling Hsib r Hr. unfold calls_on. rewrite Hd. apply count_occ_not_In_app.
    eapply siblings_wf_not_held; eassumption.
Qed.

(** ** Local caches *)

Lemma local_map_set k m ctx : local_map k (set_local_map k m ctx) = m.
Proof. destruct k; reflexivity. Qed.

Lemma exec_local_call p k d cs ctx w :
  exec p (local_call k d) cs ctx w =
    let '(o, ctx', w') :=
      exec_local k (device p) d (stringHash (join_callSite cs)) (ensure_fields ctx) w in
    (o, p, ctx', w').
Proof. destruct k; reflexivity. Qed.

Lemma local_map_ensure k ctx : local_map k (ensure_fields ctx) = local_map k ctx.
Proof. destruct ctx as [? ? [?|] [?|] [?|] ?], k; reflexivity. Qed.

Lemma ensure_set_local_map k m ctx :
  ensure_fields (set_local_map k m (ensure_fields ctx)) = set_local_map k m (ensure_fields ctx).
Proof. destruct ctx as [[?|] [?|] [?|] [?|] [?|] [?|]], k; reflexivity. Qed.

Lemma exec_local_run k dev d fiber ctx w :
  local_run k dev d fiber ctx w (exec_local k dev d fiber ctx w).
Proof.
  unfold exec_local.
  change (localResourceHash d dev)
    with (fst (localResourceHash d dev), snd (localResourceHash d dev)).
  cbv iota beta.
  destruct (get_field (fst (localResourceHash d dev)) (local_map k ctx)) as [r|] eqn:Eg.
  - apply local_hit. exact Eg.
  - destruct (backend_error dev (KLocal k) (snd (localResourceHash d dev))) as [e|] eqn:Eb.
    + apply local_rejected; assumption.
    + exact (local_created k dev d fiber ctx w Eg Eb).
Qed.

Lemma exec_local_holds k dev d fiber ctx w r ctx' w' :
  exec_local k dev d fiber ctx w = (Return (RResource r), ctx', w') ->
  get_field (fst (localResourceHash d dev)) (local_map k ctx') = Some r.
Proof.
  intros H. pose proof (exec_local_run k dev d fiber ctx w) as Hr. rewrite H in Hr.
  inversion Hr; subst; [assumption|].
  rewrite local_map_set. apply get_set_field_eq.
Qed.

Lemma exec_local_ensured k dev d fiber ctx w o ctx' w' :
  exec_local k dev d fiber (ensure_fields ctx) w = (o, ctx', w') ->
  ensure_fields ctx' = ctx'.
Proof.
  intros H. pose proof (exec_local_run k dev d fiber (ensure_fields ctx) w) as Hr.
  rewrite H in Hr. inversion Hr; subst; try apply ensure_fields_idem.
  apply ensure_set_local_map.
Qed.

(** A request whose fingerprint the context already holds is a hit that
    changes nothing. *)
Lemma exec_local_hit p k d cs ctx w r :
  get_field (fst (localResourceHash d (device p))) (local_map k ctx) = Some r ->
  exec p (local_call k d) cs ctx w = (Return (RResource r), p, ensure_fields ctx, w).
Proof.
  intros Hg. rewrite exec_local_call.
  pose proof (exec_local_run k (device p) d (stringHash (join_callSite cs))
                (ensure_fields ctx) w) as Hr.
  inversion Hr as [r' Hg' Heq | e Hg' _ Heq | Hg' _ Heq];
    rewrite local_map_ensure, Hg in Hg'; [|discriminate..].
  injection Hg' as <-. reflexivity.
Qed.

Lemma exec_local_result p k d cs ctx w r p1 ctx1 w1 :
  exec p (local_call k d) cs ctx w = (Return (RResource r), p1, ctx1, w1) ->
  p1 = p /\ ensure_fields ctx1 = ctx1 /\
  get_field (fst (localResourceHash d (device p))) (local_map k ctx1) = Some r.
Proof.
  rewrite exec_local_call.
  destruct (exec_local k (device p) d _ (ensure_fields ctx) w) as [[o c'] w'] eqn:E.
  intros [= -> <- -> ->]. split; [reflexivity|]. split.
  - eapply exec_local_ensured. exact E.
  - eapply exec_local_holds. exact E.
Qed.

(** The second of two equal local requests is a hit that changes nothing. *)
Lemma exec_local_again p k d cs cs' ctx w w' r p1 ctx1 w1 :
  exec p (local_call k d) cs ctx w = (Return (RResource r), p1, ctx1, w1) ->
  exec p1 (local_call k d) cs' ctx1 w' = (Return (RResource r), p1, ctx1, w').
Proof.
  intros H. apply exec_local_result in H as (-> & He & Hg).
  rewrite (exec_local_hit _ _ _ _ _ _ _ Hg), He. reflexivity.
Qed.

(** C10.  A request for a buffer or a texture that returned [r], followed by
    [dispose] of the context: [destroy] is called on [r], the context still
    holds every entry, the same request on the same context returns the
    destroyed [r] from the cache and the world is left as it was (so no
    creation call is made), and a second [dispose] calls [destroy] on each
    held handle once more. *)
Theorem dispose_keeps_entries (p : Plugin) (k : LocalKind) (d : Descriptor)
    (cs cs' : list string) (ctx : Ctx) (w : World)
    (r : Resource) (p1 : Plugin) (ctx1 : Ctx) (w1 : World) :
  k = Buffer \/ k = Texture ->
  exec p (local_call k d) cs ctx w = (Return (RResource r), p1, ctx1, w1) ->
  let ctx2 := fst (dispose ctx1 w1) in
  let w2 := snd (dispose ctx1 w1) in
  let w3 := snd (dispose ctx2 w2) in
  ctx2 = ctx1 /\
  get_field (fst (localResourceHash d (device p))) (local_map k ctx2) = Some r /\
  In r (held ctx1) /\
  destroyed (trace w2) = (destroyed (trace w1) ++ held ctx1)%list /\
  exec p1 (local_call k d) cs' ctx2 w2 = (Return (RResource r), p1, ctx2, w2) /\
  destroyed (trace w3) = (destroyed (trace w1) ++ held ctx1 ++ held ctx1)%list.
Proof.
  intros Hk Hexec ctx2 w2 w3.
  destruct (dispose_destroyed ctx1 w1) as (Hctx & Hd).
  fold ctx2 in Hctx. fold w2 in Hd.
  destruct (exec_local_result _ _ _ _ _ _ _ _ _ _ Hexec) as (_ & _ & Hholds).
  split; [exact Hctx|]. split; [rewrite Hctx; exact Hholds|].
  split.
  { apply get_field_In in Hholds. unfold held, local_map in *. rewrite in_app_iff.
    destruct Hk as [-> | ->]; [right | left]; exact Hholds. }
  split; [exact Hd|].
  split; [rewrite Hctx; eapply exec_local_again; exact Hexec|].
  destruct (dispose_destroyed ctx2 w2) as (_ & Hd3).
  fold w3 in Hd3. rewrite Hd3, Hd, Hctx, <- app_assoc. reflexivity.
Qed.

(** ** Global caches *)

Lemma outer_set_eq k m g : outer k (set_outer k m g) = m.
Proof. destruct k; reflexivity. Qed.

Lemma outer_set_ne k k' m g : k <> k' -> outer k' (set_outer k m g) = outer k' g.
Proof. destruct k, k'; intros H; try reflexivity; congruence. Qed.

Lemma exec_global_call p k d cs ctx w :
  exec p (global_call k d) cs ctx w =
    let '(o, w') := exec_global k (device p) d w in (o, p, ensure_fields ctx, w').
Proof. destruct k; reflexivity. Qed.

Lemma cache_for_registered k dev w a :
  outer k (registry w) !! dev_obj dev = Some a -> cache_for k dev w = (a, w).
Proof. intros H. unfold cache_for. rewrite H. reflexivity. Qed.

Lemma cache_for_new k dev w :
  outer k (registry w) !! dev_obj dev = None ->
  cache_for k dev w = (next_addr w, with_new_cache k dev w).
Proof. intros H. unfold cache_for. rewrite H. reflexivity. Qed.

Lemma subscribe_lost_fields cb w :
  registry (subscribe_lost cb w) = registry w /\
  heap (subscribe_lost cb w) = heap w /\
  next_addr (subscribe_lost cb w) = next_addr w /\
  next_obj (subscribe_lost cb w) = next_obj w /\
  lost (subscribe_lost cb w) = lost w /\
  trace (subscribe_lost cb w) = trace w /\
  futures (subscribe_lost cb w) = futures w.
Proof. unfold subscribe_lost. case_decide; repeat split; reflexivity. Qed.

Lemma with_new_cache_fields k dev w :
  registry (with_new_cache k dev w)
    = set_outer k (<[dev_obj dev := next_addr w]> (outer k (registry w))) (registry w) /\
  heap (with_new_cache k dev w) = <[next_addr w := ∅]> (heap w) /\
  next_addr (with_new_cache k dev w) = S (next_addr w) /\
  next_obj (with_new_cache k dev w) = next_obj w /\
  lost (with_new_cache k dev w) = lost w /\
  trace (with_new_cache k dev w) = trace w.
Proof.
  unfold with_new_cache.
  destruct (subscribe_lost_fields
    {| cb_kind := k; cb_device := dev; cb_cache := next_addr w |}
    (with_registry
       (set_outer k (<[dev_obj dev := next_addr w]> (outer k (registry w))) (registry w))
       (with_next_addr (S (next_addr w)) (with_heap (<[next_addr w := ∅]> (heap w)) w))))
    as (-> & -> & -> & -> & -> & -> & _).
  repeat split; reflexivity.
Qed.

(** After [cache_for] the device has a cache registered, and it holds what
    the device's cache held before (nothing, if it is new). *)
Lemma cache_for_spec k dev w :
  let a := fst (cache_for k dev w) in
  let w1 := snd (cache_for k dev w) in
  outer k (registry w1) !! dev_obj dev = Some a /\
  default ∅ (heap w1 !! a) = cache_view k (dev_obj dev) w /\
  cache_view k (dev_obj dev) w1 = cache_view k (dev_obj dev) w /\
  trace w1 = trace w /\ next_obj w1 = next_obj w /\ lost w1 = lost w.
Proof.
  unfold cache_view. destruct (outer k (registry w) !! dev_obj dev) as [a|] eqn:E.
  - rewrite (cache_for_registered _ _ _ _ E). simpl. rewrite E. repeat split; reflexivity.
  - rewrite (cache_for_new _ _ _ E). cbn [fst snd].
    destruct (with_new_cache_fields k dev w) as (-> & -> & _ & -> & -> & ->).
    rewrite outer_set_eq, !lookup_insert_eq. simpl. repeat split; reflexivity.
Qed.

Lemma exec_global_run k dev d w :
  global_run k dev d (fst (cache_for k dev w)) (snd (cache_for k dev w))
    (exec_global k dev d w).
Proof.
  unfold exec_global.
  destruct (cache_for k dev w) as [a w1]. cbn [fst snd].
  destruct (default ∅ (heap w1 !! a) !! globalResourceHash d) as [r|] eqn:Eg.
  - apply global_hit. exact Eg.
  - destruct (backend_error dev (KGlobal k) d) as [e|] eqn:Eb.
    + apply global_rejected; assumption.
    + exact (global_created k dev d a w1 Eg Eb).
Qed.

(** A request whose fingerprint the device's cache holds is a hit that
    changes nothing. *)
Lemma exec_global_hit p k d cs ctx w r :
  cache_view k (dev_obj (device p)) w !! globalResourceHash d = Some r ->
  exec p (global_call k d) cs ctx w = (Return (RResource r), p, ensure_fields ctx, w).
Proof.
  intros Hv. rewrite exec_global_call.
  pose proof (exec_global_run k (device p) d w) as Hr.
  unfold cache_view in Hv.
  destruct (outer k (registry w) !! dev_obj (device p)) as [a|] eqn:E;
    [|rewrite lookup_empty in Hv; discriminate].
  rewrite (cache_for_registered _ _ _ _ E) in Hr. cbn [fst snd] in Hr.
  inversion Hr as [r' Hg Heq | e Hg _ Heq | Hg _ Heq];
    rewrite Hv in Hg; [|discriminate..].
  injection Hg as <-. reflexivity.
Qed.

(** After a global request returned [r], the device's cache holds [r] under
    the descriptor's fingerprint. *)
Lemma exec_global_holds p k d cs ctx w r p1 ctx1 w1 :
  exec p (global_call k d) cs ctx w = (Return (RResource r), p1, ctx1, w1) ->
  p1 = p /\
  cache_view k (dev_obj (device p)) w1 !! globalResourceHash d = Some r.
Proof.
  rewrite exec_global_call.
  destruct (exec_global k (device p) d w) as [o w'] eqn:E.
  intros [= -> <- _ ->]. split; [reflexivity|].
  pose proof (exec_global_run k (device p) d w) as Hr. rewrite E in Hr.
  destruct (cache_for_spec k (device p) w) as (Hreg & Hview & _).
  unfold cache_view.
  inversion Hr as [r' Hg Heq | e Hg _ Heq | Hg _ Heq]; subst.
  - rewrite Hreg. exact Hg.
  - cbn [registry heap emit with_heap with_next_obj]. rewrite Hreg.
    rewrite lookup_insert_eq. simpl. apply lookup_insert_eq.
Qed.

Lemma world_inv_registered_addr w k d a :
  world_inv w -> outer k (registry w) !! d = Some a -> a < next_addr w.
Proof.
  intros Hinv H. destruct (inv_registered w Hinv k d a H) as (dev & _ & Hin).
  apply (inv_addr w Hinv) in Hin. exact Hin.
Qed.

(** Making a cache for one device and kind leaves every cache as it was. *)
Lemma cache_for_view_all k dev w k' d' :
  world_inv w ->
  cache_view k' d' (snd (cache_for k dev w)) = cache_view k' d' w.
Proof.
  intros Hinv. unfold cache_view.
  destruct (outer k (registry w) !! dev_obj dev) as [a|] eqn:E.
  - rewrite (cache_for_registered _ _ _ _ E). reflexivity.
  - rewrite (cache_for_new _ _ _ E). cbn [snd].
    destruct (with_new_cache_fields k dev w) as (-> & -> & _).
    destruct (decide (k = k')) as [<-|Hk].
    + rewrite outer_set_eq. destruct (decide (dev_obj dev = d')) as [<-|Hd].
      * rewrite lookup_insert_eq, lookup_insert_eq, E. reflexivity.
      * rewrite lookup_insert_ne by exact Hd.
        destruct (outer k (registry w) !! d') as [a'|] eqn:E'; [|reflexivity].
        pose proof (world_inv_registered_addr _ _ _ _ Hinv E').
        rewrite lookup_insert_ne by lia. reflexivity.
    + rewrite (outer_set_ne _ _ _ _ Hk).
      destruct (outer k' (registry w) !! d') as [a'|] eqn:E'; [|reflexivity].
      pose proof (world_inv_registered_addr _ _ _ _ Hinv E').
      rewrite lookup_insert_ne by lia. reflexivity.
Qed.

(** C9.  A global request that misses the cache and whose creation call the
    device rejects: the error is thrown to the caller of [exec], the
    creation function was called once and not again, and the device's cache
    for the kind holds what it held before (as does, in any run of the
    program, every other cache). *)
Theorem creation_failure_leaves_cache (p : Plugin) (k : GlobalKind) (d : Descriptor)
    (cs : list string) (ctx : Ctx) (w : World) (e : string) :
  cache_view k (dev_obj (device p)) w !! globalResourceHash d = None ->
  backend_error (device p) (KGlobal k) d = Some e ->
  exists w',
    exec p (global_call k d) cs ctx w = (Throw e, p, ensure_fields ctx, w') /\
    cache_view k (dev_obj (device p)) w' = cache_view k (dev_obj (device p)) w /\
    cache_view k (dev_obj (device p)) w' !! globalResourceHash d = None /\
    creations (trace w') = (creations (trace w) ++ [(device p, KGlobal k, d)])%list /\
    next_obj w' = next_obj w /\
    (world_inv w -> forall k' d', cache_view k' d' w' = cache_view k' d' w).
Proof.
  intros Hmiss Hfail. rewrite exec_global_call.
  pose proof (exec_global_run k (device p) d w) as Hr.
  destruct (cache_for_spec k (device p) w) as (Hreg & Hview & Hview1 & Htr & Hobj & _).
  destruct (exec_global k (device p) d w) as [o w'] eqn:E.
  inversion Hr as [r' Hg Heq | e' Hg He Heq | Hg He Heq]; subst.
  - rewrite Hview, Hmiss in Hg. discriminate.
  - rewrite Hfail in He. injection He as <-.
    eexists. split; [reflexivity|].
    assert (Hsame : forall k' d',
      cache_view k' d' (emit (EvCreate (device p) (KGlobal k) d)
                          (snd (cache_for k (device p) w)))
      = cache_view k' d' (snd (cache_for k (device p) w))) by reflexivity.
    split; [rewrite Hsame; exact Hview1|].
    split; [rewrite Hsame, Hview1; exact Hmiss|].
    split; [cbn [trace emit]; rewrite creations_app, Htr; reflexivity|].
    split; [exact Hobj|].
    intros Hinv k' d'. rewrite Hsame. apply cache_for_view_all. exact Hinv.
  - rewrite Hfail in He. discriminate.
Qed.

(** ** The invariant of the world *)

Lemma world_inv_init : world_inv init_world.
Proof.
  split; simpl.
  - intros k d a H. destruct k; simpl in H; rewrite lookup_empty in H; discriminate.
  - constructor.
  - intros cb H. inversion H.
  - intros cb H. inversion H.
  - intros cb H. inversion H.
  - intros a c key r H. rewrite lookup_empty in H. discriminate.
Qed.

(** A step that touches neither the caches nor the callbacks keeps the
    invariant; it may allocate objects. *)
Lemma world_inv_quiet w w' :
  registry w' = registry w -> heap w' = heap w -> next_addr w' = next_addr w ->
  next_obj w <= next_obj w' -> lost w' = lost w ->
  reactions w' = reactions w -> microtasks w' = microtasks w ->
  world_inv w -> world_inv w'.
Proof.
  intros Hr Hh Ha Ho Hl Hre Hm Hinv.
  assert (Hp : pending w' = pending w) by (unfold pending; rewrite Hre, Hm; reflexivity).
  destruct Hinv as [I1 I2 I3 I4 I5 I6].
  split; rewrite ?Hr, ?Hh, ?Ha, ?Hl, ?Hre, ?Hm, ?Hp; try assumption.
  intros a c key r H1 H2. specialize (I6 a c key r H1 H2). lia.
Qed.

Lemma subscribe_lost_pending cb w :
  pending (subscribe_lost cb w) ≡ₚ cb :: pending w.
Proof.
  unfold subscribe_lost, pending. case_decide; simpl.
  - rewrite app_assoc. symmetry. apply Permutation_cons_append.
  - rewrite <- app_assoc. simpl. symmetry. apply Permutation_middle.
Qed.

Lemma world_inv_new_cache k dev w :
  outer k (registry w) !! dev_obj dev = None ->
  world_inv w -> world_inv (with_new_cache k dev w).
Proof.
  intros Hnone [I1 I2 I3 I4 I5 I6].
  destruct (with_new_cache_fields k dev w) as (Hr & Hh & Ha & Ho & Hl & _).
  set (cb := {| cb_kind := k; cb_device := dev; cb_cache := next_addr w |}).
  set (w0 := with_registry
       (set_outer k (<[dev_obj dev := next_addr w]> (outer k (registry w))) (registry w))
       (with_next_addr (S (next_addr w)) (with_heap (<[next_addr w := ∅]> (heap w)) w))).
  assert (Hp : pending (with_new_cache k dev w) ≡ₚ cb :: pending w)
    by apply (subscribe_lost_pending cb w0).
  split.
  - intros k' d' a'. rewrite Hr. destruct (decide (k = k')) as [<-|Hk].
    + rewrite outer_set_eq. destruct (decide (dev_obj dev = d')) as [<-|Hd].
      * rewrite lookup_insert_eq. intros [= <-]. exists dev. split; [reflexivity|].
        rewrite Hp. left.
      * rewrite lookup_insert_ne by exact Hd. intros H.
        destruct (I1 _ _ _ H) as (dev' & Hd' & Hin). exists dev'. split; [exact Hd'|].
        rewrite Hp. right. exact Hin.
    + rewrite (outer_set_ne _ _ _ _ Hk). intros H.
      destruct (I1 _ _ _ H) as (dev' & Hd' & Hin). exists dev'. split; [exact Hd'|].
      rewrite Hp. right. exact Hin.
  - rewrite Hp. simpl. constructor; [|exact I2].
    intros Hin. apply list_elem_of_fmap in Hin as (cb' & Heq & Hin).
    apply I3 in Hin. lia.
  - intros cb'. rewrite Hp, Ha. intros Hin. apply elem_of_cons in Hin as [->|Hin].
    + simpl. lia.
    + apply I3 in Hin. lia.
  - intros cb'. rewrite Hl. unfold with_new_cache, subscribe_lost. fold cb w0.
    case_decide as Hlost; simpl.
    + intros Hin. apply elem_of_app in Hin as [Hin|Hin]; [exact (I4 _ Hin)|].
      apply list_elem_of_singleton in Hin as ->. exact Hlost.
    + exact (I4 cb').
  - intros cb'. rewrite Hl. unfold with_new_cache, subscribe_lost. fold cb w0.
    case_decide as Hlost; simpl.
    + exact (I5 cb').
    + intros Hin. apply elem_of_app in Hin as [Hin|Hin]; [exact (I5 _ Hin)|].
      apply list_elem_of_singleton in Hin as ->. exact Hlost.
  - intros a c key r. rewrite Hh, Ho.
    destruct (decide (next_addr w = a)) as [<-|Hne].
    + rewrite lookup_insert_eq. intros [= <-]. rewrite lookup_empty. discriminate.
    + rewrite lookup_insert_ne by exact Hne. apply I6.
Qed.

Lemma world_inv_cache_for k dev w :
  world_inv w -> world_inv (snd (cache_for k dev w)).
Proof.
  intros Hinv. destruct (outer k (registry w) !! dev_obj dev) as [a|] eqn:E.
  - rewrite (cache_for_registered _ _ _ _ E). exact Hinv.
  - rewrite (cache_for_new _ _ _ E). apply world_inv_new_cache; assumption.
Qed.

Lemma world_inv_exec_global k dev d w :
  world_inv w -> world_inv (snd (exec_global k dev d w)).
Proof.
  intros Hinv. apply (world_inv_cache_for k dev) in Hinv.
  pose proof (exec_global_run k dev d w) as Hr.
  destruct (exec_global k dev d w) as [o w'].
  set (a := fst (cache_for k dev w)) in *. set (w1 := snd (cache_for k dev w)) in *.
  cbn [snd].
  inversion Hr as [r' Hg Heq | e' Hg He Heq | Hg He Heq]; subst.
  - exact Hinv.
  - eapply world_inv_quiet; [..|exact Hinv]; reflexivity.
  - destruct Hinv as [I1 I2 I3 I4 I5 I6]. split; try assumption.
    intros a' c key r. cbn [heap next_obj emit with_heap with_next_obj].
    destruct (decide (a = a')) as [<-|Hne].
    + rewrite lookup_insert_eq. intros [= <-].
      destruct (decide (globalResourceHash d = key)) as [<-|Hk].
      * rewrite lookup_insert_eq. intros [= <-]. simpl. lia.
      * rewrite lookup_insert_ne by exact Hk.
        destruct (heap w1 !! a) as [c0|] eqn:Ec; simpl.
        -- intros H. specialize (I6 _ _ _ _ Ec H). lia.
        -- rewrite lookup_empty. discriminate.
    + rewrite lookup_insert_ne by exact Hne. intros H1 H2.
      specialize (I6 _ _ _ _ H1 H2). lia.
Qed.

Lemma world_inv_exec p call cs ctx w :
  world_inv w -> world_inv (snd (exec p call cs ctx w)).
Proof.
  intros Hinv.
  assert (Hg : forall k d, world_inv (snd (exec p (global_call k d) cs ctx w))).
  { intros k d. rewrite exec_global_call.
    pose proof (world_inv_exec_global k (device p) d w Hinv) as H.
    destruct (exec_global k (device p) d w). exact H. }
  assert (Hl : forall k d, world_inv (snd (exec p (local_call k d) cs ctx w))).
  { intros k d. rewrite exec_local_call.
    pose proof (exec_local_run k (device p) d (stringHash (join_callSite cs))
                  (ensure_fields ctx) w) as Hr.
    destruct (exec_local k (device p) d _ (ensure_fields ctx) w) as [[o c'] w'].
    cbn [snd].
    inversion Hr; subst; try exact Hinv;
      (eapply world_inv_quiet; [..|exact Hinv]; simpl; try reflexivity; lia). }
  destruct call as [d|d|d|d|d|d|d|d|d|f deps|a|eff deps|].
  - exact (Hg ShaderModule d).
  - exact (Hg RenderPipeline d).
  - exact (Hg ComputePipeline d).
  - exact (Hg BindGroupLayout d).
  - exact (Hg PipelineLayout d).
  - exact (Hl Buffer d).
  - exact (Hl Texture d).
  - exact (Hl BindGroup d).
  - exact (Hg Sampler d).
  - unfold exec. destruct (exec_pushFrame _ f deps p _) as [[? ?] ?]. exact Hinv.
  - exact Hinv.
  - unfold exec, exec_queueEffect.
    destruct (negb (isSameDependencies_with_cached _ _)); [|exact Hinv].
    eapply world_inv_quiet; [..|exact Hinv]; reflexivity.
  - exact Hinv.
Qed.

Lemma world_inv_dispose ctx w : world_inv w -> world_inv (snd (dispose ctx w)).
Proof.
  intros Hinv. destruct (dispose_spec ctx w) as (_ & _ & Hw).
  assert (Hf : forall (A : Type) (f : World -> A),
    (forall w0, f w0 = f (without_trace w0)) ->
    f (snd (dispose ctx w)) = f w).
  { intros A f Hf. rewrite Hf, Hw, <- Hf. reflexivity. }
  eapply world_inv_quiet; [..|exact Hinv].
  - apply (Hf _ registry). reflexivity.
  - apply (Hf _ heap). reflexivity.
  - apply (Hf _ next_addr). reflexivity.
  - rewrite (Hf _ next_obj); [lia | reflexivity].
  - apply (Hf _ lost). reflexivity.
  - apply (Hf _ reactions). reflexivity.
  - apply (Hf _ microtasks). reflexivity.
Qed.

Lemma world_inv_settle f s w : world_inv w -> world_inv (settle f s w).
Proof.
  intros Hinv. unfold settle. destruct (futures w !! f) as [[| |]|]; try exact Hinv.
  eapply world_inv_quiet; [..|exact Hinv]; reflexivity.
Qed.

Lemma world_inv_run_wrapper wr bag w : world_inv w -> world_inv (run_wrapper wr bag w).
Proof.
  intros Hinv. unfold run_wrapper, promise_resolve, promise_reject.
  assert (H1 : world_inv (emit (EvRunAction (wr_action wr)) w))
    by (eapply world_inv_quiet; [..|exact Hinv]; reflexivity).
  destruct (action_outcome (wr_action wr) bag); try exact H1;
    apply world_inv_settle; (eapply world_inv_quiet; [..|exact H1]; reflexivity).
Qed.

Lemma world_inv_resolve_lost d w : world_inv w -> world_inv (resolve_lost d w).
Proof.
  intros Hinv. unfold resolve_lost. case_decide as Hl; [exact Hinv|].
  destruct Hinv as [I1 I2 I3 I4 I5 I6].
  set (P := fun cb => on_device d cb = true).
  set (w' := with_lost _ _).
  assert (Hreg : registry w' = registry w) by reflexivity.
  assert (Hheap : heap w' = heap w) by reflexivity.
  assert (Hm : microtasks w' = (microtasks w ++ filter P (reactions w))%list) by reflexivity.
  assert (Hr : reactions w' = filter (fun cb => ~ P cb) (reactions w)) by reflexivity.
  assert (Hlost : lost w' = {[d]} ∪ lost w) by reflexivity.
  assert (Hp : pending w' ≡ₚ pending w).
  { unfold pending. rewrite Hm, Hr.
    rewrite (Permutation_app_comm (microtasks w)), app_assoc.
    rewrite (Permutation_app_comm (filter _ _) (filter P _)), filter_app_complement.
    reflexivity. }
  split.
  - intros k d' a. rewrite Hreg. intros H. destruct (I1 _ _ _ H) as (dev & Hd & Hin).
    exists dev. split; [exact Hd|]. rewrite Hp. exact Hin.
  - rewrite Hp. exact I2.
  - intros cb. rewrite Hp. apply I3.
  - intros cb. rewrite Hm, Hlost. intros Hin. apply elem_of_app in Hin as [Hin|Hin].
    + apply elem_of_union_r. exact (I4 _ Hin).
    + apply list_elem_of_filter in Hin as [Hon _]. unfold P, on_device in Hon.
      apply Nat.eqb_eq in Hon. rewrite Hon. apply elem_of_union_l, elem_of_singleton.
      reflexivity.
  - intros cb. rewrite Hr, Hlost. intros Hin. apply list_elem_of_filter in Hin as [Hon Hin].
    intros Hu. apply elem_of_union in Hu as [Hu|Hu].
    + apply elem_of_singleton in Hu. apply Hon. unfold P, on_device.
      apply Nat.eqb_eq. exact Hu.
    + exact (I5 _ Hin Hu).
  - rewrite Hheap. exact I6.
Qed.

(** ** Draining the microtask queue *)

Lemma run_microtasks_drain w :
  run_microtasks w = drain (microtasks w) (with_microtasks [] w).
Proof. reflexivity. Qed.

Lemma drain_cons cb l s : drain (cb :: l) s = drain l (run_lost_callback cb s).
Proof. reflexivity. Qed.

Lemma drain_fields l s :
  reactions (drain l s) = reactions s /\ microtasks (drain l s) = microtasks s /\
  lost (drain l s) = lost s /\ next_addr (drain l s) = next_addr s /\
  next_obj (drain l s) = next_obj s /\ futures (drain l s) = futures s.
Proof.
  revert s. induction l as [|cb l IH]; intros s; [repeat split; reflexivity|].
  rewrite drain_cons.
  destruct (IH (run_lost_callback cb s)) as (H1 & H2 & H3 & H4 & H5 & H6).
  rewrite H1, H2, H3, H4, H5, H6. repeat split; reflexivity.
Qed.

Lemma drain_heap l s a :
  heap (drain l s) !! a =
    if decide (a ∈ map cb_cache l) then Some ∅ else heap s !! a.
Proof.
  revert s. induction l as [|cb l IH]; intros s.
  - destruct (decide _) as [H|H]; [inversion H | reflexivity].
  - rewrite drain_cons, IH. cbn [map heap run_lost_callback emit with_heap with_registry].
    destruct (decide (a ∈ map cb_cache l)) as [Hin|Hnin].
    + rewrite decide_True by (right; exact Hin). reflexivity.
    + destruct (decide (cb_cache cb = a)) as [<-|Hne].
      * rewrite lookup_insert_eq, decide_True by left. reflexivity.
      * rewrite lookup_insert_ne by exact Hne.
        rewrite decide_False; [reflexivity|].
        intros H. apply elem_of_cons in H as [H|H]; [congruence | contradiction].
Qed.

Lemma drain_registry l s k d :
  outer k (registry (drain l s)) !! d =
    if decide (Exists (evicts k d) l) then None else outer k (registry s) !! d.
Proof.
  revert s. induction l as [|cb l IH]; intros s.
  - destruct (decide _) as [H|H]; [inversion H | reflexivity].
  - rewrite drain_cons, IH.
    destruct (decide (Exists (evicts k d) l)) as [Hex|Hnex].
    + rewrite decide_True by (right; exact Hex). reflexivity.
    + cbn [registry run_lost_callback emit with_heap with_registry].
      destruct (decide (evicts k d cb)) as [[Hk Hd]|Hne].
      * rewrite decide_True by (left; split; assumption).
        rewrite Hk, outer_set_eq, Hd. apply lookup_delete_eq.
      * rewrite decide_False
          by (intros H; apply Exists_cons in H as [H|H]; contradiction).
        destruct (decide (cb_kind cb = k)) as [Hk|Hk].
        -- rewrite Hk, outer_set_eq. apply lookup_delete_ne.
           intros Hd. apply Hne. split; assumption.
        -- rewrite (outer_set_ne _ _ _ _ Hk). reflexivity.
Qed.

Lemma drain_trace l s :
  NoDup (map cb_cache l) ->
  trace (drain l s) = (trace s ++ map (cleared_event s) l)%list.
Proof.
  revert s. induction l as [|cb l IH]; intros s Hnd.
  - simpl. rewrite app_nil_r. reflexivity.
  - cbn [map] in Hnd. apply NoDup_cons in Hnd as [Hnin Hnd].
    rewrite drain_cons, (IH _ Hnd).
    cbn [trace run_lost_callback emit with_heap with_registry map].
    rewrite <- app_assoc. f_equal. cbn [app]. f_equal.
    apply map_ext_in. intros cb' Hin. unfold cleared_event.
    cbn [heap run_lost_callback emit with_heap with_registry].
    rewrite lookup_insert_ne; [reflexivity|].
    intros Heq. apply Hnin. rewrite Heq. apply list_elem_of_In.
    apply in_map. exact Hin.
Qed.

Lemma world_inv_run_microtasks w : world_inv w -> world_inv (run_microtasks w).
Proof.
  intros [I1 I2 I3 I4 I5 I6]. rewrite run_microtasks_drain.
  set (s := with_microtasks [] w).
  destruct (drain_fields (microtasks w) s) as (Hr & Hm & Hl & Ha & Ho & _).
  assert (Hp : pending (drain (microtasks w) s) = reactions w).
  { unfold pending. rewrite Hr, Hm. apply app_nil_r. }
  split.
  - intros k d a. rewrite drain_registry. case_decide as Hex; [discriminate|].
    intros H. destruct (I1 _ _ _ H) as (dev & Hd & Hin).
    exists dev. split; [exact Hd|]. rewrite Hp.
    apply elem_of_app in Hin as [Hin|Hin]; [exact Hin|].
    exfalso. apply Hex. apply Exists_exists. eexists. split; [exact Hin|].
    split; [reflexivity | exact Hd].
  - rewrite Hp. unfold pending in I2. rewrite map_app in I2.
    apply NoDup_app in I2 as (I2 & _). exact I2.
  - intros cb. rewrite Hp, Ha. intros Hin. apply I3. apply elem_of_app. left. exact Hin.
  - intros cb. rewrite Hm. intros Hin. inversion Hin.
  - intros cb. rewrite Hr, Hl. apply I5.
  - intros a c key r. rewrite drain_heap, Ho. case_decide.
    + intros [= <-]. rewrite lookup_empty. discriminate.
    + apply I6.
Qed.

Lemma world_inv_step w w' : world_inv w -> step w w' -> world_inv w'.
Proof.
  intros Hinv Hstep. destruct Hstep.
  - apply world_inv_exec. exact Hinv.
  - apply world_inv_dispose. exact Hinv.
  - eapply world_inv_quiet; [..|exact Hinv]; reflexivity.
  - apply world_inv_run_wrapper. exact Hinv.
  - apply world_inv_resolve_lost. exact Hinv.
  - apply world_inv_run_microtasks. exact Hinv.
Qed.

Lemma world_inv_steps w w' : world_inv w -> steps w w' -> world_inv w'.
Proof.
  intros Hinv Hsteps. induction Hsteps; [exact Hinv|].
  eapply world_inv_step; [|eassumption]. auto.
Qed.

Lemma reachable_inv w : reachable w -> world_inv w.
Proof. apply world_inv_steps, world_inv_init. Qed.

Lemma steps_one w w' : step w w' -> steps w w'.
Proof. intros H. eapply steps_next; [apply steps_refl | exact H]. Qed.

(** ** What a step can change *)

Lemma quiet_settle f s w : quiet w (settle f s w).
Proof.
  unfold settle. destruct (futures w !! f) as [[| |]|];
    repeat split; simpl; try reflexivity; lia.
Qed.

Lemma quiet_trans w1 w2 w3 : quiet w1 w2 -> quiet w2 w3 -> quiet w1 w3.
Proof.
  intros (A1 & A2 & A3 & A4 & A5 & A6 & A7) (B1 & B2 & B3 & B4 & B5 & B6 & B7).
  repeat split; try congruence. lia.
Qed.

Lemma step_cases w w' :
  step w w' ->
  quiet w w' \/
  (exists k dev d, w' = snd (exec_global k dev d w)) \/
  (exists d, w' = resolve_lost d w) \/
  w' = run_microtasks w.
Proof.
  intros Hstep. destruct Hstep as [p call cs ctx w| ctx w | a p w | wr bag w | d w | w].
  - assert (Hg : forall k d,
      exists k0 dev d0, snd (exec p (global_call k d) cs ctx w) = snd (exec_global k0 dev d0 w)).
    { intros k d. exists k, (device p), d. rewrite exec_global_call.
      destruct (exec_global k (device p) d w). reflexivity. }
    assert (Hl : forall k d, quiet w (snd (exec p (local_call k d) cs ctx w))).
    { intros k d. rewrite exec_local_call.
      pose proof (exec_local_run k (device p) d (stringHash (join_callSite cs))
                    (ensure_fields ctx) w) as Hr.
      destruct (exec_local k (device p) d _ (ensure_fields ctx) w) as [[o c'] w'].
      cbn [snd]. inversion Hr; subst; repeat split; simpl; try reflexivity; lia. }
    destruct call as [d|d|d|d|d|d|d|d|d|f deps|a|eff deps|].
    + right; left. exact (Hg ShaderModule d).
    + right; left. exact (Hg RenderPipeline d).
    + right; left. exact (Hg ComputePipeline d).
    + right; left. exact (Hg BindGroupLayout d).
    + right; left. exact (Hg PipelineLayout d).
    + left. exact (Hl Buffer d).
    + left. exact (Hl Texture d).
    + left. exact (Hl BindGroup d).
    + right; left. exact (Hg Sampler d).
    + left. unfold exec. destruct (exec_pushFrame _ f deps p _) as [[? ?] ?].
      repeat split; simpl; try reflexivity; lia.
    + left. repeat split; simpl; try reflexivity; lia.
    + left. unfold exec, exec_queueEffect.
      destruct (negb (isSameDependencies_with_cached _ _));
        repeat split; simpl; try reflexivity; lia.
    + left. repeat split; simpl; try reflexivity; lia.
  - left. destruct (dispose_spec ctx w) as (_ & _ & Hw).
    assert (Hf : forall (A : Type) (f : World -> A),
      (forall w0, f w0 = f (without_trace w0)) -> f (snd (dispose ctx w)) = f w).
    { intros A f Hf. rewrite Hf, Hw, <- Hf. reflexivity. }
    repeat split;
      [apply (Hf _ registry) | apply (Hf _ heap) | apply (Hf _ next_addr)
      | rewrite (Hf _ next_obj); [lia|] | apply (Hf _ lost)
      | apply (Hf _ reactions) | apply (Hf _ microtasks)]; reflexivity.
  - left. repeat split; simpl; try reflexivity; lia.
  - left. unfold run_wrapper, promise_resolve, promise_reject.
    assert (H1 : quiet w (emit (EvRunAction (wr_action wr)) w))
      by (repeat split; simpl; try reflexivity; lia).
    destruct (action_outcome (wr_action wr) bag); try exact H1;
      (eapply quiet_trans; [|apply quiet_settle]);
      repeat split; simpl; try reflexivity; lia.
  - right; right; left. exists d. reflexivity.
  - right; right; right. reflexivity.
Qed.

(** What a global branch does to the world, given the cache it works on. *)
Lemma exec_global_world k dev d w :
  let a := fst (cache_for k dev w) in
  let w1 := snd (cache_for k dev w) in
  let w' := snd (exec_global k dev d w) in
  registry w' = registry w1 /\ next_addr w' = next_addr w1 /\ lost w' = lost w1 /\
  reactions w' = reactions w1 /\ microtasks w' = microtasks w1 /\
  next_obj w1 <= next_obj w' /\
  (forall a', a' <> a -> heap w' !! a' = heap w1 !! a') /\
  (forall key r, default ∅ (heap w1 !! a) !! key = Some r ->
                 default ∅ (heap w' !! a) !! key = Some r).
Proof.
  intros a w1 w'. pose proof (exec_global_run k dev d w) as Hr.
  fold a w1 in Hr. unfold w'. destruct (exec_global k dev d w) as [o w2]. cbn [snd].
  inversion Hr as [r' Hg Heq | e' Hg He Heq | Hg He Heq]; subst;
    cbn [registry heap next_addr next_obj lost reactions microtasks
         emit with_heap with_next_obj];
    repeat split; try reflexivity; try lia; try (intros; assumption).
  - intros a' Hne. rewrite lookup_insert_ne by congruence. reflexivity.
  - intros key r Hk. rewrite lookup_insert_eq.
    change (<[globalResourceHash d := hashed (next_obj w1)]>
              (default ∅ (heap w1 !! a)) !! key = Some r).
    rewrite lookup_insert_ne; [exact Hk|]. intros <-. rewrite Hg in Hk. discriminate.
Qed.

Lemma cache_for_world k dev w :
  let w1 := snd (cache_for k dev w) in
  next_obj w1 = next_obj w /\ lost w1 = lost w /\
  next_addr w <= next_addr w1 /\
  (forall a, a < next_addr w -> heap w1 !! a = heap w !! a) /\
  (forall a, a ∈ map cb_cache (pending w1) ->
             a ∈ map cb_cache (pending w) \/ a = next_addr w).
Proof.
  intros w1. unfold w1.
  destruct (outer k (registry w) !! dev_obj dev) as [a0|] eqn:E.
  - rewrite (cache_for_registered _ _ _ _ E). cbn [snd].
    repeat split; try reflexivity; try lia. intros a Ha. left. exact Ha.
  - rewrite (cache_for_new _ _ _ E). cbn [snd].
    destruct (with_new_cache_fields k dev w) as (_ & Hh & Ha & Ho & Hl & _).
    rewrite Hh, Ha, Ho, Hl. repeat split; try reflexivity; try lia.
    + intros a Hlt. rewrite lookup_insert_ne by lia. reflexivity.
    + intros a Hin. unfold with_new_cache in Hin.
      rewrite subscribe_lost_pending in Hin. cbn [map] in Hin.
      apply elem_of_cons in Hin as [->|Hin]; [right; reflexivity | left; exact Hin].
Qed.

Lemma step_next_obj w w' : step w w' -> next_obj w <= next_obj w'.
Proof.
  intros H. apply step_cases in H as [H|[(k & dev & d & ->)|[(d & ->)| ->]]].
  - destruct H as (_ & _ & _ & H & _). exact H.
  - destruct (exec_global_world k dev d w) as (_ & _ & _ & _ & _ & H & _).
    destruct (cache_for_world k dev w) as (H1 & _). lia.
  - unfold resolve_lost. case_decide; simpl; lia.
  - rewrite run_microtasks_drain.
    destruct (drain_fields (microtasks w) (with_microtasks [] w)) as (_ & _ & _ & _ & H & _).
    rewrite H. simpl. lia.
Qed.

Lemma steps_next_obj w w' : steps w w' -> next_obj w <= next_obj w'.
Proof.
  intros H. induction H as [|w1 w2 w3 _ IH Hs]; [lia|].
  apply step_next_obj in Hs. lia.
Qed.

Lemma step_lost w w' d : step w w' -> d ∈ lost w -> d ∈ lost w'.
Proof.
  intros H Hd. apply step_cases in H as [H|[(k & dev & d0 & ->)|[(d0 & ->)| ->]]].
  - destruct H as (_ & _ & _ & _ & H & _). rewrite H. exact Hd.
  - destruct (exec_global_world k dev d0 w) as (_ & _ & H & _).
    destruct (cache_for_world k dev w) as (_ & H1 & _). rewrite H, H1. exact Hd.
  - unfold resolve_lost. case_decide; simpl; [exact Hd|]. apply elem_of_union_r. exact Hd.
  - rewrite run_microtasks_drain.
    destruct (drain_fields (microtasks w) (with_microtasks [] w)) as (_ & _ & H & _).
    rewrite H. exact Hd.
Qed.

Lemma steps_lost w w' d : steps w w' -> d ∈ lost w -> d ∈ lost w'.
Proof.
  intros H Hd. induction H as [|w1 w2 w3 _ IH Hs]; [exact Hd|].
  eapply step_lost; [exact Hs | exact (IH Hd)].
Qed.

(** ** Cached entries of a live device stay *)

Lemma step_cached w w' k d key r :
  world_inv w -> step w w' -> d ∉ lost w' ->
  cache_view k d w !! key = Some r -> cache_view k d w' !! key = Some r.
Proof.
  intros Hinv Hstep Hlive Hc.
  apply step_cases in Hstep as [H|[(k0 & dev0 & d0 & ->)|[(d0 & ->)| ->]]].
  - destruct H as (Hr & Hh & _). unfold cache_view. rewrite Hr, Hh. exact Hc.
  - rewrite <- (cache_for_view_all k0 dev0 w k d Hinv) in Hc.
    destruct (exec_global_world k0 dev0 d0 w) as (Hr & _ & _ & _ & _ & _ & Hother & Hsame).
    unfold cache_view in *. rewrite Hr.
    destruct (outer k (registry (snd (cache_for k0 dev0 w))) !! d) as [a0|];
      [|rewrite lookup_empty in Hc; discriminate].
    destruct (decide (a0 = fst (cache_for k0 dev0 w))) as [->|Hne].
    + apply Hsame. exact Hc.
    + rewrite (Hother _ Hne). exact Hc.
  - unfold resolve_lost. case_decide; [exact Hc|]. exact Hc.
  - rewrite run_microtasks_drain in *.
    destruct (drain_fields (microtasks w) (with_microtasks [] w)) as (_ & _ & Hl & _).
    rewrite Hl in Hlive. cbn [lost with_microtasks] in Hlive.
    unfold cache_view in *. rewrite drain_registry.
    rewrite decide_False.
    2:{ intros Hex. apply Exists_exists in Hex as (cb & Hin & _ & Hd).
        apply (inv_queued_lost w Hinv) in Hin. rewrite Hd in Hin. contradiction. }
    cbn [registry with_microtasks].
    destruct (outer k (registry w) !! d) as [a|] eqn:Ereg;
      [|rewrite lookup_empty in Hc; discriminate].
    rewrite drain_heap. rewrite decide_False; [exact Hc|].
    intros Hin. destruct (inv_registered w Hinv _ _ _ Ereg) as (dev & Hd & Hp).
    unfold pending in Hp. apply elem_of_app in Hp as [Hp|Hp].
    + pose proof (inv_nodup w Hinv) as Hnd. unfold pending in Hnd.
      rewrite map_app in Hnd. apply NoDup_app in Hnd as (_ & Hdisj & _).
      apply (Hdisj a); [|exact Hin].
      apply list_elem_of_fmap. eexists. split; [|exact Hp]. reflexivity.
    + apply (inv_queued_lost w Hinv) in Hp. simpl in Hp. rewrite Hd in Hp. contradiction.
Qed.

Lemma steps_cached w w' k d key r :
  world_inv w -> steps w w' -> d ∉ lost w' ->
  cache_view k d w !! key = Some r -> cache_view k d w' !! key = Some r.
Proof.
  intros Hinv Hsteps. induction Hsteps as [|w1 w2 w3 H12 IH H23]; intros Hlive Hc.
  - exact Hc.
  - eapply step_cached; [eapply world_inv_steps; eassumption | exact H23 | exact Hlive |].
    apply IH; [exact Hinv | | exact Hc].
    intros Hl. apply Hlive. eapply step_lost; eassumption.
Qed.

Lemma exec_global_creations p k d cs ctx w :
  creations (trace (snd (exec p (global_call k d) cs ctx w))) =
    (creations (trace w)
       ++ match cache_view k (dev_obj (device p)) w !! globalResourceHash d with
          | Some _ => []
          | None => [(device p, KGlobal k, d)]
          end)%list.
Proof.
  rewrite exec_global_call.
  pose proof (exec_global_run k (device p) d w) as Hr.
  destruct (cache_for_spec k (device p) w) as (_ & Hview & _ & Htr & _).
  destruct (exec_global k (device p) d w) as [o w']. cbn [snd].
  inversion Hr as [r' Hg Heq | e' Hg He Heq | Hg He Heq]; subst;
    rewrite Hview in Hg; rewrite Hg; cbn [trace emit with_heap with_next_obj];
    rewrite ?creations_app, Htr; cbn; rewrite ?app_nil_r; reflexivity.
Qed.

(** C1.  A global request that returned [r] leaves [r] cached: the next
    equal request to the device returns the same [r] and leaves the world
    as it is, so the creation function is not called again; the first
    request called it once if the fingerprint was not cached and not at all
    if it was, in which case it returned the cached resource and left the
    world as it was.  In a run of the program the same holds of any later
    equal request to the device, whatever happened in between, as long as
    the device is not lost. *)
Theorem global_memoization (p : Plugin) (k : GlobalKind) (d : Descriptor)
    (cs : list string) (ctx : Ctx) (w : World)
    (r : Resource) (p1 : Plugin) (ctx1 : Ctx) (w1 : World) :
  exec p (global_call k d) cs ctx w = (Return (RResource r), p1, ctx1, w1) ->
  let cached := cache_view k (dev_obj (device p)) w !! globalResourceHash d in
  (forall cs' ctx',
     exec p1 (global_call k d) cs' ctx' w1
       = (Return (RResource r), p1, ensure_fields ctx', w1)) /\
  creations (trace w1) =
    (creations (trace w)
       ++ match cached with Some _ => [] | None => [(device p, KGlobal k, d)] end)%list /\
  (forall r0, cached = Some r0 -> r = r0 /\ w1 = w) /\
  (reachable w ->
   forall w2 p' cs' ctx',
     steps w1 w2 ->
     dev_obj (device p') = dev_obj (device p) ->
     dev_obj (device p) ∉ lost w2 ->
     exec p' (global_call k d) cs' ctx' w2
       = (Return (RResource r), p', ensure_fields ctx', w2)).
Proof.
  intros Hexec cached.
  destruct (exec_global_holds _ _ _ _ _ _ _ _ _ _ Hexec) as (-> & Hheld).
  split; [intros cs' ctx'; apply exec_global_hit; exact Hheld|].
  split.
  { pose proof (exec_global_creations p k d cs ctx w) as Hc.
    rewrite Hexec in Hc. exact Hc. }
  split.
  { intros r0 Hr0. rewrite (exec_global_hit _ _ _ cs ctx _ _ Hr0) in Hexec.
    injection Hexec as -> _ ->. split; reflexivity. }
  intros Hreach w2 p' cs' ctx' Hsteps Hdev Hlive.
  apply exec_global_hit. rewrite Hdev.
  eapply steps_cached; [| exact Hsteps | exact Hlive | exact Hheld].
  apply reachable_inv. eapply steps_next; [exact Hreach|].
  pose proof (step_exec p (global_call k d) cs ctx w) as Hs.
  rewrite Hexec in Hs. exact Hs.
Qed.

(** ** Device loss *)

Lemma resolve_lost_fields d w :
  registry (resolve_lost d w) = registry w /\ heap (resolve_lost d w) = heap w /\
  next_addr (resolve_lost d w) = next_addr w /\ next_obj (resolve_lost d w) = next_obj w /\
  trace (resolve_lost d w) = trace w /\ d ∈ lost (resolve_lost d w).
Proof.
  unfold resolve_lost. case_decide as Hl; repeat split; try reflexivity; try exact Hl.
  simpl. apply elem_of_union_l, elem_of_singleton. reflexivity.
Qed.

Lemma resolve_lost_pending d w : pending (resolve_lost d w) ≡ₚ pending w.
Proof.
  unfold resolve_lost. case_decide; [reflexivity|]. unfold pending. simpl.
  rewrite (Permutation_app_comm (microtasks w)), app_assoc.
  rewrite (Permutation_app_comm (filter _ (reactions w))
             (filter (fun cb => on_device d cb = true) (reactions w))).
  rewrite (filter_app_complement (fun cb => on_device d cb = true)). reflexivity.
Qed.

(** Once a device is lost, each of its pending callbacks is in the
    microtask queue. *)
Lemma lost_callback_queued w cb :
  world_inv w -> cb ∈ pending w -> dev_obj (cb_device cb) ∈ lost w -> cb ∈ microtasks w.
Proof.
  intros Hinv Hin Hl. unfold pending in Hin. apply elem_of_app in Hin as [Hin|Hin].
  - exfalso. exact (inv_waiting_live w Hinv cb Hin Hl).
  - exact Hin.
Qed.

Lemma registered_pending_cache w k d a :
  world_inv w -> outer k (registry w) !! d = Some a -> a ∈ map cb_cache (pending w).
Proof.
  intros Hinv H. destruct (inv_registered w Hinv _ _ _ H) as (dev & _ & Hin).
  apply list_elem_of_fmap. eexists. split; [|exact Hin]. reflexivity.
Qed.

Lemma step_retired w w' a :
  world_inv w -> step w w' -> retired a w ->
  heap w' !! a = heap w !! a /\ retired a w'.
Proof.
  intros Hinv Hstep [Hlt Hnp]. unfold retired.
  apply step_cases in Hstep as [H|[(k0 & dev0 & d0 & ->)|[(d0 & ->)| ->]]].
  - destruct H as (_ & Hh & Ha & _ & _ & Hr & Hm). unfold pending.
    rewrite Hh, Ha, Hr, Hm. auto.
  - destruct (cache_for_world k0 dev0 w) as (_ & _ & Ha1 & Hh1 & Hp1).
    destruct (cache_for_spec k0 dev0 w) as (Hreg1 & _).
    destruct (exec_global_world k0 dev0 d0 w) as (_ & Ha2 & _ & Hr2 & Hm2 & _ & Hother & _).
    pose proof (world_inv_cache_for k0 dev0 w Hinv) as Hinv1.
    assert (Hnp1 : a ∉ map cb_cache (pending (snd (cache_for k0 dev0 w)))).
    { intros Hin. apply Hp1 in Hin as [Hin | ->]; [contradiction | lia]. }
    assert (Hne : a <> fst (cache_for k0 dev0 w)).
    { intros ->. apply Hnp1. eapply registered_pending_cache; eassumption. }
    unfold pending. rewrite (Hother _ Hne), (Hh1 _ Hlt), Ha2, Hr2, Hm2.
    split; [reflexivity|]. split; [lia | exact Hnp1].
  - destruct (resolve_lost_fields d0 w) as (_ & Hh & Ha & _).
    rewrite Hh, Ha, (resolve_lost_pending d0 w). auto.
  - rewrite run_microtasks_drain.
    destruct (drain_fields (microtasks w) (with_microtasks [] w)) as (Hr & Hm & _ & Ha & _).
    unfold pending. rewrite drain_heap, Hr, Hm, Ha. cbn [heap reactions microtasks next_addr with_microtasks].
    assert (Hsub : forall x, x ∈ map cb_cache (reactions w) \/ x ∈ map cb_cache (microtasks w)
                             -> x ∈ map cb_cache (pending w)).
    { intros x Hx. unfold pending. rewrite map_app. apply elem_of_app. exact Hx. }
    rewrite decide_False by (intros Hin; apply Hnp, Hsub; right; exact Hin).
    split; [reflexivity|]. split; [exact Hlt|].
    rewrite app_nil_r. intros Hin. apply Hnp, Hsub. left. exact Hin.
Qed.

Lemma steps_retired w w' a :
  world_inv w -> steps w w' -> retired a w ->
  heap w' !! a = heap w !! a /\ retired a w'.
Proof.
  intros Hinv Hsteps Hret. induction Hsteps as [|w1 w2 w3 H12 IH H23]; [auto|].
  destruct (IH Hinv Hret) as [Hh Hret2].
  destruct (step_retired w2 w3 a) as [Hh3 Hret3];
    [eapply world_inv_steps; eassumption | exact H23 | exact Hret2 |].
  split; [congruence | exact Hret3].
Qed.

(** At a point where the microtask queue is empty, a lost device has no
    cache registered. *)
Lemma lost_device_unregistered w k d :
  world_inv w -> d ∈ lost w -> microtasks w = [] -> outer k (registry w) !! d = None.
Proof.
  intros Hinv Hl Hm. destruct (outer k (registry w) !! d) as [a|] eqn:E; [|reflexivity].
  destruct (inv_registered w Hinv _ _ _ E) as (dev & Hd & Hin).
  apply (lost_callback_queued w _ Hinv) in Hin; [|simpl; rewrite Hd; exact Hl].
  rewrite Hm in Hin. inversion Hin.
Qed.

(** What the firing of a device's lost signal does to a registered cache. *)
Lemma device_lost_evicts k d a c w :
  world_inv w -> d ∉ lost w ->
  outer k (registry w) !! d = Some a -> heap w !! a = Some c ->
  let w1 := device_lost d w in
  (exists dev evs, dev_obj dev = d /\ trace w1 = (trace w ++ evs)%list /\
     EvLog (LogCleared k (size c) (dev_instanceId dev)) ∈ evs) /\
  heap w1 !! a = Some ∅ /\
  (forall k', outer k' (registry w1) !! d = None) /\
  d ∈ lost w1 /\ microtasks w1 = [] /\ retired a w1.
Proof.
  intros Hinv Hlive Hreg Hheap w1.
  pose proof (world_inv_resolve_lost d w Hinv) as Hinv0.
  destruct (resolve_lost_fields d w) as (Hr0 & Hh0 & Ha0 & _ & Ht0 & Hl0).
  set (w0 := resolve_lost d w) in *.
  set (s := with_microtasks [] w0).
  assert (Hw1 : w1 = drain (microtasks w0) s) by reflexivity.
  destruct (drain_fields (microtasks w0) s) as (Hr & Hm & Hl & Ha & _).
  assert (Hq : forall k' dev' a', dev_obj dev' = d ->
    {| cb_kind := k'; cb_device := dev'; cb_cache := a' |} ∈ pending w ->
    {| cb_kind := k'; cb_device := dev'; cb_cache := a' |} ∈ microtasks w0).
  { intros k' dev' a' Hd Hin. apply (lost_callback_queued w0 _ Hinv0).
    - unfold w0. rewrite resolve_lost_pending. exact Hin.
    - simpl. rewrite Hd. exact Hl0. }
  destruct (inv_registered w Hinv _ _ _ Hreg) as (dev & Hd & Hin).
  pose proof (Hq _ _ _ Hd Hin) as Hin0.
  pose proof (inv_nodup w0 Hinv0) as Hnd. unfold pending in Hnd. rewrite map_app in Hnd.
  apply NoDup_app in Hnd as (_ & Hdisj & Hnd).
  assert (Ha_in : a ∈ map cb_cache (microtasks w0)).
  { apply list_elem_of_fmap. eexists. split; [|exact Hin0]. reflexivity. }
  split.
  { exists dev, (map (cleared_event s) (microtasks w0)). split; [exact Hd|].
    rewrite Hw1, (drain_trace _ _ Hnd). split; [cbn [trace s with_microtasks]; rewrite Ht0; reflexivity|].
    apply list_elem_of_fmap. eexists. split; [|exact Hin0].
    unfold cleared_event. cbn [heap s with_microtasks cb_kind cb_cache cb_device].
    rewrite Hh0, Hheap. reflexivity. }
  split; [rewrite Hw1, drain_heap, decide_True by exact Ha_in; reflexivity|].
  split.
  { intros k'. rewrite Hw1, drain_registry. case_decide as Hex; [reflexivity|].
    cbn [registry s with_microtasks]. rewrite Hr0.
    destruct (outer k' (registry w) !! d) as [a'|] eqn:E'; [|reflexivity].
    exfalso. apply Hex. destruct (inv_registered w Hinv _ _ _ E') as (dev' & Hd' & Hin').
    apply Exists_exists. eexists. split; [exact (Hq _ _ _ Hd' Hin')|].
    split; [reflexivity | exact Hd']. }
  split; [rewrite Hw1, Hl; exact Hl0|].
  split; [rewrite Hw1, Hm; reflexivity|].
  split.
  - rewrite Hw1, Ha. cbn [next_addr s with_microtasks]. rewrite Ha0.
    eapply world_inv_registered_addr; eassumption.
  - unfold pending. rewrite Hw1, Hr, Hm, app_nil_r. cbn [reactions s with_microtasks].
    intros Hin'. exact (Hdisj a Hin' Ha_in).
Qed.

(** A global request to a device that has no cache registered makes a new
    cache and a new resource. *)
Lemma exec_global_unregistered p k desc cs ctx w r p2 ctx2 w2 :
  outer k (registry w) !! dev_obj (device p) = None ->
  exec p (global_call k desc) cs ctx w = (Return (RResource r), p2, ctx2, w2) ->
  r = hashed (next_obj w) /\
  outer k (registry w2) !! dev_obj (device p) = Some (next_addr w) /\
  heap w2 !! next_addr w = Some {[globalResourceHash desc := r]} /\
  creations (trace w2) = (creations (trace w) ++ [(device p, KGlobal k, desc)])%list.
Proof.
  intros Hnone Hexec.
  pose proof (exec_global_creations p k desc cs ctx w) as Hcr.
  rewrite Hexec in Hcr. cbn [snd] in Hcr. unfold cache_view in Hcr.
  rewrite Hnone, lookup_empty in Hcr.
  rewrite exec_global_call in Hexec.
  pose proof (exec_global_run k (device p) desc w) as Hr.
  rewrite (cache_for_new _ _ _ Hnone) in Hr. cbn [fst snd] in Hr.
  destruct (with_new_cache_fields k (device p) w) as (Hreg & Hh & _ & Ho & _).
  destruct (exec_global k (device p) desc w) as [o w'].
  injection Hexec as -> _ _ ->.
  inversion Hr as [r' Hg Heq | e' Hg He Heq | Hg He Heq]; subst.
  - rewrite Hh, lookup_insert_eq in Hg. simpl in Hg. rewrite lookup_empty in Hg.
    discriminate.
  - cbn [registry heap emit with_heap with_next_obj].
    rewrite Ho in Hcr |- *. rewrite Hreg, outer_set_eq, Hh, !lookup_insert_eq. simpl.
    rewrite insert_empty.
    split; [reflexivity|]. split; [reflexivity|]. split; [reflexivity|]. exact Hcr.
Qed.

(** C2.  In a run of the program, a live device [d] has a cache of some
    kind registered that holds the entries [c].  When the device's lost
    signal fires, a line reporting [size c] cleared entries is logged, the
    cache is emptied, and no cache of any kind is registered for the device
    any more.  From then on the emptied cache stays empty, and whenever the
    microtask queue is empty no cache is registered for the device.  A global
    request to the device after the loss calls the creation function, and
    the resource it returns is none of those the old cache held; it is
    stored alone in a cache that is not the old one. *)
Theorem device_loss_eviction (k : GlobalKind) (d a : nat)
    (c : gmap string Resource) (w : World) :
  reachable w -> d ∉ lost w ->
  outer k (registry w) !! d = Some a -> heap w !! a = Some c ->
  let w1 := device_lost d w in
  (exists dev evs, dev_obj dev = d /\ trace w1 = (trace w ++ evs)%list /\
     EvLog (LogCleared k (size c) (dev_instanceId dev)) ∈ evs) /\
  heap w1 !! a = Some ∅ /\
  (forall k', outer k' (registry w1) !! d = None /\ cache_view k' d w1 = ∅) /\
  (forall w2, steps w1 w2 ->
     heap w2 !! a = Some ∅ /\
     (microtasks w2 = [] ->
      forall k', outer k' (registry w2) !! d = None /\ cache_view k' d w2 = ∅)) /\
  (forall p k' desc cs ctx r p2 ctx2 w2,
     dev_obj (device p) = d ->
     exec p (global_call k' desc) cs ctx w1 = (Return (RResource r), p2, ctx2, w2) ->
     (forall key r0, c !! key = Some r0 -> res_obj r <> res_obj r0) /\
     creations (trace w2) = (creations (trace w1) ++ [(device p, KGlobal k', desc)])%list /\
     exists a', a' <> a /\ outer k' (registry w2) !! d = Some a' /\
       heap w2 !! a' = Some {[globalResourceHash desc := r]} /\
       heap w2 !! a = Some ∅).
Proof.
  intros Hreach Hlive Hreg Hheap w1.
  pose proof (reachable_inv w Hreach) as Hinv.
  destruct (device_lost_evicts k d a c w Hinv Hlive Hreg Hheap)
    as (Hlog & Hempty & Hunreg & Hlost & Hquiet & Hret).
  fold w1 in Hlog, Hempty, Hunreg, Hlost, Hquiet, Hret.
  assert (Hsteps : steps w w1).
  { eapply steps_next; [eapply steps_one; apply (step_resolve_lost d w)|].
    apply step_run_microtasks. }
  assert (Hinv1 : world_inv w1) by (eapply world_inv_steps; eassumption).
  assert (Hview : forall w' k', outer k' (registry w') !! d = None ->
            outer k' (registry w') !! d = None /\ cache_view k' d w' = ∅).
  { intros w' k' H. split; [exact H|]. unfold cache_view. rewrite H. reflexivity. }
  split; [exact Hlog|]. split; [exact Hempty|].
  split; [intros k'; apply Hview, Hunreg|].
  split.
  { intros w2 Hsteps2.
    destruct (steps_retired w1 w2 a Hinv1 Hsteps2 Hret) as [Hh _].
    split; [rewrite Hh; exact Hempty|].
    intros Hm k'. apply Hview. apply lost_device_unregistered.
    - eapply world_inv_steps; eassumption.
    - eapply steps_lost; eassumption.
    - exact Hm. }
  intros p k' desc cs ctx r p2 ctx2 w2 Hd Hexec.
  pose proof (Hunreg k') as Hnone. rewrite <- Hd in Hnone.
  destruct (exec_global_unregistered _ _ _ _ _ _ _ _ _ _ Hnone Hexec)
    as (Hr & Hreg2 & Hheap2 & Hcr).
  split.
  { intros key r0 Hr0. pose proof (inv_obj w Hinv _ _ _ _ Hheap Hr0) as Hold.
    pose proof (steps_next_obj _ _ Hsteps) as Hmono. rewrite Hr. simpl. lia. }
  split; [exact Hcr|].
  destruct Hret as [Hlt Hnp].
  exists (next_addr w1). split; [lia|]. rewrite <- Hd. split; [exact Hreg2|].
  split; [exact Hheap2|].
  assert (Hstep2 : step w1 w2).
  { pose proof (step_exec p (global_call k' desc) cs ctx w1) as Hs.
    rewrite Hexec in Hs. exact Hs. }
  destruct (step_retired w1 w2 a Hinv1 Hstep2 (conj Hlt Hnp)) as [Hh _].
  rewrite Hh. exact Hempty.
Qed.

(** ** Contexts built by exec *)

Lemma local_resources_ensure ctx :
  local_resources (ensure_fields ctx) = local_resources ctx.
Proof. unfold local_resources. rewrite !local_map_ensure. reflexivity. Qed.

Lemma local_resources_add k key r ctx :
  local_resources (set_local_map k (local_map k ctx ++ [(key, r)])%list ctx)
    ≡ₚ r :: local_resources ctx.
Proof.
  unfold local_resources. destruct ctx as [c f b g t q].
  set (B := map snd (default [] b)). set (G := map snd (default [] g)).
  set (T := map snd (default [] t)).
  destruct k; unfold local_map, set_local_map;
    cbn [bindGroups buffers textures default from_option]; unfold id;
    rewrite map_app; cbn [map snd]; fold B G T.
  - rewrite <- app_assoc. cbn [app]. symmetry. apply Permutation_middle.
  - rewrite <- !app_assoc. cbn [app]. symmetry.
    rewrite !(app_assoc G B). apply Permutation_middle.
  - rewrite !app_assoc. symmetry. apply Permutation_cons_append.
Qed.


Lemma ctx_wf_exec_local k dev d fiber ctx w o ctx' w' :
  ctx_wf w ctx ->
  exec_local k dev d fiber ctx w = (o, ctx', w') -> ctx_wf w' ctx'.
Proof.
  intros [Hnd Hb] H. pose proof (exec_local_run k dev d fiber ctx w) as Hr.
  rewrite H in Hr. inversion Hr as [r' Hg Heq | e Hg _ Heq | Hg _ Heq]; subst.
  - split; assumption.
  - split; assumption.
  - rewrite (set_field_new _ _ _ Hg).
    pose proof (local_resources_add k (fst (localResourceHash d dev))
                  (hashed (next_obj w)) ctx) as Hp.
    split.
    + rewrite Hp. cbn [map]. apply NoDup_cons. split; [|exact Hnd].
      intros Hin. apply list_elem_of_fmap in Hin as (r0 & Heq & Hin).
      rewrite Forall_forall in Hb. apply Hb in Hin. simpl in Heq. lia.
    + rewrite Hp. apply Forall_cons. split; [simpl; lia|].
      eapply Forall_impl; [exact Hb|]. simpl. intros; lia.
Qed.

Lemma ctx_wf_exec_local_call p k d cs ctx w o p1 ctx1 w1 :
  ctx_wf w ctx ->
  exec p (local_call k d) cs ctx w = (o, p1, ctx1, w1) -> ctx_wf w1 ctx1.
Proof.
  intros Hwf. rewrite exec_local_call.
  destruct (exec_local k (device p) d _ (ensure_fields ctx) w) as [[o' c'] w'] eqn:E.
  intros [= _ _ <- <-]. eapply ctx_wf_exec_local; [|exact E].
  unfold ctx_wf. rewrite local_resources_ensure. exact Hwf.
Qed.

Lemma ctx_wf_later w w' ctx ctx' :
  local_resources ctx' = local_resources ctx -> next_obj w <= next_obj w' ->
  ctx_wf w ctx -> ctx_wf w' ctx'.
Proof.
  intros Hl Ho [Hnd Hb]. unfold ctx_wf. rewrite Hl. split; [exact Hnd|].
  eapply Forall_impl; [exact Hb|]. simpl. intros; lia.
Qed.

(** Whatever is asked of the plugin on a context, and whatever happens in
    the world meanwhile, the context stays well formed. *)
Lemma ctx_wf_exec p call cs ctx w :
  ctx_wf w ctx ->
  ctx_wf (snd (exec p call cs ctx w)) (snd (fst (exec p call cs ctx w))).
Proof.
  intros Hwf.
  pose proof (step_next_obj _ _ (step_exec p call cs ctx w)) as Hmono.
  assert (Hl : forall k d,
    ctx_wf (snd (exec p (local_call k d) cs ctx w))
           (snd (fst (exec p (local_call k d) cs ctx w)))).
  { intros k d.
    destruct (exec p (local_call k d) cs ctx w) as [[[o p1] ctx1] w1] eqn:E.
    eapply ctx_wf_exec_local_call; [exact Hwf | exact E]. }
  assert (Hg : forall k d,
    ctx_wf (snd (exec p (global_call k d) cs ctx w))
           (snd (fst (exec p (global_call k d) cs ctx w)))).
  { intros k d.
    pose proof (step_next_obj _ _ (step_exec p (global_call k d) cs ctx w)) as Hm.
    revert Hm. rewrite exec_global_call.
    destruct (exec_global k (device p) d w) as [o w']. cbn [fst snd]. intros Hm.
    eapply ctx_wf_later; [apply local_resources_ensure | exact Hm | exact Hwf]. }
  destruct call as [d|d|d|d|d|d|d|d|d|f deps|a|eff deps|].
  - exact (Hg ShaderModule d).
  - exact (Hg RenderPipeline d).
  - exact (Hg ComputePipeline d).
  - exact (Hg BindGroupLayout d).
  - exact (Hg PipelineLayout d).
  - exact (Hl Buffer d).
  - exact (Hl Texture d).
  - exact (Hl BindGroup d).
  - exact (Hg Sampler d).
  - revert Hmono. unfold exec, exec_pushFrame. destruct deps as [deps|]; cbn [fst snd];
      intros Hmono; (eapply ctx_wf_later; [|exact Hmono | exact Hwf]);
      destruct ctx as [? ? [?|] [?|] [?|] ?]; reflexivity.
  - eapply ctx_wf_later; [apply local_resources_ensure | exact Hmono | exact Hwf].
  - revert Hmono. unfold exec, exec_queueEffect.
    destruct (negb (isSameDependencies_with_cached _ _)); cbn [fst snd];
      intros Hmono; (eapply ctx_wf_later; [|exact Hmono | exact Hwf]);
      destruct ctx as [? ? [?|] [?|] [?|] ?]; reflexivity.
  - eapply ctx_wf_later; [apply local_resources_ensure | exact Hmono | exact Hwf].
Qed.

Lemma ctx_wf_steps w w' ctx : ctx_wf w ctx -> steps w w' -> ctx_wf w' ctx.
Proof.
  intros Hwf Hsteps. eapply ctx_wf_later; [reflexivity | | exact Hwf].
  apply steps_next_obj. exact Hsteps.
Qed.

(** What a request does to the resources its context holds: nothing, or one
    new object is added. *)
Lemma exec_local_resources p call cs ctx w :
  let ctx' := snd (fst (exec p call cs ctx w)) in
  let w' := snd (exec p call cs ctx w) in
  next_obj w <= next_obj w' /\
  (local_resources ctx' = local_resources ctx \/
   (local_resources ctx' ≡ₚ hashed (next_obj w) :: local_resources ctx /\
    next_obj w < next_obj w')).
Proof.
  intros ctx' w'.
  pose proof (step_next_obj _ _ (step_exec p call cs ctx w)) as Hmono. fold w' in Hmono.
  split; [exact Hmono|].
  assert (Hl : forall k d,
    let c1 := snd (fst (exec p (local_call k d) cs ctx w)) in
    let w1 := snd (exec p (local_call k d) cs ctx w) in
    local_resources c1 = local_resources ctx \/
    (local_resources c1 ≡ₚ hashed (next_obj w) :: local_resources ctx /\
     next_obj w < next_obj w1)).
  { intros k d. cbv zeta. rewrite exec_local_call.
    pose proof (exec_local_run k (device p) d (stringHash (join_callSite cs))
                  (ensure_fields ctx) w) as Hr.
    destruct (exec_local k (device p) d _ (ensure_fields ctx) w) as [[o c'] w0].
    cbn [fst snd].
    inversion Hr as [r' Hg Heq | e Hg _ Heq | Hg _ Heq]; subst.
    - left. apply local_resources_ensure.
    - left. apply local_resources_ensure.
    - right. rewrite (set_field_new _ _ _ Hg), local_resources_add,
        local_resources_ensure. split; [reflexivity | simpl; lia]. }
  assert (Hg : forall k d,
    local_resources (snd (fst (exec p (global_call k d) cs ctx w))) = local_resources ctx).
  { intros k d. rewrite exec_global_call.
    destruct (exec_global k (device p) d w) as [o w0]. apply local_resources_ensure. }
  unfold ctx', w'.
  destruct call as [d|d|d|d|d|d|d|d|d|f deps|a|eff deps|].
  - left. exact (Hg ShaderModule d).
  - left. exact (Hg RenderPipeline d).
  - left. exact (Hg ComputePipeline d).
  - left. exact (Hg BindGroupLayout d).
  - left. exact (Hg PipelineLayout d).
  - exact (Hl Buffer d).
  - exact (Hl Texture d).
  - exact (Hl BindGroup d).
  - left. exact (Hg Sampler d).
  - left. unfold exec, exec_pushFrame. destruct deps as [deps|]; cbn [fst snd];
      destruct ctx as [? ? [?|] [?|] [?|] ?]; reflexivity.
  - left. apply local_resources_ensure.
  - left. unfold exec, exec_queueEffect.
    destruct (negb (isSameDependencies_with_cached _ _)); cbn [fst snd];
      destruct ctx as [? ? [?|] [?|] [?|] ?]; reflexivity.
  - left. apply local_resources_ensure.
Qed.

(** A request on one of two sibling contexts leaves them siblings. *)
Lemma siblings_wf_exec p call cs c1 c2 w :
  siblings_wf w c1 c2 ->
  siblings_wf (snd (exec p call cs c1 w)) (snd (fst (exec p call cs c1 w))) c2.
Proof.
  intros [Hnd Hb].
  destruct (exec_local_resources p call cs c1 w) as (Hmono & [Heq | [Hperm Hlt]]).
  - unfold siblings_wf. rewrite Heq. split; [exact Hnd|].
    eapply Forall_impl; [exact Hb|]. simpl. intros; lia.
  - unfold siblings_wf. rewrite Hperm. cbn [app map]. split.
    + apply NoDup_cons. split; [|exact Hnd].
      intros Hin. apply list_elem_of_fmap in Hin as (r0 & Heq & Hin).
      rewrite Forall_forall in Hb. apply Hb in Hin. simpl in Heq. lia.
    + apply Forall_cons. split; [simpl; lia|].
      eapply Forall_impl; [exact Hb|]. simpl. intros; lia.
Qed.

Lemma siblings_wf_sym w c1 c2 : siblings_wf w c1 c2 -> siblings_wf w c2 c1.
Proof.
  intros [Hnd Hb]. unfold siblings_wf.
  rewrite (Permutation_app_comm (local_resources c2)). split; assumption.
Qed.

Lemma siblings_wf_fresh w : siblings_wf w fresh_ctx fresh_ctx.
Proof. split; constructor. Qed.

Lemma ctx_wf_fresh w : ctx_wf w fresh_ctx.
Proof. split; [constructor | constructor]. Qed.











(** ** Actions *)

(** The action branch hands back the function and does nothing else. *)
Lemma exec_action p a cs ctx w :
  exec p (Action a) cs ctx w = (Return (RThunk a), p, ensure_fields ctx, w).
Proof. reflexivity. Qed.

(** Calling that function makes a pending promise and queues the wrapper;
    the action is not run. *)
Lemma call_thunk_spec a p w :
  let token := fst (fst (call_thunk a p w)) in
  let p1 := snd (fst (call_thunk a p w)) in
  let w1 := snd (call_thunk a p w) in
  token = next_future w /\
  futures w1 !! token = Some Pending /\
  actionContext p1 = (actionContext p ++ [{| wr_action := a; wr_future := token |}])%list /\
  trace w1 = trace w.
Proof. simpl. rewrite lookup_insert_eq. repeat split; reflexivity. Qed.

(** A settled promise does not change. *)
Lemma settle_settled f s w :
  futures w !! f <> Some Pending -> settle f s w = w.
Proof.
  intros H. unfold settle. destruct (futures w !! f) as [[| |]|]; try reflexivity.
  contradiction.
Qed.

(** The wrapper of an action whose promise fulfils or rejects settles the
    pending promise accordingly, with one call of [resolve] or [reject]. *)
Lemma run_wrapper_settles wr bag w :
  futures w !! wr_future wr = Some Pending ->
  match action_outcome (wr_action wr) bag with
  | Fulfils v =>
      futures (run_wrapper wr bag w) !! wr_future wr = Some (Resolved v) /\
      trace (run_wrapper wr bag w)
        = (trace w ++ [EvRunAction (wr_action wr); EvResolve (wr_future wr) v])%list
  | Rejects e =>
      futures (run_wrapper wr bag w) !! wr_future wr = Some (Rejected e) /\
      trace (run_wrapper wr bag w)
        = (trace w ++ [EvRunAction (wr_action wr); EvReject (wr_future wr) e])%list
  | ThrowsSync _ | NeverSettles =>
      futures (run_wrapper wr bag w) !! wr_future wr = Some Pending /\
      trace (run_wrapper wr bag w) = (trace w ++ [EvRunAction (wr_action wr)])%list
  end.
Proof.
  intros Hp. unfold run_wrapper, promise_resolve, promise_reject, settle.
  destruct (action_outcome (wr_action wr) bag); cbn [futures emit]; rewrite ?Hp;
    cbn [futures trace with_futures emit]; rewrite ?lookup_insert_eq, <- ?app_assoc;
    split; try reflexivity; assumption.
Qed.

(** Running a wrapper again leaves a settled promise as it is. *)
Lemma run_wrapper_settled wr bag w :
  futures w !! wr_future wr <> Some Pending ->
  futures (run_wrapper wr bag w) = futures w.
Proof.
  intros H. unfold run_wrapper, promise_resolve, promise_reject.
  destruct (action_outcome (wr_action wr) bag); try reflexivity;
    rewrite settle_settled by exact H; reflexivity.
Qed.

(** C8.  An action that throws when it is called, before it has returned a
    promise: the wrapper calls neither [resolve] nor [reject], and the
    promise handed to the caller stays pending. *)
Theorem action_sync_throw_leaves_future_pending (a : nat) (p : Plugin) (w : World)
    (bag : Bag) (e : string) :
  action_outcome a bag = ThrowsSync e ->
  let token := fst (fst (call_thunk a p w)) in
  let w1 := snd (call_thunk a p w) in
  let w2 := run_wrapper {| wr_action := a; wr_future := token |} bag w1 in
  futures w1 !! token = Some Pending /\
  futures w2 !! token = Some Pending /\
  trace w2 = (trace w ++ [EvRunAction a])%list.
Proof.
  intros Hout token w1 w2.
  destruct (call_thunk_spec a p w) as (Htok & Hpend & _ & Htr).
  fold token w1 in Htok, Hpend, Htr.
  pose proof (run_wrapper_settles {| wr_action := a; wr_future := token |} bag w1 Hpend) as H.
  cbn [wr_action wr_future] in H. rewrite Hout in H. fold w2 in H.
  destruct H as [H1 H2]. rewrite Htr in H2. auto.
Qed.

(** * Further properties *)

(** ** Dependency comparison on two arrays *)

Lemma isSameDependencies_defined (p n : DepArray) :
  isSameDependencies (Some p) (Some n) = true <->
  arr_ref n = arr_ref p \/
  (length (arr_items p) = length (arr_items n) /\
   pairwise_strict_eq (arr_items p) (arr_items n)).
Proof.
  unfold isSameDependencies.
  destruct (Nat.eqb (arr_ref n) (arr_ref p)) eqn:Eref.
  - apply Nat.eqb_eq in Eref. split; [intros _; left; exact Eref | reflexivity].
  - apply Nat.eqb_neq in Eref.
    destruct (Nat.eqb (length (arr_items p)) (length (arr_items n))) eqn:Elen; simpl.
    + apply Nat.eqb_eq in Elen. rewrite (compare_items_pairwise _ _ Elen). split.
      * intros H. right. split; assumption.
      * intros [H | [_ H]]; [contradiction | exact H].
    + apply Nat.eqb_neq in Elen. split; [discriminate|].
      intros [H | [H _]]; contradiction.
Qed.

Lemma strict_eq_sym (a b : JsVal) : strict_eq a b = strict_eq b a.
Proof.
  destruct a, b; simpl; try reflexivity.
  - destruct b, b0; reflexivity.
  - apply Z.eqb_sym.
  - apply String.eqb_sym.
  - apply Nat.eqb_sym.
Qed.

Lemma pairwise_strict_eq_sym (a b : list JsVal) :
  pairwise_strict_eq a b -> pairwise_strict_eq b a.
Proof.
  unfold pairwise_strict_eq. intros H. induction H as [|x y a b Hxy _ IH]; constructor.
  - rewrite strict_eq_sym. exact Hxy.
  - exact IH.
Qed.

Lemma strict_eq_NaN_l (x : JsVal) : strict_eq JNaN x = false.
Proof. destruct x; reflexivity. Qed.

Lemma pairwise_strict_eq_no_NaN (a b : list JsVal) :
  pairwise_strict_eq a b -> ~ In JNaN a.
Proof.
  unfold pairwise_strict_eq. intros H. induction H as [|x y a b Hxy _ IH]; [intros []|].
  intros [-> | Hin]; [|exact (IH Hin)].
  rewrite strict_eq_NaN_l in Hxy. discriminate.
Qed.

Lemma isSame_swap (a b : DepArray) :
  isSameDependencies (Some a) (Some b) = isSameDependencies (Some b) (Some a).
Proof.
  apply Bool.eq_iff_eq_true. rewrite !isSameDependencies_defined. split.
  - intros [H | [Hl Hp]]; [left; congruence | right].
    split; [congruence | apply pairwise_strict_eq_sym; exact Hp].
  - intros [H | [Hl Hp]]; [left; congruence | right].
    split; [congruence | apply pairwise_strict_eq_sym; exact Hp].
Qed.

(** X1.  On two defined arrays the comparison gives the same answer in
    either argument order, so it does not matter that the [pushFrame] branch
    passes the new array first and the [queueEffect] branch passes it
    second. *)
Theorem isSameDependencies_defined_sym (a b : DepArray) :
  isSameDependencies (Some a) (Some b) = isSameDependencies (Some b) (Some a).
Proof. apply isSame_swap. Qed.

(** X2.  An array that holds [NaN] is never the same as another array
    object, whichever side it is on and whatever the other array holds: only
    the very same array object compares as same. *)
Theorem isSameDependencies_NaN (a b : DepArray) :
  In JNaN (arr_items a) -> arr_ref a <> arr_ref b ->
  isSameDependencies (Some a) (Some b) = false /\
  isSameDependencies (Some b) (Some a) = false /\
  isSameDependencies (Some a) (Some a) = true.
Proof.
  intros Hnan Hne.
  assert (H1 : isSameDependencies (Some a) (Some b) = false).
  { apply Bool.not_true_is_false. rewrite isSameDependencies_defined.
    intros [H | [_ Hp]]; [congruence|].
    exact (pairwise_strict_eq_no_NaN _ _ Hp Hnan). }
  split; [exact H1|]. split.
  - rewrite <- isSame_swap. exact H1.
  - apply isSameDependencies_defined. left. reflexivity.
Qed.

(** ** More on frame callbacks and queue effects *)

Lemma exec_pushFrame_None p frame cs ctx w :
  exec p (PushFrame frame None) cs ctx w =
    (Return (RFrame {| valid := true; callback := frame; enabled := true; kind := Loop |}),
     with_rendererContext
       (<[join_callSite cs :=
            {| valid := true; callback := frame; enabled := true; kind := Loop |}]>
          (rendererContext p)) p,
     ensure_fields ctx, w).
Proof. reflexivity. Qed.

(** The two arrays are the same array object, or have equal length and
    pairwise [===] items. *)
Lemma enabled_after (deps deps2 : DepArray) :
  negb (isSameDependencies (Some deps2) (Some deps)) = false <->
  arr_ref deps2 = arr_ref deps \/
  (length (arr_items deps2) = length (arr_items deps) /\
   pairwise_strict_eq (arr_items deps2) (arr_items deps)).
Proof.
  rewrite Bool.negb_false_iff, isSameDependencies_defined. split.
  - intros [H | H]; [left; congruence | right; exact H].
  - intros [H | H]; [left; congruence | right; exact H].
Qed.

(** X3.  Two registrations with dependencies at one call site, one after
    the other: the second entry is disabled exactly when its array is the
    array object of the first or has the same length and pairwise [===]
    items.  So two empty arrays always disable the second registration. *)
Theorem pushFrame_second_registration (p : Plugin) (cs : list string) (ctx : Ctx)
    (w : World) (frame frame2 : nat) (deps deps2 : DepArray) :
  let first := exec p (PushFrame frame (Some deps)) cs ctx w in
  exists f2 p2 ctx2,
    exec (snd (fst (fst first))) (PushFrame frame2 (Some deps2)) cs (snd (fst first)) (snd first)
      = (Return (RFrame f2), p2, ctx2, w) /\
    (enabled f2 = false <->
     arr_ref deps2 = arr_ref deps \/
     (length (arr_items deps2) = length (arr_items deps) /\
      pairwise_strict_eq (arr_items deps2) (arr_items deps))) /\
    (arr_items deps = [] -> arr_items deps2 = [] -> enabled f2 = false).
Proof.
  intros first. unfold first.
  rewrite (exec_pushFrame_Some p frame deps cs ctx w). cbv zeta. cbn [fst snd].
  rewrite exec_pushFrame_Some. cbv zeta. rewrite table_get_recorded.
  cbn [isSameDependencies_with_last slot_truthy negb].
  eexists _, _, _. split; [reflexivity|]. cbn [enabled]. rewrite orb_false_r.
  split; [apply enabled_after|].
  intros H1 H2. apply enabled_after. right. rewrite H1, H2. split; [reflexivity | constructor].
Qed.

(** X4.  A registration without dependencies in between does not reset the
    remembered dependencies: after a registration with [deps], then one
    without dependencies at the same call site (which replaces the entry by
    an enabled loop entry), a registration with [deps3] is compared with
    [deps] and is disabled when they are the same. *)
Theorem pushFrame_loop_keeps_deps (p : Plugin) (cs : list string) (ctx : Ctx)
    (w : World) (frame frame2 frame3 : nat) (deps deps3 : DepArray) :
  let first := exec p (PushFrame frame (Some deps)) cs ctx w in
  let second :=
    exec (snd (fst (fst first))) (PushFrame frame2 None) cs (snd (fst first)) (snd first) in
  let third :=
    exec (snd (fst (fst second))) (PushFrame frame3 (Some deps3)) cs
      (snd (fst second)) (snd second) in
  rendererContext (snd (fst (fst second))) !! join_callSite cs
    = Some {| valid := true; callback := frame2; enabled := true; kind := Loop |} /\
  default ∅ (frameDeps (snd (fst second))) !! join_callSite cs = Some deps /\
  exists f3,
    fst (fst (fst third)) = Return (RFrame f3) /\
    rendererContext (snd (fst (fst third))) !! join_callSite cs = Some f3 /\
    kind f3 = Once /\
    enabled f3 = negb (isSameDependencies (Some deps3) (Some deps)) /\
    (enabled f3 = false <->
     arr_ref deps3 = arr_ref deps \/
     (length (arr_items deps3) = length (arr_items deps) /\
      pairwise_strict_eq (arr_items deps3) (arr_items deps))).
Proof.
  intros first second third. unfold third, second, first.
  rewrite (exec_pushFrame_Some p frame deps cs ctx w). cbv zeta. cbn [fst snd].
  rewrite (exec_pushFrame_None _ frame2). cbn [fst snd].
  rewrite exec_pushFrame_Some. cbv zeta. cbn [fst snd].
  rewrite ensure_record_frameDeps, ensure_fields_idem, table_get_recorded.
  cbn [isSameDependencies_with_last slot_truthy negb].
  split; [apply lookup_insert_eq|]. split; [apply record_frameDeps_lookup|].
  eexists. split; [reflexivity|]. split; [apply lookup_insert_eq|].
  split; [reflexivity|]. cbn [enabled]. rewrite orb_false_r.
  split; [reflexivity | apply enabled_after].
Qed.

Lemma ensure_fields_queueEffectsDeps ctx :
  default ∅ (queueEffectsDeps (ensure_fields ctx)) = default ∅ (queueEffectsDeps ctx).
Proof. destruct ctx as [? ? ? ? ? [?|]]; reflexivity. Qed.

Lemma ensure_record_queueEffectsDeps key deps ctx :
  ensure_fields (record_queueEffectsDeps key deps ctx)
    = record_queueEffectsDeps key deps (ensure_fields ctx).
Proof. destruct ctx as [[?|] [?|] [?|] [?|] [?|] [?|]]; reflexivity. Qed.

Lemma exec_queueEffect_call p effect deps cs ctx w :
  exec p (QueueEffect effect deps) cs ctx w =
    let key := join_callSite cs in
    if negb (isSameDependencies_with_cached
               (table_get (default ∅ (queueEffectsDeps ctx)) key) deps)
    then (Return RUndefined, p, record_queueEffectsDeps key deps (ensure_fields ctx),
          emit (EvQueueEffect effect (device p))
            (emit (EvLog (LogQueueEffect (stringHash key))) w))
    else (Return RUndefined, p, ensure_fields ctx, w).
Proof.
  unfold exec, exec_queueEffect. rewrite ensure_fields_queueEffectsDeps. cbv zeta.
  destruct (negb (isSameDependencies_with_cached _ _)); reflexivity.
Qed.

(** X5.  A queue effect at a call site where the table answers
    [undefined] (nothing is recorded, and the key is no name the table
    inherits) runs: the effect is called with the device and its
    dependencies are recorded.  The next request at the call site, whatever
    effect function it carries, does nothing at all when its dependencies
    are the same array object or have the same length and pairwise [===]
    items, and otherwise calls its effect and records its dependencies. *)
Theorem queueEffect_runs_when_deps_change (p : Plugin) (cs : list string) (ctx : Ctx)
    (w : World) (effect effect2 : nat) (deps deps2 : DepArray) :
  table_get (default ∅ (queueEffectsDeps ctx)) (join_callSite cs) = SUndefined ->
  let key := join_callSite cs in
  let ctx1 := record_queueEffectsDeps key deps (ensure_fields ctx) in
  let w1 := emit (EvQueueEffect effect (device p))
              (emit (EvLog (LogQueueEffect (stringHash key))) w) in
  let same :=
    arr_ref deps2 = arr_ref deps \/
    (length (arr_items deps) = length (arr_items deps2) /\
     pairwise_strict_eq (arr_items deps) (arr_items deps2)) in
  exec p (QueueEffect effect deps) cs ctx w = (Return RUndefined, p, ctx1, w1) /\
  table_get (default ∅ (queueEffectsDeps ctx1)) key = SDeps deps /\
  (same ->
   exec p (QueueEffect effect2 deps2) cs ctx1 w1 = (Return RUndefined, p, ctx1, w1)) /\
  (~ same ->
   exec p (QueueEffect effect2 deps2) cs ctx1 w1
     = (Return RUndefined, p, record_queueEffectsDeps key deps2 ctx1,
        emit (EvQueueEffect effect2 (device p))
          (emit (EvLog (LogQueueEffect (stringHash key))) w1))).
Proof.
  intros Hnone key ctx1 w1 same.
  assert (Hens : ensure_fields ctx1 = ctx1).
  { unfold ctx1. rewrite ensure_record_queueEffectsDeps, ensure_fields_idem. reflexivity. }
  assert (Hlook : table_get (default ∅ (queueEffectsDeps ctx1)) key = SDeps deps)
    by (apply table_get_own, lookup_insert_eq).
  split.
  { rewrite exec_queueEffect_call. cbv zeta. fold key. unfold key at 1. rewrite Hnone.
    reflexivity. }
  split; [exact Hlook|].
  split.
  - intros Hsame. rewrite exec_queueEffect_call. cbv zeta. fold key. rewrite Hlook, Hens.
    cbn [isSameDependencies_with_cached].
    apply isSameDependencies_defined in Hsame. rewrite Hsame. reflexivity.
  - intros Hdiff. rewrite exec_queueEffect_call. cbv zeta. fold key. rewrite Hlook, Hens.
    cbn [isSameDependencies_with_cached].
    destruct (isSameDependencies (Some deps) (Some deps2)) eqn:E; [|reflexivity].
    apply isSameDependencies_defined in E. contradiction.
Qed.

(** X6.  A registration at a call site whose key is not [__proto__]
    touches the slot of its own call site only: what the frame table
    answers at every other key, the entries of every other call site, the
    queue-effect table, the local caches, the action queue and the world
    are left as they were. *)
Theorem pushFrame_touches_own_slot (p : Plugin) (cs : list string) (ctx : Ctx)
    (w : World) (frame : nat) (deps : option DepArray) (key' : string) :
  join_callSite cs <> "__proto__" ->
  key' <> join_callSite cs ->
  let res := exec p (PushFrame frame deps) cs ctx w in
  let p' := snd (fst (fst res)) in
  let ctx' := snd (fst res) in
  rendererContext p' !! key' = rendererContext p !! key' /\
  table_get (default ∅ (frameDeps ctx')) key' = table_get (default ∅ (frameDeps ctx)) key' /\
  default ∅ (frameDeps ctx') !! key' = default ∅ (frameDeps ctx) !! key' /\
  default ∅ (queueEffectsDeps ctx') = default ∅ (queueEffectsDeps ctx) /\
  (forall k, local_map k ctx' = local_map k ctx) /\
  actionContext p' = actionContext p /\ device p' = device p /\
  snd res = w.
Proof.
  intros Hproto Hne res p' ctx'. unfold p', ctx', res. destruct deps as [deps|].
  - rewrite exec_pushFrame_Some. cbv zeta. cbn [fst snd].
    split; [apply lookup_insert_ne; congruence|].
    split.
    { unfold record_frameDeps. cbn [frameDeps default from_option]. unfold id.
      rewrite table_get_insert_ne by assumption.
      rewrite ensure_fields_frameDeps. reflexivity. }
    split.
    { unfold record_frameDeps. cbn [frameDeps default from_option]. unfold id.
      rewrite lookup_insert_ne by congruence. rewrite ensure_fields_frameDeps. reflexivity. }
    split; [apply ensure_fields_queueEffectsDeps|].
    split; [intros k; destruct ctx as [? ? [?|] [?|] [?|] ?], k; reflexivity|].
    repeat split; reflexivity.
  - rewrite exec_pushFrame_None. cbn [fst snd].
    split; [apply lookup_insert_ne; congruence|].
    split; [rewrite ensure_fields_frameDeps; reflexivity|].
    split; [rewrite ensure_fields_frameDeps; reflexivity|].
    split; [apply ensure_fields_queueEffectsDeps|].
    split; [intros k; apply local_map_ensure|].
    repeat split; reflexivity.
Qed.

(** ** More on actions *)

Lemma settle_other f s w t : t <> f -> futures (settle f s w) !! t = futures w !! t.
Proof.
  intros Hne. unfold settle. destruct (futures w !! f) as [[| |]|]; try reflexivity.
  simpl. apply lookup_insert_ne. congruence.
Qed.

(** Running a wrapper changes no promise but its own. *)
Lemma run_wrapper_other wr bag w t :
  t <> wr_future wr -> futures (run_wrapper wr bag w) !! t = futures w !! t.
Proof.
  intros Hne. unfold run_wrapper, promise_resolve, promise_reject.
  destruct (action_outcome (wr_action wr) bag); try reflexivity;
    rewrite settle_other by exact Hne; reflexivity.
Qed.

Lemma action_runs_app a (t1 t2 : list Event) :
  count_occ Nat.eq_dec (action_runs (t1 ++ t2)%list) a
  = count_occ Nat.eq_dec (action_runs t1) a + count_occ Nat.eq_dec (action_runs t2) a.
Proof. unfold action_runs. rewrite omap_app. apply count_occ_app. Qed.

(** X7.  Calling the functions that two action requests returned, one after
    the other: the two promises are different promises, both pending; the
    wrappers are queued in the order of the calls; and when the frame driver
    runs one wrapper, however its action ends, the other promise stays
    pending. *)
Theorem thunk_calls_are_independent (a1 a2 : nat) (p : Plugin) (w : World) :
  let c1 := call_thunk a1 p w in
  let t1 := fst (fst c1) in
  let c2 := call_thunk a2 (snd (fst c1)) (snd c1) in
  let t2 := fst (fst c2) in
  let w2 := snd c2 in
  let wr1 := {| wr_action := a1; wr_future := t1 |} in
  let wr2 := {| wr_action := a2; wr_future := t2 |} in
  t1 <> t2 /\
  actionContext (snd (fst c2)) = (actionContext p ++ [wr1; wr2])%list /\
  futures w2 !! t1 = Some Pending /\ futures w2 !! t2 = Some Pending /\
  trace w2 = trace w /\
  (forall bag, futures (run_wrapper wr1 bag w2) !! t2 = Some Pending) /\
  (forall bag, futures (run_wrapper wr2 bag w2) !! t1 = Some Pending).
Proof.
  intros c1 t1 c2 t2 w2 wr1 wr2.
  assert (Hne : t1 <> t2) by (unfold t1, t2, c2, c1; simpl; lia).
  assert (H2 : futures w2 !! t2 = Some Pending) by apply lookup_insert_eq.
  assert (H1 : futures w2 !! t1 = Some Pending).
  { unfold w2, c2. cbn [snd call_thunk futures with_futures].
    rewrite lookup_insert_ne by (intros H; apply Hne; symmetry; exact H).
    apply lookup_insert_eq. }
  split; [exact Hne|]. split.
  { unfold c2, c1. cbn [fst snd call_thunk actionContext with_actionContext].
    rewrite <- app_assoc. reflexivity. }
  split; [exact H1|]. split; [exact H2|]. split; [reflexivity|]. split.
  - intros bag. rewrite run_wrapper_other; [exact H2 | exact (fun H => Hne (eq_sym H))].
  - intros bag. rewrite run_wrapper_other; [exact H1 | exact Hne].
Qed.

(** X8.  The first settlement stands.  When a wrapper whose promise is
    pending is run and its action's promise fulfils or rejects, and the
    wrapper is then run again (nothing removes it from the queue), the
    action is called a second time but the promise keeps the state the first
    run gave it, however the second call ends. *)
Theorem first_settlement_stands (wr : Wrapper) (bag1 bag2 : Bag) (w : World) :
  futures w !! wr_future wr = Some Pending ->
  (exists v, action_outcome (wr_action wr) bag1 = Fulfils v) \/
  (exists e, action_outcome (wr_action wr) bag1 = Rejects e) ->
  let runs t := count_occ Nat.eq_dec (action_runs t) (wr_action wr) in
  let w1 := run_wrapper wr bag1 w in
  let w2 := run_wrapper wr bag2 w1 in
  futures w1 !! wr_future wr =
    Some (match action_outcome (wr_action wr) bag1 with
          | Fulfils v => Resolved v
          | Rejects e => Rejected e
          | _ => Pending
          end) /\
  futures w2 = futures w1 /\
  runs (trace w2) = 2 + runs (trace w).
Proof.
  intros Hpend Hout runs w1 w2.
  pose proof (run_wrapper_settles wr bag1 w Hpend) as H1. fold w1 in H1.
  assert (Hset : futures w1 !! wr_future wr <> Some Pending /\
                 futures w1 !! wr_future wr =
                   Some (match action_outcome (wr_action wr) bag1 with
                         | Fulfils v => Resolved v
                         | Rejects e => Rejected e
                         | _ => Pending
                         end) /\
                 runs (trace w1) = 1 + runs (trace w)).
  { destruct Hout as [[v Hv] | [e He]]; [rewrite Hv in *| rewrite He in *];
      destruct H1 as [Hf Ht]; rewrite Hf, Ht; unfold runs; rewrite action_runs_app; cbn;
      (destruct (Nat.eq_dec (wr_action wr) (wr_action wr)); [|contradiction]);
      repeat split; try discriminate; lia. }
  destruct Hset as (Hnp & Hstate & Hruns1).
  split; [exact Hstate|]. split; [apply run_wrapper_settled; exact Hnp|].
  assert (Htr : exists evs, trace w2 = (trace w1 ++ EvRunAction (wr_action wr) :: evs)%list /\
                  runs evs = 0).
  { unfold w2, run_wrapper, promise_resolve, promise_reject, settle.
    destruct (action_outcome (wr_action wr) bag2);
      cbn [futures emit]; destruct (futures w1 !! wr_future wr) as [[| |]|];
      cbn [trace emit with_futures]; rewrite <- ?app_assoc;
      eexists; (split; [reflexivity|]); reflexivity. }
  destruct Htr as (evs & Htr & Hevs). unfold runs in *. rewrite Htr, action_runs_app. cbn.
  destruct (Nat.eq_dec (wr_action wr) (wr_action wr)); [|contradiction].
  fold (action_runs evs). rewrite Hevs, Hruns1. lia.
Qed.

(** ** More on fingerprints *)

Lemma set_field_overwrite {A} k (v1 v2 : A) o :
  set_field k v2 (set_field k v1 o) = set_field k v2 o.
Proof.
  induction o as [|[k' v'] o IH]; simpl.
  - rewrite String.eqb_refl. reflexivity.
  - destruct (String.eqb k k') eqn:E; simpl.
    + rewrite String.eqb_refl. reflexivity.
    + rewrite E, IH. reflexivity.
Qed.

(** X9.  What [localResourceHash] finds in the descriptor's [owningDevice]
    does not matter: a descriptor that carries any value there (the stamp of
    an earlier request to another device, or a value the caller wrote) gets
    the fingerprint, and is left in the state, that the descriptor without it
    gets; so a local request with it is the same request.  Every other
    property of the descriptor keeps its value. *)
Theorem localResourceHash_restamp (d : Descriptor) (v : Value) (owner : Device) :
  localResourceHash (object_assign1 d "owningDevice" v) owner = localResourceHash d owner /\
  (forall other : Device,
     localResourceHash (snd (localResourceHash d other)) owner = localResourceHash d owner) /\
  (forall k', k' <> "owningDevice" ->
     get_field k' (snd (localResourceHash d owner)) = get_field k' d) /\
  (forall p k cs ctx w, device p = owner ->
     exec p (local_call k (object_assign1 d "owningDevice" v)) cs ctx w
       = exec p (local_call k d) cs ctx w).
Proof.
  assert (H : forall v0, localResourceHash (object_assign1 d "owningDevice" v0) owner
                         = localResourceHash d owner).
  { intros v0. unfold localResourceHash, object_assign1.
    rewrite set_field_overwrite. reflexivity. }
  split; [apply H|]. split; [intros other; apply H|]. split.
  - intros k' Hk. unfold localResourceHash, object_assign1. cbn [snd].
    apply get_set_field_ne. congruence.
  - intros p k cs ctx w Hp. rewrite !exec_local_call. unfold exec_local.
    rewrite Hp, H. reflexivity.
Qed.

Lemma get_field_app_other {A} k f (x y : A) pre rest :
  k <> f -> get_field k (pre ++ (f, x) :: rest)%list = get_field k (pre ++ (f, y) :: rest)%list.
Proof.
  intros Hne. induction pre as [|[k' v'] pre IH]; simpl.
  - apply String.eqb_neq in Hne. rewrite Hne. reflexivity.
  - destruct (String.eqb k k'); [reflexivity | exact IH].
Qed.

(** [hash_view] on an object, with the views of its properties named. *)
Lemma hash_view_obj (o : list (string * Value)) :
  hash_view (VObj o) =
    (match get_field "instanceId" (map (fun kv => (fst kv, hash_view (snd kv))) o) with
     | Some p => snd p
     | None => VObj (map (fun kv => (fst kv, replaced (snd kv))) o)
     end,
     VObj (map (fun kv => (fst kv, replaced (snd kv))) o)).
Proof. cbn [hash_view]. rewrite map_map. reflexivity. Qed.

(** Two descriptors that hold, in the same property, handles with the same
    token have the same global fingerprint, wherever the property is and
    whatever else the handles hold. *)
Lemma globalResourceHash_handle_at (field : string) (h1 h2 : list (string * Value))
    (id : string) (pre rest : Descriptor) :
  field <> "instanceId" ->
  get_field "instanceId" h1 = Some (VStr id) ->
  get_field "instanceId" h2 = Some (VStr id) ->
  globalResourceHash (pre ++ (field, VObj h1) :: rest)%list
    = globalResourceHash (pre ++ (field, VObj h2) :: rest)%list.
Proof.
  intros Hf H1 H2. unfold globalResourceHash, hash. f_equal.
  change (fst (hash_view (VObj (pre ++ (field, VObj h1) :: rest)))
          = fst (hash_view (VObj (pre ++ (field, VObj h2) :: rest)))).
  rewrite !hash_view_obj. cbn [fst].
  rewrite !map_app. cbn [map fst snd].
  rewrite (replaced_handle h1 id H1), (replaced_handle h2 id H2).
  rewrite (get_field_app_other "instanceId" field
             (hash_view (VObj h1)) (hash_view (VObj h2)))
    by (intros Heq; apply Hf; symmetry; exact Heq).
  reflexivity.
Qed.

(** X10.  Two global requests whose descriptors differ only in what a
    resource handle held in one property, whichever one, holds besides its
    [instanceId] are one request: the second returns the resource the first
    returned and changes nothing. *)
Theorem global_request_shares_by_handle_token (p : Plugin) (k : GlobalKind)
    (field : string) (h1 h2 : list (string * Value)) (id : string)
    (pre rest : Descriptor) (cs : list string) (ctx : Ctx) (w : World)
    (r : Resource) (p1 : Plugin) (ctx1 : Ctx) (w1 : World) :
  field <> "instanceId" ->
  get_field "instanceId" h1 = Some (VStr id) ->
  get_field "instanceId" h2 = Some (VStr id) ->
  exec p (global_call k (pre ++ (field, VObj h1) :: rest)%list) cs ctx w
    = (Return (RResource r), p1, ctx1, w1) ->
  forall cs' ctx',
    exec p1 (global_call k (pre ++ (field, VObj h2) :: rest)%list) cs' ctx' w1
      = (Return (RResource r), p1, ensure_fields ctx', w1).
Proof.
  intros Hf H1 H2 Hexec cs' ctx'.
  destruct (exec_global_holds _ _ _ _ _ _ _ _ _ _ Hexec) as (-> & Hheld).
  apply exec_global_hit.
  rewrite <- (globalResourceHash_handle_at field h1 h2 id pre rest Hf H1 H2). exact Hheld.
Qed.

(** ** More on the global caches *)

(** An entry found in a cache after a global branch ran was there before,
    or is the entry the branch has just stored. *)
Lemma exec_global_entries k dev d w a c key r :
  heap (snd (exec_global k dev d w)) !! a = Some c -> c !! key = Some r ->
  (exists c0, heap w !! a = Some c0 /\ c0 !! key = Some r) \/
  (a = fst (cache_for k dev w) /\ key = globalResourceHash d /\
   r = hashed (next_obj w) /\
   cache_view k (dev_obj dev) w !! globalResourceHash d = None /\
   backend_error dev (KGlobal k) d = None).
Proof.
  pose proof (exec_global_run k dev d w) as Hr.
  destruct (cache_for_spec k dev w) as (_ & Hview & _ & _ & Hobj & _).
  assert (Hold : forall a0 c0 key0 r0,
    heap (snd (cache_for k dev w)) !! a0 = Some c0 -> c0 !! key0 = Some r0 ->
    exists c1, heap w !! a0 = Some c1 /\ c1 !! key0 = Some r0).
  { intros a0 c0 key0 r0. destruct (outer k (registry w) !! dev_obj dev) as [a1|] eqn:E.
    - rewrite (cache_for_registered _ _ _ _ E). cbn [snd]. intros H1 H2. eauto.
    - rewrite (cache_for_new _ _ _ E). cbn [snd].
      destruct (with_new_cache_fields k dev w) as (_ & -> & _).
      destruct (decide (next_addr w = a0)) as [<-|Hne].
      + rewrite lookup_insert_eq. intros [= <-]. rewrite lookup_empty. discriminate.
      + rewrite lookup_insert_ne by exact Hne. intros H1 H2. eauto. }
  destruct (exec_global k dev d w) as [o w']. cbn [snd].
  inversion Hr as [r' Hg Heq | e' Hg He Heq | Hg He Heq]; subst.
  - intros H1 H2. left. eapply Hold; eassumption.
  - cbn [heap emit]. intros H1 H2. left. eapply Hold; eassumption.
  - cbn [heap emit with_heap with_next_obj].
    destruct (decide (fst (cache_for k dev w) = a)) as [<-|Hne].
    + rewrite lookup_insert_eq. intros [= <-].
      destruct (decide (globalResourceHash d = key)) as [<-|Hk].
      * rewrite lookup_insert_eq. intros [= <-]. right.
        rewrite Hobj, <- Hview. auto.
      * rewrite lookup_insert_ne by exact Hk. intros H2. left.
        destruct (heap (snd (cache_for k dev w)) !! fst (cache_for k dev w)) as [c0|] eqn:Ec.
        -- eapply Hold; [exact Ec | exact H2].
        -- simpl in H2. rewrite lookup_empty in H2. discriminate.
    + rewrite lookup_insert_ne by exact Hne. intros H1 H2. left. eapply Hold; eassumption.
Qed.

Lemma heap_inj_step w w' : world_inv w -> heap_inj w -> step w w' -> heap_inj w'.
Proof.
  intros Hinv Hinj Hstep.
  apply step_cases in Hstep as [H|[(k & dev & d & ->)|[(d & ->)| ->]]].
  - destruct H as (_ & Hh & _). unfold heap_inj. rewrite Hh. exact Hinj.
  - intros a a' c c' key key' r r' H1 H2 H3 H4 Heq.
    destruct (exec_global_entries _ _ _ _ _ _ _ _ H1 H2)
      as [(c0 & Hc0 & Hr0) | (-> & -> & -> & _)];
      destruct (exec_global_entries _ _ _ _ _ _ _ _ H3 H4)
        as [(c1 & Hc1 & Hr1) | (-> & -> & -> & _)].
    + exact (Hinj _ _ _ _ _ _ _ _ Hc0 Hr0 Hc1 Hr1 Heq).
    + pose proof (inv_obj w Hinv _ _ _ _ Hc0 Hr0). simpl in Heq. lia.
    + pose proof (inv_obj w Hinv _ _ _ _ Hc1 Hr1). simpl in Heq. lia.
    + split; reflexivity.
  - destruct (resolve_lost_fields d w) as (_ & Hh & _). unfold heap_inj.
    rewrite Hh. exact Hinj.
  - intros a a' c c' key key' r r'. rewrite run_microtasks_drain, !drain_heap.
    cbn [heap with_microtasks].
    destruct (decide (a ∈ _)); [intros [= <-]; rewrite lookup_empty; discriminate|].
    destruct (decide (a' ∈ _)); [intros ? ? [= <-]; rewrite lookup_empty; discriminate|].
    apply Hinj.
Qed.

Lemma heap_inj_steps w w' : world_inv w -> heap_inj w -> steps w w' -> heap_inj w'.
Proof.
  intros Hinv Hinj Hsteps. induction Hsteps as [|w1 w2 w3 H12 IH H23]; [exact Hinj|].
  eapply heap_inj_step; [| exact (IH Hinv Hinj) | exact H23].
  eapply world_inv_steps; [exact Hinv | exact H12].
Qed.

Lemma reachable_heap_inj w : reachable w -> heap_inj w.
Proof.
  apply heap_inj_steps; [apply world_inv_init|].
  intros a a' c c' key key' r r' H. cbn [heap init_world] in H.
  rewrite lookup_empty in H. discriminate.
Qed.

(** Two registered caches are two [Map] objects. *)
Lemma registry_inj w k d k' d' a :
  world_inv w ->
  outer k (registry w) !! d = Some a -> outer k' (registry w) !! d' = Some a ->
  k = k' /\ d = d'.
Proof.
  intros Hinv H1 H2.
  destruct (inv_registered w Hinv _ _ _ H1) as (dev1 & Hd1 & Hin1).
  destruct (inv_registered w Hinv _ _ _ H2) as (dev2 & Hd2 & Hin2).
  pose proof (inv_nodup w Hinv) as Hnd.
  apply list_elem_of_lookup in Hin1 as [i Hi]. apply list_elem_of_lookup in Hin2 as [j Hj].
  assert (Hij : i = j).
  { eapply (NoDup_lookup _ i j a Hnd).
    - rewrite list_lookup_fmap, Hi. reflexivity.
    - rewrite list_lookup_fmap, Hj. reflexivity. }
  subst j. rewrite Hi in Hj. injection Hj as -> ->. split; [reflexivity | congruence].
Qed.

(** X11.  In a run of the program no object sits in two places of the
    global caches: two cached resources that are the same object are cached
    for the same kind, the same device and the same fingerprint.  So equal
    descriptors asked of two devices, or as two kinds, never share a
    resource. *)
Theorem global_caches_partition (w : World) (k k' : GlobalKind) (d d' : nat)
    (key key' : string) (r r' : Resource) :
  reachable w ->
  cache_view k d w !! key = Some r ->
  cache_view k' d' w !! key' = Some r' ->
  res_obj r = res_obj r' ->
  k = k' /\ d = d' /\ key = key'.
Proof.
  intros Hreach H1 H2 Heq.
  pose proof (reachable_inv w Hreach) as Hinv.
  pose proof (reachable_heap_inj w Hreach) as Hinj.
  unfold cache_view in *.
  destruct (outer k (registry w) !! d) as [a|] eqn:E1;
    [|rewrite lookup_empty in H1; discriminate].
  destruct (outer k' (registry w) !! d') as [a'|] eqn:E2;
    [|rewrite lookup_empty in H2; discriminate].
  destruct (heap w !! a) as [c|] eqn:Ec;
    [|simpl in H1; rewrite lookup_empty in H1; discriminate].
  destruct (heap w !! a') as [c'|] eqn:Ec';
    [|simpl in H2; rewrite lookup_empty in H2; discriminate].
  simpl in H1, H2.
  destruct (Hinj _ _ _ _ _ _ _ _ Ec H1 Ec' H2 Heq) as [-> ->].
  destruct (registry_inj _ _ _ _ _ _ Hinv E1 E2) as [-> ->]. auto.
Qed.

(** X12.  In a run of the program a global request touches one slot only:
    every cache entry other than the one for its kind, its device and its
    descriptor's fingerprint is after the request what it was before, and
    the context's local caches are left alone. *)
Theorem global_request_frame (p : Plugin) (k : GlobalKind) (d : Descriptor)
    (cs : list string) (ctx : Ctx) (w : World)
    (k' : GlobalKind) (d' : nat) (key' : string) :
  reachable w ->
  k' <> k \/ d' <> dev_obj (device p) \/ key' <> globalResourceHash d ->
  let res := exec p (global_call k d) cs ctx w in
  cache_view k' d' (snd res) !! key' = cache_view k' d' w !! key' /\
  (forall lk, local_map lk (snd (fst res)) = local_map lk ctx).
Proof.
  intros Hreach Hother res. unfold res. rewrite exec_global_call.
  pose proof (reachable_inv w Hreach) as Hinv.
  pose proof (world_inv_cache_for k (device p) w Hinv) as Hinv1.
  pose proof (exec_global_run k (device p) d w) as Hr.
  destruct (cache_for_spec k (device p) w) as (Hreg & _).
  rewrite <- (cache_for_view_all k (device p) w k' d' Hinv).
  destruct (exec_global k (device p) d w) as [o w']. cbn [fst snd].
  split; [|intros lk; apply local_map_ensure].
  inversion Hr as [r' Hg Heq | e' Hg He Heq | Hg He Heq]; subst; try reflexivity.
  unfold cache_view. cbn [registry heap emit with_heap with_next_obj].
  destruct (outer k' (registry (snd (cache_for k (device p) w))) !! d') as [a'|] eqn:E';
    [|reflexivity].
  destruct (decide (fst (cache_for k (device p) w) = a')) as [<-|Hne].
  - destruct (registry_inj _ _ _ _ _ _ Hinv1 E' Hreg) as [-> ->].
    rewrite lookup_insert_eq. cbn [default from_option]. unfold id.
    apply lookup_insert_ne. destruct Hother as [H | [H | H]]; congruence.
  - rewrite lookup_insert_ne by exact Hne. reflexivity.
Qed.

(** A global request that misses and is rejected: exec throws and the only
    trace of it is the creation call. *)
Lemma exec_global_rejects p k d cs ctx w e :
  cache_view k (dev_obj (device p)) w !! globalResourceHash d = None ->
  backend_error (device p) (KGlobal k) d = Some e ->
  exec p (global_call k d) cs ctx w
    = (Throw e, p, ensure_fields ctx,
       emit (EvCreate (device p) (KGlobal k) d) (snd (cache_for k (device p) w))).
Proof.
  intros Hmiss Hfail. rewrite exec_global_call.
  pose proof (exec_global_run k (device p) d w) as Hr.
  destruct (cache_for_spec k (device p) w) as (_ & Hview & _).
  destruct (exec_global k (device p) d w) as [o w'].
  inversion Hr as [r' Hg Heq | e' Hg He Heq | Hg He Heq]; subst.
  - rewrite Hview, Hmiss in Hg. discriminate.
  - rewrite Hfail in He. injection He as <-. reflexivity.
  - rewrite Hfail in He. discriminate.
Qed.

(** X13.  A failure is not remembered.  After a global request whose
    creation call the device rejected, the same request calls the creation
    function again: with a device that rejects it again, both requests throw
    and the trace holds two creation calls. *)
Theorem failed_creation_is_attempted_again (p : Plugin) (k : GlobalKind)
    (d : Descriptor) (cs cs' : list string) (ctx ctx' : Ctx) (w : World) (e : string) :
  cache_view k (dev_obj (device p)) w !! globalResourceHash d = None ->
  backend_error (device p) (KGlobal k) d = Some e ->
  let first := exec p (global_call k d) cs ctx w in
  let second := exec p (global_call k d) cs' ctx' (snd first) in
  fst (fst (fst first)) = Throw e /\
  fst (fst (fst second)) = Throw e /\
  creations (trace (snd second))
    = (creations (trace w) ++ [(device p, KGlobal k, d); (device p, KGlobal k, d)])%list /\
  cache_view k (dev_obj (device p)) (snd second) !! globalResourceHash d = None.
Proof.
  intros Hmiss Hfail first second.
  destruct (cache_for_spec k (device p) w) as (_ & _ & Hview1 & Htr1 & _).
  assert (Hfirst : first = (Throw e, p, ensure_fields ctx,
            emit (EvCreate (device p) (KGlobal k) d) (snd (cache_for k (device p) w))))
    by (apply exec_global_rejects; assumption).
  set (w1 := emit (EvCreate (device p) (KGlobal k) d) (snd (cache_for k (device p) w))) in *.
  assert (Hmiss1 : cache_view k (dev_obj (device p)) w1 !! globalResourceHash d = None).
  { change (cache_view k (dev_obj (device p)) w1)
      with (cache_view k (dev_obj (device p)) (snd (cache_for k (device p) w))).
    rewrite Hview1. exact Hmiss. }
  destruct (cache_for_spec k (device p) w1) as (_ & _ & Hview2 & Htr2 & _).
  assert (Hsecond : second = (Throw e, p, ensure_fields ctx',
            emit (EvCreate (device p) (KGlobal k) d) (snd (cache_for k (device p) w1)))).
  { unfold second. rewrite Hfirst. cbn [snd]. apply exec_global_rejects; assumption. }
  rewrite Hfirst, Hsecond. cbn [fst snd].
  split; [reflexivity|]. split; [reflexivity|]. split.
  - cbn [trace emit]. rewrite creations_app, Htr2. unfold w1. cbn [trace emit].
    rewrite creations_app, Htr1, <- app_assoc. reflexivity.
  - change (cache_view k (dev_obj (device p))
              (emit (EvCreate (device p) (KGlobal k) d) (snd (cache_for k (device p) w1))))
      with (cache_view k (dev_obj (device p)) (snd (cache_for k (device p) w1))).
    rewrite Hview2. exact Hmiss1.
Qed.

(** X14.  The cache is set up before the creation call.  In a run of the
    program, a first request to a live device for a kind, rejected by the
    device, still leaves an empty cache registered for the device; when the
    device is then lost the callback runs and reports 0 cleared items. *)
Theorem failed_first_use_registers_cache (p : Plugin) (k : GlobalKind)
    (d : Descriptor) (cs : list string) (ctx : Ctx) (w : World) (e : string) :
  reachable w ->
  dev_obj (device p) ∉ lost w ->
  outer k (registry w) !! dev_obj (device p) = None ->
  backend_error (device p) (KGlobal k) d = Some e ->
  let res := exec p (global_call k d) cs ctx w in
  let w1 := snd res in
  let w2 := device_lost (dev_obj (device p)) w1 in
  fst (fst (fst res)) = Throw e /\
  outer k (registry w1) !! dev_obj (device p) = Some (next_addr w) /\
  heap w1 !! next_addr w = Some ∅ /\
  (exists dev evs, dev_obj dev = dev_obj (device p) /\
     trace w2 = (trace w1 ++ evs)%list /\
     EvLog (LogCleared k 0 (dev_instanceId dev)) ∈ evs) /\
  outer k (registry w2) !! dev_obj (device p) = None.
Proof.
  intros Hreach Hlive Hnone Hfail res w1 w2.
  pose proof (reachable_inv w Hreach) as Hinv.
  assert (Hmiss : cache_view k (dev_obj (device p)) w !! globalResourceHash d = None)
    by (unfold cache_view; rewrite Hnone; apply lookup_empty).
  assert (Hres : res = (Throw e, p, ensure_fields ctx,
            emit (EvCreate (device p) (KGlobal k) d) (snd (cache_for k (device p) w))))
    by (apply exec_global_rejects; assumption).
  assert (Hinv1 : world_inv w1).
  { unfold w1, res. apply world_inv_exec. exact Hinv. }
  unfold w2, w1 in *. rewrite Hres in *. cbn [fst snd] in *.
  rewrite (cache_for_new _ _ _ Hnone) in *. cbn [snd] in *.
  destruct (with_new_cache_fields k (device p) w) as (Hr & Hh & _ & _ & Hl & _).
  assert (Hreg1 : outer k (registry (emit (EvCreate (device p) (KGlobal k) d)
                    (with_new_cache k (device p) w))) !! dev_obj (device p)
                  = Some (next_addr w)).
  { cbn [registry emit]. rewrite Hr, outer_set_eq. apply lookup_insert_eq. }
  assert (Hheap1 : heap (emit (EvCreate (device p) (KGlobal k) d)
                     (with_new_cache k (device p) w)) !! next_addr w = Some ∅).
  { cbn [heap emit]. rewrite Hh. apply lookup_insert_eq. }
  assert (Hlive1 : dev_obj (device p) ∉ lost (emit (EvCreate (device p) (KGlobal k) d)
                     (with_new_cache k (device p) w))).
  { cbn [lost emit]. rewrite Hl. exact Hlive. }
  destruct (device_lost_evicts k _ _ _ _ Hinv1 Hlive1 Hreg1 Hheap1)
    as (Hlog & _ & Hunreg & _).
  split; [reflexivity|]. split; [exact Hreg1|]. split; [exact Hheap1|].
  split; [|apply Hunreg].
  destruct Hlog as (dev & evs & Hd & Ht & Hin). exists dev, evs.
  rewrite map_size_empty in Hin. auto.
Qed.

(** Draining the queue leaves the cache of a live device as it is. *)
Lemma run_microtasks_view_live w k d :
  world_inv w -> d ∉ lost w ->
  cache_view k d (run_microtasks w) = cache_view k d w.
Proof.
  intros Hinv Hlive. rewrite run_microtasks_drain. unfold cache_view.
  rewrite drain_registry. rewrite decide_False.
  2:{ intros Hex. apply Exists_exists in Hex as (cb & Hin & _ & Hd).
      apply (inv_queued_lost w Hinv) in Hin. rewrite Hd in Hin. contradiction. }
  cbn [registry with_microtasks].
  destruct (outer k (registry w) !! d) as [a|] eqn:Ereg; [|reflexivity].
  rewrite drain_heap. rewrite decide_False; [reflexivity|].
  intros Hin. destruct (inv_registered w Hinv _ _ _ Ereg) as (dev & Hd & Hp).
  unfold pending in Hp. apply elem_of_app in Hp as [Hp|Hp].
  - pose proof (inv_nodup w Hinv) as Hnd. unfold pending in Hnd.
    rewrite map_app in Hnd. apply NoDup_app in Hnd as (_ & Hdisj & _).
    apply (Hdisj a); [|exact Hin].
    apply list_elem_of_fmap. eexists. split; [|exact Hp]. reflexivity.
  - apply (inv_queued_lost w Hinv) in Hp. simpl in Hp. rewrite Hd in Hp. contradiction.
Qed.

(** X15.  The loss of one device evicts nothing of another: in a run of the
    program, every cache of a device that is not lost holds after the loss
    of some device what it held before. *)
Theorem device_loss_spares_live_devices (w : World) (d d' : nat) (k : GlobalKind) :
  reachable w ->
  d' ∉ lost (device_lost d w) ->
  cache_view k d' (device_lost d w) = cache_view k d' w.
Proof.
  intros Hreach Hlive. pose proof (reachable_inv w Hreach) as Hinv.
  assert (Hlost : lost (device_lost d w) = lost (resolve_lost d w)).
  { unfold device_lost. rewrite run_microtasks_drain.
    destruct (drain_fields (microtasks (resolve_lost d w))
                (with_microtasks [] (resolve_lost d w))) as (_ & _ & Hl & _).
    rewrite Hl. reflexivity. }
  rewrite Hlost in Hlive. unfold device_lost.
  rewrite run_microtasks_view_live;
    [| apply world_inv_resolve_lost; exact Hinv | exact Hlive].
  destruct (resolve_lost_fields d w) as (Hr & Hh & _).
  unfold cache_view. rewrite Hr, Hh. reflexivity.
Qed.

(** X16.  A lost device is served, but its cache does not last.  In a run
    of the program, at a point where the microtask queue is empty, a global
    request to a lost device creates a resource and caches it alone in a
    new cache; the callback registered with the resolved [lost] promise is
    queued at once, and when the queue is drained it unregisters the cache,
    empties it and reports 1 cleared item.  The same request after that
    creates another object. *)
Theorem lost_device_cache_lasts_one_pass (p : Plugin) (k : GlobalKind)
    (desc : Descriptor) (cs : list string) (ctx : Ctx) (w : World)
    (r : Resource) (p1 : Plugin) (ctx1 : Ctx) (w1 : World) :
  reachable w ->
  dev_obj (device p) ∈ lost w ->
  microtasks w = [] ->
  exec p (global_call k desc) cs ctx w = (Return (RResource r), p1, ctx1, w1) ->
  let d := dev_obj (device p) in
  let w2 := run_microtasks w1 in
  cache_view k d w1 = {[globalResourceHash desc := r]} /\
  microtasks w1 = [{| cb_kind := k; cb_device := device p; cb_cache := next_addr w |}] /\
  trace w2 = (trace w1 ++ [EvLog (LogCleared k 1 (dev_instanceId (device p)))])%list /\
  cache_view k d w2 = ∅ /\
  forall cs' ctx' r2 p2 ctx2 w3,
    exec p (global_call k desc) cs' ctx' w2 = (Return (RResource r2), p2, ctx2, w3) ->
    res_obj r2 <> res_obj r /\
    creations (trace w3) = (creations (trace w2) ++ [(device p, KGlobal k, desc)])%list.
Proof.
  intros Hreach Hlost Hquiet Hexec d w2.
  pose proof (reachable_inv w Hreach) as Hinv.
  pose proof (lost_device_unregistered w k _ Hinv Hlost Hquiet) as Hnone.
  destruct (exec_global_unregistered _ _ _ _ _ _ _ _ _ _ Hnone Hexec)
    as (Hr & Hreg1 & Hheap1 & _).
  assert (Hm1 : microtasks w1
                = [{| cb_kind := k; cb_device := device p; cb_cache := next_addr w |}]).
  { pose proof (exec_global_world k (device p) desc w) as Hw.
    cbv zeta in Hw. destruct Hw as (_ & _ & _ & _ & Hm & _).
    rewrite exec_global_call in Hexec.
    destruct (exec_global k (device p) desc w) as [o w']. injection Hexec as _ _ _ <-.
    cbn [snd] in Hm. rewrite Hm, (cache_for_new _ _ _ Hnone). cbn [snd].
    unfold with_new_cache, subscribe_lost. cbn [cb_device lost with_registry with_next_addr with_heap].
    rewrite decide_True by exact Hlost. cbn [microtasks with_microtasks with_registry with_next_addr with_heap].
    rewrite Hquiet. reflexivity. }
  assert (Hview1 : cache_view k d w1 = {[globalResourceHash desc := r]}).
  { unfold cache_view, d. rewrite Hreg1, Hheap1. reflexivity. }
  assert (Hw2 : w2 = run_lost_callback
            {| cb_kind := k; cb_device := device p; cb_cache := next_addr w |}
            (with_microtasks [] w1)).
  { unfold w2. rewrite run_microtasks_drain, Hm1. reflexivity. }
  assert (Hnone2 : outer k (registry w2) !! d = None).
  { rewrite Hw2. cbn [registry run_lost_callback emit with_heap with_registry cb_kind cb_device].
    rewrite outer_set_eq. apply lookup_delete_eq. }
  split; [exact Hview1|]. split; [exact Hm1|]. split.
  { rewrite Hw2. cbn [trace run_lost_callback emit with_heap with_registry with_microtasks
                      heap cb_kind cb_device cb_cache].
    rewrite Hheap1. cbn [default from_option]. unfold id.
    rewrite map_size_singleton. reflexivity. }
  split; [unfold cache_view; rewrite Hnone2; reflexivity|].
  intros cs' ctx' r2 p2 ctx2 w3 Hexec2.
  destruct (exec_global_unregistered _ _ _ _ _ _ _ _ _ _ Hnone2 Hexec2)
    as (Hr2 & _ & _ & Hcr).
  split; [|exact Hcr].
  assert (Hobj : next_obj w < next_obj w2).
  { pose proof (step_next_obj _ _ (step_run_microtasks w1)) as Hmono. fold w2 in Hmono.
    assert (Hlt : next_obj w < next_obj w1).
    { rewrite exec_global_call in Hexec.
      pose proof (exec_global_run k (device p) desc w) as Hrun.
      destruct (cache_for_spec k (device p) w) as (_ & _ & _ & _ & Ho & _).
      destruct (exec_global k (device p) desc w) as [o w']. injection Hexec as Ho' _ _ <-.
      inversion Hrun as [r' Hg Heq | e' Hg He Heq | Hg He Heq]; subst; try discriminate.
      - rewrite (cache_for_new _ _ _ Hnone) in Hg. cbn [fst snd] in Hg.
        destruct (with_new_cache_fields k (device p) w) as (_ & Hh & _).
        rewrite Hh, lookup_insert_eq in Hg. simpl in Hg. rewrite lookup_empty in Hg.
        discriminate.
      - cbn [next_obj emit with_heap with_next_obj]. rewrite Ho. lia. }
    lia. }
  rewrite Hr2, Hr. simpl. lia.
Qed.

(** ** More on the local caches *)

Lemma local_map_set_ne k k' m ctx :
  k' <> k -> local_map k' (set_local_map k m ctx) = local_map k' ctx.
Proof. intros Hne. destruct k, k'; try reflexivity; contradiction. Qed.

(** What a request leaves of the context: its fields are made, and either
    its local caches hold what they held, or one of them has one more entry,
    at a fingerprint it did not hold. *)
Lemma exec_ctx_cases p call cs ctx w :
  let ctx' := snd (fst (exec p call cs ctx w)) in
  ensure_fields ctx' = ctx' /\
  ((forall k, local_map k ctx' = local_map k ctx) \/
   exists k key r,
     get_field key (local_map k ctx) = None /\
     ctx' = set_local_map k (set_field key r (local_map k ctx)) (ensure_fields ctx)).
Proof.
  assert (Hl : forall k d,
    let ctx' := snd (fst (exec p (local_call k d) cs ctx w)) in
    ensure_fields ctx' = ctx' /\
    ((forall k, local_map k ctx' = local_map k ctx) \/
     exists k key r,
       get_field key (local_map k ctx) = None /\
       ctx' = set_local_map k (set_field key r (local_map k ctx)) (ensure_fields ctx))).
  { intros k d. cbv zeta. rewrite exec_local_call.
    pose proof (exec_local_run k (device p) d (stringHash (join_callSite cs))
                  (ensure_fields ctx) w) as Hr.
    destruct (exec_local k (device p) d _ (ensure_fields ctx) w) as [[o c'] w0] eqn:E.
    cbn [fst snd]. split; [eapply exec_local_ensured; exact E|].
    inversion Hr as [r' Hg Heq | e Hg _ Heq | Hg _ Heq]; subst.
    - left. intros k0. apply local_map_ensure.
    - left. intros k0. apply local_map_ensure.
    - right. exists k, (fst (localResourceHash d (device p))), (hashed (next_obj w)).
      rewrite local_map_ensure in Hg. split; [exact Hg|].
      rewrite local_map_ensure. reflexivity. }
  assert (Hg : forall k d,
    let ctx' := snd (fst (exec p (global_call k d) cs ctx w)) in
    ensure_fields ctx' = ctx' /\
    ((forall k, local_map k ctx' = local_map k ctx) \/
     exists k key r,
       get_field key (local_map k ctx) = None /\
       ctx' = set_local_map k (set_field key r (local_map k ctx)) (ensure_fields ctx))).
  { intros k d. cbv zeta. rewrite exec_global_call.
    destruct (exec_global k (device p) d w) as [o w0]. cbn [fst snd].
    split; [apply ensure_fields_idem|]. left. intros k0. apply local_map_ensure. }
  destruct call as [d|d|d|d|d|d|d|d|d|f deps|a|eff deps|].
  - exact (Hg ShaderModule d).
  - exact (Hg RenderPipeline d).
  - exact (Hg ComputePipeline d).
  - exact (Hg BindGroupLayout d).
  - exact (Hg PipelineLayout d).
  - exact (Hl Buffer d).
  - exact (Hl Texture d).
  - exact (Hl BindGroup d).
  - exact (Hg Sampler d).
  - cbv zeta. unfold exec, exec_pushFrame. destruct deps as [deps|]; cbn [fst snd].
    + split; [destruct ctx as [[?|] [?|] [?|] [?|] [?|] [?|]]; reflexivity|].
      left. intros k0. destruct ctx as [? ? [?|] [?|] [?|] ?], k0; reflexivity.
    + split; [apply ensure_fields_idem|]. left. intros k0. apply local_map_ensure.
  - cbv zeta. cbn [exec fst snd]. split; [apply ensure_fields_idem|].
    left. intros k0. apply local_map_ensure.
  - cbv zeta. unfold exec, exec_queueEffect.
    destruct (negb (isSameDependencies_with_cached _ _)); cbn [fst snd].
    + split; [destruct ctx as [[?|] [?|] [?|] [?|] [?|] [?|]]; reflexivity|].
      left. intros k0. destruct ctx as [? ? [?|] [?|] [?|] ?], k0; reflexivity.
    + split; [apply ensure_fields_idem|]. left. intros k0. apply local_map_ensure.
  - cbv zeta. cbn [exec fst snd]. split; [apply ensure_fields_idem|].
    left. intros k0. apply local_map_ensure.
Qed.

Lemma exec_keeps_entry p call cs ctx w k key r :
  get_field key (local_map k ctx) = Some r ->
  get_field key (local_map k (snd (fst (exec p call cs ctx w)))) = Some r.
Proof.
  intros Hg. destruct (exec_ctx_cases p call cs ctx w) as (_ & [Hsame | Hadd]).
  - rewrite Hsame. exact Hg.
  - destruct Hadd as (k0 & key0 & r0 & Hnone & ->).
    destruct (decide (k = k0)) as [->|Hk].
    + rewrite local_map_set. rewrite get_set_field_ne; [exact Hg|].
      intros ->. rewrite Hg in Hnone. discriminate.
    + rewrite local_map_set_ne by exact Hk. rewrite local_map_ensure. exact Hg.
Qed.

Lemma ctx_steps_keep_entry c c' k key r :
  ctx_steps c c' ->
  ensure_fields c = c -> get_field key (local_map k c) = Some r ->
  ensure_fields c' = c' /\ get_field key (local_map k c') = Some r.
Proof.
  intros Hsteps He Hg. induction Hsteps as [c | c c' p call cs w Hsteps IH | c c' w Hsteps IH].
  - split; assumption.
  - destruct (IH He Hg) as [He' Hg']. split.
    + apply exec_ctx_cases.
    + apply exec_keeps_entry. exact Hg'.
  - destruct (IH He Hg) as [He' Hg']. split; assumption.
Qed.

(** X17.  A local cache never drops an entry.  After a local request on a
    context has returned [r], whatever is asked of the plugin on that
    context from then on, with whatever device and at whatever call site,
    [dispose] included, and whatever happens to the world in between, the
    loss of the device included: the same request on the context returns
    [r] again and changes nothing, so nothing is created. *)
Theorem local_entry_outlives_everything (p : Plugin) (k : LocalKind) (d : Descriptor)
    (cs : list string) (ctx : Ctx) (w : World)
    (r : Resource) (p1 : Plugin) (ctx1 ctx2 : Ctx) (w1 : World) :
  exec p (local_call k d) cs ctx w = (Return (RResource r), p1, ctx1, w1) ->
  ctx_steps ctx1 ctx2 ->
  forall p' cs' w',
    device p' = device p ->
    exec p' (local_call k d) cs' ctx2 w' = (Return (RResource r), p', ctx2, w').
Proof.
  intros Hexec Hsteps p' cs' w' Hdev.
  destruct (exec_local_result _ _ _ _ _ _ _ _ _ _ Hexec) as (_ & He & Hg).
  destruct (ctx_steps_keep_entry _ _ _ _ _ Hsteps He Hg) as [He2 Hg2].
  rewrite <- Hdev in Hg2.
  rewrite (exec_local_hit _ _ _ _ _ _ _ Hg2), He2. reflexivity.
Qed.

Lemma get_field_lookup {A} k (v : A) o :
  get_field k o = Some v -> exists i, o !! i = Some (k, v).
Proof.
  induction o as [|[k0 v0] o IH]; simpl; [discriminate|].
  destruct (String.eqb k k0) eqn:E.
  - intros [= ->]. apply String.eqb_eq in E as ->. exists 0. reflexivity.
  - intros H. destruct (IH H) as [i Hi]. exists (S i). exact Hi.
Qed.

(** In a list of distinct objects, two entries with the same object are the
    same entry. *)
Lemma NoDup_obj_entry (m : list (string * Resource)) key key' r r' :
  NoDup (map res_obj (map snd m)) ->
  get_field key m = Some r -> get_field key' m = Some r' ->
  res_obj r = res_obj r' -> key = key'.
Proof.
  intros Hnd Hg Hg' Hobj.
  apply get_field_lookup in Hg as [i Hi]. apply get_field_lookup in Hg' as [j Hj].
  assert (Hi' : map res_obj (map snd m) !! i = Some (res_obj r)).
  { change (map res_obj (map snd m)) with (res_obj <$> (snd <$> m)).
    rewrite !list_lookup_fmap, Hi. reflexivity. }
  assert (Hj' : map res_obj (map snd m) !! j = Some (res_obj r)).
  { change (map res_obj (map snd m)) with (res_obj <$> (snd <$> m)).
    rewrite !list_lookup_fmap, Hj, Hobj. reflexivity. }
  pose proof (NoDup_lookup _ _ _ _ Hnd Hi' Hj') as ->.
  rewrite Hi in Hj. congruence.
Qed.

Lemma ctx_wf_partition w ctx k k' key key' r r' :
  ctx_wf w ctx ->
  get_field key (local_map k ctx) = Some r ->
  get_field key' (local_map k' ctx) = Some r' ->
  res_obj r = res_obj r' -> k = k' /\ key = key'.
Proof.
  intros [Hnd _] Hg Hg' Hobj. unfold local_resources in Hnd.
  rewrite !map_app in Hnd.
  apply NoDup_app in Hnd as (HG & HGx & Hnd).
  apply NoDup_app in Hnd as (HB & HBx & HT).
  assert (Hin : forall k0 key0 r0, get_field key0 (local_map k0 ctx) = Some r0 ->
            res_obj r0 ∈ map res_obj (map snd (local_map k0 ctx))).
  { intros k0 key0 r0 H0. apply list_elem_of_In, in_map, get_field_In with (k := key0).
    exact H0. }
  pose proof (Hin _ _ _ Hg) as Hr. pose proof (Hin _ _ _ Hg') as Hr'.
  rewrite <- Hobj in Hr'.
  destruct k, k'; try (split; [reflexivity|]).
  - eapply NoDup_obj_entry; [exact HG | exact Hg | exact Hg' | exact Hobj].
  - exfalso. apply (HGx _ Hr). apply elem_of_app. left. exact Hr'.
  - exfalso. apply (HGx _ Hr). apply elem_of_app. right. exact Hr'.
  - exfalso. apply (HGx _ Hr'). apply elem_of_app. left. exact Hr.
  - eapply NoDup_obj_entry; [exact HB | exact Hg | exact Hg' | exact Hobj].
  - exfalso. apply (HBx _ Hr). exact Hr'.
  - exfalso. apply (HGx _ Hr'). apply elem_of_app. right. exact Hr.
  - exfalso. apply (HBx _ Hr'). exact Hr.
  - eapply NoDup_obj_entry; [exact HT | exact Hg | exact Hg' | exact Hobj].
Qed.

(** X18.  The local caches of a context never share an object.  On a
    context built by [exec], after any request, an object held at two
    places of the bind-group, buffer and texture caches is held at one
    place: same cache, same fingerprint.  So a buffer and a texture asked
    for with the same descriptor are two objects, and [dispose] does not
    destroy an object twice in one pass. *)
Theorem local_caches_partition (p : Plugin) (call : PluginCalls) (cs : list string)
    (ctx : Ctx) (w : World) (k k' : LocalKind) (key key' : string) (r r' : Resource) :
  ctx_wf w ctx ->
  let ctx' := snd (fst (exec p call cs ctx w)) in
  get_field key (local_map k ctx') = Some r ->
  get_field key' (local_map k' ctx') = Some r' ->
  res_obj r = res_obj r' ->
  k = k' /\ key = key'.
Proof.
  intros Hwf ctx' Hg Hg' Hobj.
  eapply ctx_wf_partition; [apply ctx_wf_exec; exact Hwf | exact Hg | exact Hg' | exact Hobj].
Qed.


Lemma set_local_map_deps k m ctx :
  frameDeps (set_local_map k m ctx) = frameDeps ctx /\
  queueEffectsDeps (set_local_map k m ctx) = queueEffectsDeps ctx.
Proof. destruct k; split; reflexivity. Qed.

(** X20.  A local request stays in its context.  Whether it hits, creates
    or throws, a request for a bind group, buffer or texture leaves the
    plugin, the global caches, their device-loss callbacks and the promises
    of the world as they were, and in the context it leaves every other
    local cache, every other fingerprint of its own cache, and the
    remembered dependencies of frames and queue effects as they were. *)
Theorem local_request_stays_in_context (p : Plugin) (k : LocalKind) (d : Descriptor)
    (cs : list string) (ctx : Ctx) (w : World) :
  let res := exec p (local_call k d) cs ctx w in
  let ctx' := snd (fst res) in
  let w' := snd res in
  snd (fst (fst res)) = p /\
  registry w' = registry w /\ heap w' = heap w /\
  reactions w' = reactions w /\ microtasks w' = microtasks w /\
  futures w' = futures w /\
  (forall k' d', cache_view k' d' w' = cache_view k' d' w) /\
  (forall k' key',
     k' <> k \/ key' <> fst (localResourceHash d (device p)) ->
     get_field key' (local_map k' ctx') = get_field key' (local_map k' ctx)) /\
  default ∅ (frameDeps ctx') = default ∅ (frameDeps ctx) /\
  default ∅ (queueEffectsDeps ctx') = default ∅ (queueEffectsDeps ctx).
Proof.
  cbv zeta. rewrite exec_local_call.
  pose proof (exec_local_run k (device p) d (stringHash (join_callSite cs))
                (ensure_fields ctx) w) as Hr.
  destruct (exec_local k (device p) d _ (ensure_fields ctx) w) as [[o c'] w0].
  cbn [fst snd].
  inversion Hr as [r' Hg Heq | e Hg _ Heq | Hg _ Heq]; subst.
  - repeat split; try reflexivity.
    + intros k' key' _. rewrite local_map_ensure. reflexivity.
    + apply ensure_fields_frameDeps.
    + apply ensure_fields_queueEffectsDeps.
  - repeat split; try reflexivity.
    + intros k' key' _. rewrite local_map_ensure. reflexivity.
    + apply ensure_fields_frameDeps.
    + apply ensure_fields_queueEffectsDeps.
  - destruct (set_local_map_deps k
                (set_field (fst (localResourceHash d (device p))) (hashed (next_obj w))
                   (local_map k (ensure_fields ctx))) (ensure_fields ctx)) as [Hf Hq].
    repeat split; try reflexivity.
    + intros k' key' Hother. destruct (decide (k' = k)) as [->|Hk].
      * rewrite local_map_set, local_map_ensure. apply get_set_field_ne.
        destruct Hother as [H|H]; [contradiction | exact (fun Heq => H (eq_sym Heq))].
      * rewrite local_map_set_ne by exact Hk. rewrite local_map_ensure. reflexivity.
    + transitivity (default (∅ : gmap string DepArray) (frameDeps (ensure_fields ctx)));
        [exact (f_equal (default ∅) Hf) | apply ensure_fields_frameDeps].
    + transitivity (default (∅ : gmap string DepArray) (queueEffectsDeps (ensure_fields ctx)));
        [exact (f_equal (default ∅) Hq) | apply ensure_fields_queueEffectsDeps].
Qed.

End WebGPUPlugin.

(** * Examples

    The theorems above at the sample parameters: one device that accepts
    every creation call, the descriptor [{ size: 256, label: "a" }]. *)

Local Abbreviation exec0 :=
  (exec Sample.show Sample.stringHash Sample.shortId Sample.hashed_id Sample.accepting Sample.inherited).
Local Abbreviation reachable0 :=
  (reachable Sample.show Sample.stringHash Sample.shortId Sample.hashed_id
     Sample.accepting Sample.inherited unit Sample.action_outcome).
Local Abbreviation steps0 :=
  (steps Sample.show Sample.stringHash Sample.shortId Sample.hashed_id
     Sample.accepting Sample.inherited unit Sample.action_outcome).
Local Abbreviation h0 := {| res_obj := 0; res_instanceId := "h0" |}.
Local Abbreviation h1 := {| res_obj := 1; res_instanceId := "h1" |}.

(** The world and the context after a first request for a shader module,
    and after a first request for a buffer. *)
Local Abbreviation w_shader :=
  (snd (exec0 Sample.plugin (CreateShaderModule Sample.desc_a) ["X"] fresh_ctx init_world)).
Local Abbreviation ctx_buffer :=
  (snd (fst (exec0 Sample.plugin (CreateBuffer Sample.desc_a) ["X"] fresh_ctx init_world))).
Local Abbreviation w_buffer :=
  (snd (exec0 Sample.plugin (CreateBuffer Sample.desc_a) ["X"] fresh_ctx init_world)).

(** A second context, on which the same buffer is requested next. *)
Local Abbreviation ctx_sibling :=
  (snd (fst (exec0 Sample.plugin (CreateBuffer Sample.desc_a) ["Y"] fresh_ctx w_buffer))).
Local Abbreviation w_sibling :=
  (snd (exec0 Sample.plugin (CreateBuffer Sample.desc_a) ["Y"] fresh_ctx w_buffer)).

Lemma global_memoization_witness :
  exec0 Sample.plugin (CreateShaderModule Sample.desc_a) ["X"] fresh_ctx init_world
    = (Return (RResource h0), Sample.plugin, ensure_fields fresh_ctx, w_shader) /\
  exec0 Sample.plugin (CreateShaderModule Sample.desc_a) ["Y"] fresh_ctx w_shader
    = (Return (RResource h0), Sample.plugin, ensure_fields fresh_ctx, w_shader) /\
  creations (trace w_shader) = [(Sample.gpu, KGlobal ShaderModule, Sample.desc_a)].
Proof.
  assert (H : exec0 Sample.plugin (global_call ShaderModule Sample.desc_a) ["X"]
                fresh_ctx init_world
              = (Return (RResource h0), Sample.plugin, ensure_fields fresh_ctx, w_shader))
    by (vm_compute; reflexivity).
  split; [exact H|].
  destruct (global_memoization Sample.show Sample.stringHash Sample.shortId
              Sample.hashed_id Sample.accepting Sample.inherited unit Sample.action_outcome
              _ _ _ _ _ _ _ _ _ _ H) as (Hnext & Hcreated & _).
  split; [exact (Hnext ["Y"] fresh_ctx) | exact Hcreated].
Defined.

Lemma device_loss_eviction_witness :
  reachable0 w_shader /\ (0 ∉ lost w_shader) /\
  heap w_shader !! 0 = Some {[globalResourceHash Sample.show Sample.desc_a := h0]} /\
  heap (device_lost 0 w_shader) !! 0 = Some ∅ /\
  outer ShaderModule (registry (device_lost 0 w_shader)) !! 0 = None.
Proof.
  assert (Hreach : reachable0 w_shader).
  { eapply steps_next; [apply steps_refl|].
    apply (step_exec Sample.show Sample.stringHash Sample.shortId Sample.hashed_id
             Sample.accepting Sample.inherited unit Sample.action_outcome
             Sample.plugin (CreateShaderModule Sample.desc_a) ["X"] fresh_ctx init_world). }
  assert (Hlive : 0 ∉ lost w_shader) by (vm_compute; intros H; discriminate H).
  assert (Hreg : outer ShaderModule (registry w_shader) !! 0 = Some 0)
    by (vm_compute; reflexivity).
  assert (Hheap : heap w_shader !! 0
                  = Some {[globalResourceHash Sample.show Sample.desc_a := h0]})
    by (vm_compute; reflexivity).
  destruct (device_loss_eviction Sample.show Sample.stringHash Sample.shortId
              Sample.hashed_id Sample.accepting Sample.inherited unit Sample.action_outcome
              ShaderModule 0 0 _ w_shader Hreach Hlive Hreg Hheap)
    as (_ & Hempty & Hunreg & _).
  split; [exact Hreach|]. split; [exact Hlive|]. split; [exact Hheap|].
  split; [exact Hempty | exact (proj1 (Hunreg ShaderModule))].
Defined.

Lemma dispose_destroys_held_witness :
  ctx_wf w_buffer ctx_buffer /\
  siblings_wf w_sibling ctx_buffer ctx_sibling /\
  In h1 (local_resources ctx_sibling) /\
  count_occ Resource_eq_dec (destroyed (trace (snd (dispose ctx_buffer w_buffer)))) h0 = 1 /\
  count_occ Resource_eq_dec (destroyed (trace (snd (dispose ctx_buffer w_sibling)))) h1 = 0 /\
  cache_view ShaderModule 0 (snd (dispose ctx_buffer w_shader)) = cache_view ShaderModule 0 w_shader.
Proof.
  assert (Hwf : ctx_wf w_buffer ctx_buffer).
  { apply (ctx_wf_exec_local_call Sample.show Sample.stringHash Sample.shortId
             Sample.hashed_id Sample.accepting Sample.inherited Sample.plugin Buffer Sample.desc_a ["X"]
             fresh_ctx init_world (Return (RResource h0)) Sample.plugin);
      [apply ctx_wf_fresh | vm_compute; reflexivity]. }
  assert (Hsib : siblings_wf w_sibling ctx_buffer ctx_sibling).
  { apply siblings_wf_sym.
    apply (siblings_wf_exec Sample.show Sample.stringHash Sample.shortId Sample.hashed_id
             Sample.accepting Sample.inherited unit Sample.action_outcome
             Sample.plugin (CreateBuffer Sample.desc_a) ["Y"] fresh_ctx ctx_buffer w_buffer).
    apply siblings_wf_sym.
    apply (siblings_wf_exec Sample.show Sample.stringHash Sample.shortId Sample.hashed_id
             Sample.accepting Sample.inherited unit Sample.action_outcome
             Sample.plugin (CreateBuffer Sample.desc_a) ["X"] fresh_ctx fresh_ctx init_world).
    apply siblings_wf_fresh. }
  assert (Hin : In h1 (local_resources ctx_sibling)) by (vm_compute; left; reflexivity).
  split; [exact Hwf|]. split; [exact Hsib|]. split; [exact Hin|].
  destruct (dispose_destroys_held_and_keeps_caches ctx_buffer w_buffer)
    as (_ & _ & _ & _ & _ & _ & Honce & _).
  destruct (dispose_destroys_held_and_keeps_caches ctx_buffer w_sibling)
    as (_ & _ & _ & _ & _ & _ & _ & Hlocal).
  destruct (dispose_destroys_held_and_keeps_caches ctx_buffer w_shader)
    as (_ & _ & _ & _ & Hglobal & _).
  split; [|split; [|exact (Hglobal ShaderModule 0)]].
  - apply (proj1 (Honce Hwf) h0). vm_compute. left. reflexivity.
  - exact (Hlocal ctx_sibling Hsib h1 Hin).
Defined.

(** After [dispose] the context's buffer cache still holds its entry: the
    caches are not discarded. *)
Lemma dispose_does_not_discard_caches :
  local_map Buffer (fst (dispose ctx_buffer w_buffer))
    = [(fst (localResourceHash Sample.show Sample.desc_a Sample.gpu), h0)] /\
  ~ caches_discarded (fst (dispose ctx_buffer w_buffer)).
Proof.
  split; [vm_compute; reflexivity|].
  intros [H _]. vm_compute in H. discriminate H.
Qed.

(** A defined sequence and an absent one are judged the same, though they
    are not the identical object and not both defined. *)
Lemma isSameDependencies_defined_absent :
  isSameDependencies (Some (Sample.deps_12 0)) None = true /\
  ~ same_by_spec (Some (Sample.deps_12 0)) None.
Proof.
  split; [reflexivity|].
  intros [H | (p & n & _ & H & _)]; [exact H | discriminate H].
Qed.

Lemma pushFrame_change_detection_witness :
  exists f p' ctx',
    exec0 Sample.plugin (PushFrame 0 (Some (Sample.deps_12 1))) ["X"] fresh_ctx init_world
      = (Return (RFrame f), p', ctx', init_world) /\
    enabled f = true /\
    (exists f2 p2 ctx2,
       exec0 p' (PushFrame 0 (Some (Sample.deps_12 2))) ["X"] ctx' init_world
         = (Return (RFrame f2), p2, ctx2, init_world) /\ enabled f2 = false) /\
    (exists f2 p2 ctx2,
       exec0 p' (PushFrame 0 (Some (Sample.deps_13 2))) ["X"] ctx' init_world
         = (Return (RFrame f2), p2, ctx2, init_world) /\ enabled f2 = true).
Proof.
  destruct (proj2 (pushFrame_change_detection Sample.show Sample.stringHash Sample.shortId
                     Sample.hashed_id Sample.accepting Sample.inherited Sample.plugin ["X"] fresh_ctx
                     init_world 0) (Sample.deps_12 1))
    as (f & p' & ctx' & Hexec & _ & _ & Hfirst & _ & _ & _ & Hnext).
  exists f, p', ctx'. split; [exact Hexec|].
  split; [apply Hfirst; vm_compute; reflexivity|].
  split.
  - destruct (Hnext 0 (Sample.deps_12 2)) as (f2 & p2 & ctx2 & H2 & _ & _ & Hsame & _).
    exists f2, p2, ctx2. split; [exact H2|]. apply Hsame; reflexivity.
  - destruct (Hnext 0 (Sample.deps_13 2)) as (f2 & p2 & ctx2 & H2 & _ & _ & _ & Hdiff & _).
    exists f2, p2, ctx2. split; [exact H2|]. apply Hdiff; [reflexivity..|].
    simpl. lia.
Defined.


Lemma localResourceHash_writes_descriptor_witness :
  snd (localResourceHash Sample.show Sample.desc_a Sample.gpu)
    = [("size", VNum 256); ("label", VStr "a"); ("owningDevice", VStr "gpu-0")] /\
  snd (localResourceHash Sample.show Sample.desc_a Sample.gpu) <> Sample.desc_a.
Proof.
  split; [reflexivity|].
  apply (localResourceHash_writes_descriptor Sample.show Sample.desc_a Sample.gpu).
  simpl. discriminate.
Defined.

Lemma action_sync_throw_witness :
  Sample.action_outcome 2 tt = ThrowsSync "boom" /\
  futures (run_wrapper unit Sample.action_outcome {| wr_action := 2; wr_future := 0 |} tt
             (snd (call_thunk 2 Sample.plugin init_world))) !! 0 = Some Pending.
Proof.
  split; [reflexivity|].
  exact (proj1 (proj2 (action_sync_throw_leaves_future_pending unit Sample.action_outcome
                         2 Sample.plugin init_world tt "boom" eq_refl))).
Defined.

Lemma creation_failure_witness :
  exists w',
    exec Sample.show Sample.stringHash Sample.shortId Sample.hashed_id Sample.rejecting Sample.inherited
      Sample.plugin (CreateShaderModule Sample.desc_a) ["X"] fresh_ctx init_world
      = (Throw "OperationError", Sample.plugin, ensure_fields fresh_ctx, w') /\
    cache_view ShaderModule 0 w' = ∅ /\
    creations (trace w') = [(Sample.gpu, KGlobal ShaderModule, Sample.desc_a)].
Proof.
  destruct (creation_failure_leaves_cache Sample.show Sample.stringHash Sample.shortId
              Sample.hashed_id Sample.rejecting Sample.inherited
              Sample.plugin ShaderModule Sample.desc_a ["X"] fresh_ctx init_world
              "OperationError" eq_refl eq_refl)
    as (w' & Hexec & Hview & _ & Hcr & _).
  exists w'. split; [exact Hexec|]. split; [exact Hview | exact Hcr].
Defined.

Lemma dispose_keeps_entries_witness :
  exec0 Sample.plugin (CreateBuffer Sample.desc_a) ["X"] fresh_ctx init_world
    = (Return (RResource h0), Sample.plugin, ctx_buffer, w_buffer) /\
  In h0 (destroyed (trace (snd (dispose ctx_buffer w_buffer)))) /\
  exec0 Sample.plugin (CreateBuffer Sample.desc_a) ["X"]
      (fst (dispose ctx_buffer w_buffer)) (snd (dispose ctx_buffer w_buffer))
    = (Return (RResource h0), Sample.plugin,
       fst (dispose ctx_buffer w_buffer), snd (dispose ctx_buffer w_buffer)).
Proof.
  assert (H : exec0 Sample.plugin (local_call Buffer Sample.desc_a) ["X"] fresh_ctx init_world
              = (Return (RResource h0), Sample.plugin, ctx_buffer, w_buffer))
    by (vm_compute; reflexivity).
  destruct (dispose_keeps_entries Sample.show Sample.stringHash Sample.shortId
              Sample.hashed_id Sample.accepting Sample.inherited Sample.plugin Buffer Sample.desc_a
              ["X"] ["X"] fresh_ctx init_world _ _ _ _ (or_introl eq_refl) H)
    as (_ & _ & Hheld & Hdestroyed & Hexec & _).
  split; [exact H|]. split; [|exact Hexec].
  rewrite Hdestroyed. apply in_or_app. right. exact Hheld.
Defined.

(** ** Examples of the further properties *)

Local Abbreviation exec_rejecting :=
  (exec Sample.show Sample.stringHash Sample.shortId Sample.hashed_id Sample.rejecting Sample.inherited).
Local Abbreviation reachable_rejecting :=
  (reachable Sample.show Sample.stringHash Sample.shortId Sample.hashed_id
     Sample.rejecting Sample.inherited unit Sample.action_outcome).
Local Abbreviation key_a := (globalResourceHash Sample.show Sample.desc_a).

(** A second device and a plugin for it. *)
Local Abbreviation gpu_b := {| dev_obj := 1; dev_instanceId := "gpu-1" |}.
Local Abbreviation plugin_b :=
  {| device := gpu_b; rendererContext := ∅; actionContext := [] |}.

(** The world after both devices were asked for the same shader module. *)
Local Abbreviation w_two :=
  (snd (exec0 plugin_b (CreateShaderModule Sample.desc_a) ["X"] fresh_ctx w_shader)).

(** The world after the sample device was lost before anything was asked. *)
Local Abbreviation w_lost := (device_lost 0 init_world).

Lemma isSameDependencies_NaN_witness :
  let a := {| arr_ref := 1; arr_items := [JNum 1; JNaN] |} in
  let b := {| arr_ref := 2; arr_items := [JNum 1; JNaN] |} in
  isSameDependencies (Some a) (Some b) = false /\
  isSameDependencies (Some a) (Some a) = true.
Proof.
  intros a b.
  assert (Hin : In JNaN (arr_items a)) by (right; left; reflexivity).
  assert (Hne : arr_ref a <> arr_ref b) by (simpl; lia).
  destruct (isSameDependencies_NaN a b Hin Hne) as (H1 & _ & H3).
  split; assumption.
Defined.

Lemma queueEffect_runs_when_deps_change_witness :
  let ctx1 := record_queueEffectsDeps "X" (Sample.deps_12 1) (ensure_fields fresh_ctx) in
  let w1 := emit (EvQueueEffect 0 Sample.gpu)
              (emit (EvLog (LogQueueEffect 1)) init_world) in
  table_get Sample.inherited (default ∅ (queueEffectsDeps fresh_ctx)) "X" = SUndefined /\
  exec0 Sample.plugin (QueueEffect 0 (Sample.deps_12 1)) ["X"] fresh_ctx init_world
    = (Return RUndefined, Sample.plugin, ctx1, w1) /\
  exec0 Sample.plugin (QueueEffect 1 (Sample.deps_12 2)) ["X"] ctx1 w1
    = (Return RUndefined, Sample.plugin, ctx1, w1) /\
  exec0 Sample.plugin (QueueEffect 1 (Sample.deps_13 2)) ["X"] ctx1 w1
    = (Return RUndefined, Sample.plugin,
       record_queueEffectsDeps "X" (Sample.deps_13 2) ctx1,
       emit (EvQueueEffect 1 Sample.gpu) (emit (EvLog (LogQueueEffect 1)) w1)).
Proof.
  intros ctx1 w1.
  assert (Hnone : table_get Sample.inherited (default ∅ (queueEffectsDeps fresh_ctx))
                    (join_callSite ["X"]) = SUndefined) by (vm_compute; reflexivity).
  pose proof (queueEffect_runs_when_deps_change Sample.show Sample.stringHash
                Sample.shortId Sample.hashed_id Sample.accepting Sample.inherited
                Sample.plugin ["X"]
                fresh_ctx init_world 0 1 (Sample.deps_12 1) (Sample.deps_12 2) Hnone) as H.
  pose proof (queueEffect_runs_when_deps_change Sample.show Sample.stringHash
                Sample.shortId Sample.hashed_id Sample.accepting Sample.inherited
                Sample.plugin ["X"]
                fresh_ctx init_world 0 1 (Sample.deps_12 1) (Sample.deps_13 2) Hnone) as H'.
  cbv zeta in H, H'. destruct H as (H1 & _ & Hsame & _). destruct H' as (_ & _ & _ & Hdiff).
  split; [exact Hnone|]. split; [exact H1|]. split.
  - apply Hsame. right. split; [reflexivity|]. repeat constructor.
  - apply Hdiff. intros [Href | [_ Hpair]]; [discriminate Href|].
    inversion Hpair as [|? ? ? ? _ Htl]; subst.
    inversion Htl as [|? ? ? ? Hhd _]; subst. vm_compute in Hhd. discriminate Hhd.
Defined.

(** A registration with dependencies at ["X"] leaves what the frame table
    answers at ["Y"], and at the inherited [toString], as it was. *)
Lemma pushFrame_touches_own_slot_witness :
  let res := exec0 Sample.plugin (PushFrame 0 (Some (Sample.deps_12 1))) ["X"]
               (snd (fst (exec0 Sample.plugin (PushFrame 1 (Some (Sample.deps_13 2))) ["Y"]
                            fresh_ctx init_world)))
               init_world in
  table_get Sample.inherited (default ∅ (frameDeps (snd (fst res)))) "Y"
    = SDeps (Sample.deps_13 2) /\
  table_get Sample.inherited (default ∅ (frameDeps (snd (fst res)))) "toString"
    = SOther (method 0) /\
  rendererContext (snd (fst (fst res))) !! "Y" = None.
Proof.
  intros res.
  assert (Hproto : join_callSite ["X"] <> "__proto__") by (vm_compute; discriminate).
  assert (HY : "Y" <> join_callSite ["X"]) by (vm_compute; discriminate).
  assert (HT : "toString" <> join_callSite ["X"]) by (vm_compute; discriminate).
  pose proof (pushFrame_touches_own_slot Sample.show Sample.stringHash Sample.shortId
                Sample.hashed_id Sample.accepting Sample.inherited Sample.plugin ["X"]
                (snd (fst (exec0 Sample.plugin (PushFrame 1 (Some (Sample.deps_13 2))) ["Y"]
                             fresh_ctx init_world)))
                init_world 0 (Some (Sample.deps_12 1)) "Y" Hproto HY) as H1.
  pose proof (pushFrame_touches_own_slot Sample.show Sample.stringHash Sample.shortId
                Sample.hashed_id Sample.accepting Sample.inherited Sample.plugin ["X"]
                (snd (fst (exec0 Sample.plugin (PushFrame 1 (Some (Sample.deps_13 2))) ["Y"]
                             fresh_ctx init_world)))
                init_world 0 (Some (Sample.deps_12 1)) "toString" Hproto HT) as H2.
  cbv zeta in H1, H2. destruct H1 as (Hr & Hg & _). destruct H2 as (_ & Hg2 & _).
  split; [|split].
  - etransitivity; [exact Hg|]. vm_compute. reflexivity.
  - etransitivity; [exact Hg2|]. vm_compute. reflexivity.
  - etransitivity; [exact Hr|]. vm_compute. reflexivity.
Defined.

Lemma first_settlement_stands_witness :
  let wr := {| wr_action := 0; wr_future := 0 |} in
  let w := snd (call_thunk 0 Sample.plugin init_world) in
  let w1 := run_wrapper unit Sample.action_outcome wr tt w in
  futures w !! 0 = Some Pending /\
  futures w1 !! 0 = Some (Resolved (VNum 7)) /\
  futures (run_wrapper unit Sample.action_outcome wr tt w1) = futures w1.
Proof.
  intros wr w w1.
  assert (Hpending : futures w !! wr_future wr = Some Pending) by (vm_compute; reflexivity).
  assert (Hout : (exists v, Sample.action_outcome (wr_action wr) tt = Fulfils v) \/
                 (exists e, Sample.action_outcome (wr_action wr) tt = Rejects e))
    by (left; exists (VNum 7); reflexivity).
  pose proof (first_settlement_stands unit Sample.action_outcome wr tt tt w Hpending Hout)
    as H.
  cbv zeta in H. destruct H as (H1 & H2 & _).
  split; [exact Hpending|]. split; [exact H1 | exact H2].
Defined.

Lemma global_request_shares_by_handle_token_witness :
  let layout tag := VObj [("instanceId", VStr "L1"); ("tag", VNum tag)] in
  let desc tag := [("label", VStr "p"); ("layout", layout tag); ("primitive", VNull)] in
  let w1 := snd (exec0 Sample.plugin (CreateRenderPipeline (desc 1%Z)) ["X"]
                   fresh_ctx init_world) in
  exec0 Sample.plugin (CreateRenderPipeline (desc 1%Z)) ["X"] fresh_ctx init_world
    = (Return (RResource h0), Sample.plugin, ensure_fields fresh_ctx, w1) /\
  exec0 Sample.plugin (CreateRenderPipeline (desc 2%Z)) ["Y"] fresh_ctx w1
    = (Return (RResource h0), Sample.plugin, ensure_fields fresh_ctx, w1).
Proof.
  intros layout desc w1.
  assert (Hne : "layout" <> "instanceId") by discriminate.
  assert (H : exec0 Sample.plugin
                (global_call RenderPipeline
                   ([("label", VStr "p")]
                      ++ ("layout", VObj [("instanceId", VStr "L1"); ("tag", VNum 1)])
                      :: [("primitive", VNull)])%list)
                ["X"] fresh_ctx init_world
              = (Return (RResource h0), Sample.plugin, ensure_fields fresh_ctx, w1))
    by (vm_compute; reflexivity).
  split; [exact H|].
  exact (global_request_shares_by_handle_token Sample.show Sample.stringHash Sample.shortId
           Sample.hashed_id Sample.accepting Sample.inherited Sample.plugin RenderPipeline
           "layout"
           [("instanceId", VStr "L1"); ("tag", VNum 1)]
           [("instanceId", VStr "L1"); ("tag", VNum 2)] "L1"
           [("label", VStr "p")] [("primitive", VNull)]
           ["X"] fresh_ctx init_world h0 Sample.plugin (ensure_fields fresh_ctx) w1
           Hne eq_refl eq_refl H ["Y"] fresh_ctx).
Defined.

Lemma reachable_w_shader : reachable0 w_shader.
Proof.
  eapply steps_next; [apply steps_refl|].
  apply (step_exec Sample.show Sample.stringHash Sample.shortId Sample.hashed_id
           Sample.accepting Sample.inherited unit Sample.action_outcome
           Sample.plugin (CreateShaderModule Sample.desc_a) ["X"] fresh_ctx init_world).
Defined.

Lemma reachable_w_two : reachable0 w_two.
Proof.
  eapply steps_next; [apply reachable_w_shader|].
  apply (step_exec Sample.show Sample.stringHash Sample.shortId Sample.hashed_id
           Sample.accepting Sample.inherited unit Sample.action_outcome
           plugin_b (CreateShaderModule Sample.desc_a) ["X"] fresh_ctx w_shader).
Defined.

Lemma reachable_w_lost : reachable0 w_lost.
Proof.
  eapply steps_next; [eapply steps_next; [apply steps_refl|]|].
  - apply (step_resolve_lost Sample.show Sample.stringHash Sample.shortId Sample.hashed_id
             Sample.accepting Sample.inherited unit Sample.action_outcome 0 init_world).
  - apply (step_run_microtasks Sample.show Sample.stringHash Sample.shortId Sample.hashed_id
             Sample.accepting Sample.inherited unit Sample.action_outcome (resolve_lost 0 init_world)).
Defined.

Lemma global_caches_partition_witness :
  cache_view ShaderModule 0 w_two !! key_a = Some h0 /\
  cache_view ShaderModule 1 w_two !! key_a = Some h1 /\
  res_obj h0 <> res_obj h1 /\
  (ShaderModule = ShaderModule /\ 0 = 0 /\ key_a = key_a).
Proof.
  assert (H0 : cache_view ShaderModule 0 w_two !! key_a = Some h0)
    by (vm_compute; reflexivity).
  assert (H1 : cache_view ShaderModule 1 w_two !! key_a = Some h1)
    by (vm_compute; reflexivity).
  split; [exact H0|]. split; [exact H1|]. split.
  - intros Hobj.
    destruct (global_caches_partition Sample.show Sample.stringHash Sample.shortId
                Sample.hashed_id Sample.accepting Sample.inherited unit Sample.action_outcome
                w_two ShaderModule ShaderModule 0 1 key_a key_a h0 h1 reachable_w_two
                H0 H1 Hobj) as (_ & Hdev & _).
    discriminate Hdev.
  - exact (global_caches_partition Sample.show Sample.stringHash Sample.shortId
             Sample.hashed_id Sample.accepting Sample.inherited unit Sample.action_outcome
             w_two ShaderModule ShaderModule 0 0 key_a key_a h0 h0 reachable_w_two
             H0 H0 eq_refl).
Defined.

Lemma global_request_frame_witness :
  cache_view ShaderModule 0
      (snd (exec0 Sample.plugin (CreateSampler Sample.desc_a) ["X"] fresh_ctx w_shader))
    !! key_a
  = cache_view ShaderModule 0 w_shader !! key_a.
Proof.
  assert (Hother : ShaderModule <> Sampler \/ 0 <> dev_obj (device Sample.plugin) \/
                   key_a <> key_a) by (left; discriminate).
  exact (proj1 (global_request_frame Sample.show Sample.stringHash Sample.shortId
                  Sample.hashed_id Sample.accepting Sample.inherited unit Sample.action_outcome
                  Sample.plugin Sampler Sample.desc_a ["X"] fresh_ctx w_shader
                  ShaderModule 0 key_a reachable_w_shader Hother)).
Defined.

Lemma failed_creation_is_attempted_again_witness :
  let first := exec_rejecting Sample.plugin (CreateShaderModule Sample.desc_a) ["X"]
                 fresh_ctx init_world in
  let second := exec_rejecting Sample.plugin (CreateShaderModule Sample.desc_a) ["Y"]
                  fresh_ctx (snd first) in
  fst (fst (fst second)) = Throw "OperationError" /\
  creations (trace (snd second))
    = [(Sample.gpu, KGlobal ShaderModule, Sample.desc_a);
       (Sample.gpu, KGlobal ShaderModule, Sample.desc_a)].
Proof.
  intros first second.
  assert (Hmiss : cache_view ShaderModule (dev_obj (device Sample.plugin)) init_world
                    !! key_a = None) by (vm_compute; reflexivity).
  pose proof (failed_creation_is_attempted_again Sample.show Sample.stringHash
                Sample.shortId Sample.hashed_id Sample.rejecting Sample.inherited Sample.plugin ShaderModule
                Sample.desc_a ["X"] ["Y"] fresh_ctx fresh_ctx init_world "OperationError"
                Hmiss eq_refl) as H.
  cbv zeta in H. destruct H as (_ & H2 & Hcr & _).
  split; [exact H2 | exact Hcr].
Defined.

Lemma failed_first_use_registers_cache_witness :
  let w1 := snd (exec_rejecting Sample.plugin (CreateShaderModule Sample.desc_a) ["X"]
                   fresh_ctx init_world) in
  outer ShaderModule (registry w1) !! 0 = Some 0 /\
  heap w1 !! 0 = Some ∅ /\
  outer ShaderModule (registry (device_lost 0 w1)) !! 0 = None.
Proof.
  intros w1.
  assert (Hlive : dev_obj (device Sample.plugin) ∉ lost init_world)
    by (vm_compute; intros H; discriminate H).
  assert (Hnone : outer ShaderModule (registry init_world)
                    !! dev_obj (device Sample.plugin) = None) by (vm_compute; reflexivity).
  pose proof (failed_first_use_registers_cache Sample.show Sample.stringHash
                Sample.shortId Sample.hashed_id Sample.rejecting Sample.inherited unit Sample.action_outcome
                Sample.plugin ShaderModule Sample.desc_a ["X"] fresh_ctx init_world
                "OperationError"
                (steps_refl Sample.show Sample.stringHash Sample.shortId Sample.hashed_id
                   Sample.rejecting Sample.inherited unit Sample.action_outcome init_world)
                Hlive Hnone eq_refl) as H.
  cbv zeta in H. destruct H as (_ & Hreg & Hheap & _ & Hgone).
  split; [exact Hreg|]. split; [exact Hheap | exact Hgone].
Defined.

Lemma device_loss_spares_live_devices_witness :
  cache_view ShaderModule 1 w_two !! key_a = Some h1 /\
  cache_view ShaderModule 1 (device_lost 1 w_two) = ∅ /\
  cache_view ShaderModule 0 (device_lost 1 w_two) = cache_view ShaderModule 0 w_two.
Proof.
  assert (Hlive : 0 ∉ lost (device_lost 1 w_two)).
  { apply (bool_decide_unpack _). vm_compute. exact I. }
  split; [vm_compute; reflexivity|]. split; [vm_compute; reflexivity|].
  exact (device_loss_spares_live_devices Sample.show Sample.stringHash Sample.shortId
           Sample.hashed_id Sample.accepting Sample.inherited unit Sample.action_outcome
           w_two 1 0 ShaderModule reachable_w_two Hlive).
Defined.

Lemma lost_device_cache_lasts_one_pass_witness :
  let w1 := snd (exec0 Sample.plugin (CreateShaderModule Sample.desc_a) ["X"]
                   fresh_ctx w_lost) in
  exec0 Sample.plugin (CreateShaderModule Sample.desc_a) ["X"] fresh_ctx w_lost
    = (Return (RResource h0), Sample.plugin, ensure_fields fresh_ctx, w1) /\
  cache_view ShaderModule 0 w1 = {[key_a := h0]} /\
  cache_view ShaderModule 0 (run_microtasks w1) = ∅.
Proof.
  intros w1.
  assert (Hlost : dev_obj (device Sample.plugin) ∈ lost w_lost).
  { apply (bool_decide_unpack _). vm_compute. exact I. }
  assert (Hquiet : microtasks w_lost = []) by (vm_compute; reflexivity).
  assert (H : exec0 Sample.plugin (global_call ShaderModule Sample.desc_a) ["X"]
                fresh_ctx w_lost
              = (Return (RResource h0), Sample.plugin, ensure_fields fresh_ctx, w1))
    by (vm_compute; reflexivity).
  pose proof (lost_device_cache_lasts_one_pass Sample.show Sample.stringHash
                Sample.shortId Sample.hashed_id Sample.accepting Sample.inherited unit Sample.action_outcome
                Sample.plugin ShaderModule Sample.desc_a ["X"] fresh_ctx w_lost h0
                Sample.plugin (ensure_fields fresh_ctx) w1
                reachable_w_lost Hlost Hquiet H) as Hthm.
  cbv zeta in Hthm. destruct Hthm as (Hview & _ & _ & Hgone & _).
  split; [exact H|]. split; [exact Hview | exact Hgone].
Defined.

Lemma local_entry_outlives_everything_witness :
  let ctx2 := snd (fst (exec0 plugin_b (CreateTexture Sample.desc_a) ["Y"]
                          (fst (dispose ctx_buffer w_buffer)) w_buffer)) in
  exec0 Sample.plugin (CreateBuffer Sample.desc_a) ["X"] fresh_ctx init_world
    = (Return (RResource h0), Sample.plugin, ctx_buffer, w_buffer) /\
  exec0 Sample.plugin (CreateBuffer Sample.desc_a) ["Z"] ctx2 (device_lost 0 w_buffer)
    = (Return (RResource h0), Sample.plugin, ctx2, device_lost 0 w_buffer).
Proof.
  intros ctx2.
  assert (H : exec0 Sample.plugin (local_call Buffer Sample.desc_a) ["X"] fresh_ctx init_world
              = (Return (RResource h0), Sample.plugin, ctx_buffer, w_buffer))
    by (vm_compute; reflexivity).
  split; [exact H|].
  refine (local_entry_outlives_everything Sample.show Sample.stringHash Sample.shortId
            Sample.hashed_id Sample.accepting Sample.inherited Sample.plugin Buffer Sample.desc_a ["X"]
            fresh_ctx init_world h0 Sample.plugin ctx_buffer ctx2 w_buffer H _
            Sample.plugin ["Z"] (device_lost 0 w_buffer) eq_refl).
  apply (ctx_steps_exec Sample.show Sample.stringHash Sample.shortId Sample.hashed_id
           Sample.accepting Sample.inherited ctx_buffer (fst (dispose ctx_buffer w_buffer)) plugin_b
           (CreateTexture Sample.desc_a) ["Y"] w_buffer).
  apply (ctx_steps_dispose Sample.show Sample.stringHash Sample.shortId Sample.hashed_id
           Sample.accepting Sample.inherited ctx_buffer ctx_buffer w_buffer).
  apply ctx_steps_refl.
Defined.

Lemma local_caches_partition_witness :
  let res := exec0 Sample.plugin (CreateTexture Sample.desc_a) ["X"] ctx_buffer w_buffer in
  let key := fst (localResourceHash Sample.show Sample.desc_a Sample.gpu) in
  ctx_wf w_buffer ctx_buffer /\
  get_field key (local_map Buffer (snd (fst res))) = Some h0 /\
  get_field key (local_map Texture (snd (fst res))) = Some h1 /\
  res_obj h0 <> res_obj h1 /\
  (Buffer = Buffer /\ key = key).
Proof.
  intros res key.
  assert (Hwf : ctx_wf w_buffer ctx_buffer).
  { apply (ctx_wf_exec_local_call Sample.show Sample.stringHash Sample.shortId
             Sample.hashed_id Sample.accepting Sample.inherited Sample.plugin Buffer Sample.desc_a ["X"]
             fresh_ctx init_world (Return (RResource h0)) Sample.plugin);
      [apply ctx_wf_fresh | vm_compute; reflexivity]. }
  assert (Hb : get_field key (local_map Buffer (snd (fst res))) = Some h0)
    by (vm_compute; reflexivity).
  assert (Ht : get_field key (local_map Texture (snd (fst res))) = Some h1)
    by (vm_compute; reflexivity).
  split; [exact Hwf|]. split; [exact Hb|]. split; [exact Ht|]. split.
  - intros Hobj.
    destruct (local_caches_partition Sample.show Sample.stringHash Sample.shortId
                Sample.hashed_id Sample.accepting Sample.inherited unit Sample.action_outcome
                Sample.plugin (CreateTexture Sample.desc_a) ["X"] ctx_buffer w_buffer
                Buffer Texture key key h0 h1 Hwf Hb Ht Hobj) as (Hkind & _).
    discriminate Hkind.
  - exact (local_caches_partition Sample.show Sample.stringHash Sample.shortId
             Sample.hashed_id Sample.accepting Sample.inherited unit Sample.action_outcome
             Sample.plugin (CreateTexture Sample.desc_a) ["X"] ctx_buffer w_buffer
             Buffer Buffer key key h0 h0 Hwf Hb Hb eq_refl).
Defined.


(** ** The first registration at an inherited key, and a descriptor with an
    [instanceId] of its own *)

(** At the call site ["toString"] the first registration, with the empty
    array, is disabled; so is the first registration at ["constructor"] with
    [[undefined]]. *)
Lemma pushFrame_first_registration_inherited_witness :
  default ∅ (frameDeps fresh_ctx) !! "toString" = (None : option DepArray) /\
  (exists f p' ctx',
     exec0 Sample.plugin (PushFrame 0 (Some {| arr_ref := 1; arr_items := [] |}))
       ["toString"] fresh_ctx init_world = (Return (RFrame f), p', ctx', init_world) /\
     enabled f = false) /\
  (exists f p' ctx',
     exec0 Sample.plugin (PushFrame 0 (Some {| arr_ref := 1; arr_items := [JUndefined] |}))
       ["constructor"] fresh_ctx init_world = (Return (RFrame f), p', ctx', init_world) /\
     enabled f = false).
Proof.
  assert (H0 : table_get Sample.inherited (default ∅ (frameDeps fresh_ctx))
                 (join_callSite ["toString"]) = SOther (method 0))
    by (vm_compute; reflexivity).
  assert (H1 : table_get Sample.inherited (default ∅ (frameDeps fresh_ctx))
                 (join_callSite ["constructor"]) = SOther (method 1))
    by (vm_compute; reflexivity).
  assert (U0 : Forall (fun v => v = JUndefined) (arr_items {| arr_ref := 1; arr_items := [] |}))
    by constructor.
  assert (U1 : Forall (fun v => v = JUndefined)
                 (arr_items {| arr_ref := 1; arr_items := [JUndefined] |}))
    by (repeat constructor).
  destruct (pushFrame_first_registration_inherited Sample.show Sample.stringHash
              Sample.shortId Sample.hashed_id Sample.accepting Sample.inherited
              Sample.plugin ["toString"] fresh_ctx init_world 0
              {| arr_ref := 1; arr_items := [] |} 0 H0 eq_refl U0)
    as (Hnone & f & p' & ctx' & Hexec & _ & Hoff & _).
  destruct (pushFrame_first_registration_inherited Sample.show Sample.stringHash
              Sample.shortId Sample.hashed_id Sample.accepting Sample.inherited
              Sample.plugin ["constructor"] fresh_ctx init_world 0
              {| arr_ref := 1; arr_items := [JUndefined] |} 1 H1 eq_refl U1)
    as (_ & f1 & p1 & ctx1 & Hexec1 & _ & Hoff1 & _).
  split; [exact Hnone|]. split.
  - exists f, p', ctx'. split; [exact Hexec | exact Hoff].
  - exists f1, p1, ctx1. split; [exact Hexec1 | exact Hoff1].
Defined.

(** A buffer descriptor that carries an [instanceId]. *)
Local Abbreviation desc_handle := [("instanceId", VStr "b-1"); ("size", VNum 256)].

